(** * Order-statistics AVL tree (AVLTree<T, Comparator>)

    A shallow embedding of the AVL tree with subtree counters: insertion that
    reports the rank of the new element, removal by key, and lookup of the
    K-th order statistic.  Nodes are exclusively owned by their parent, so the
    pointer structure is an inductive tree; [size_t] and [unsigned char] fields
    are numbers in [N] with their wrap-around written out; a failed [assert]
    or a null dereference is [None]. *)

From Stdlib Require Import NArith ZArith List Bool Lia Permutation Sorted Ascii.
Import ListNotations.

Local Open Scope N_scope.

(** ** Machine integers *)

(** [size_t] is 64 bits wide, [unsigned char] 8 bits. *)
Definition SIZE_MOD : N := 18446744073709551616.
Definition SIZE_MAX : N := 18446744073709551615.
Definition UCHAR_MOD : N := 256.

Definition wrap_size (x : N) : N := x mod SIZE_MOD.
Definition wrap_uchar (x : N) : N := x mod UCHAR_MOD.

(** [x--] on a [size_t]. *)
Definition size_dec (x : N) : N := wrap_size (x + SIZE_MAX).
(** [x++] on a [size_t]. *)
Definition size_inc (x : N) : N := wrap_size (x + 1).

(** ** Failure: a failed assertion or a null dereference *)

Definition bind {A B : Type} (m : option A) (f : A -> option B) : option B :=
  match m with
  | Some a => f a
  | None => None
  end.

Notation "x <- m ;; k" := (bind m (fun x => k))
  (at level 61, m at next level, right associativity).
Notation "' p <- m ;; k" := (bind m (fun x => let 'p := x in k))
  (at level 61, p pattern, m at next level, right associativity).

Section AVL.

Variable T : Type.
(** The comparator functor: [cmp a b] is "a < b". *)
Variable cmp : T -> T -> bool.
(** What a default-initialised local [T x;] holds before it is assigned. *)
Variable T_init : T.

(** ** Nodes *)

(** [Node *]: either [nullptr] or an owned node with its five fields. *)
Inductive Node : Type :=
| Null : Node
| Nd (data : T) (elements_subtree : N) (depth : N) (left right : Node) : Node.

(** [(p ? p->depth : 0)] *)
Definition depth_of (p : Node) : N :=
  match p with
  | Null => 0
  | Nd _ _ d _ _ => d
  end.

(** [Node::balance], an [int], from the two child pointers of the node. *)
Definition balance (left right : Node) : Z :=
  (Z.of_N (depth_of right) - Z.of_N (depth_of left))%Z.

(** [Node::update_depth]: the value stored into [depth]. *)
Definition update_depth (left right : Node) : N :=
  wrap_uchar (N.max (depth_of left) (depth_of right) + 1).

(** [Node::in_left_subtree] and [Node::in_right_subtree], on the child. *)
Definition in_subtree (child : Node) : N :=
  match child with
  | Null => 0
  | Nd _ es _ _ _ => wrap_size (es + 1)
  end.

Definition in_left_subtree (left : Node) : N := in_subtree left.
Definition in_right_subtree (right : Node) : N := in_subtree right.

(** [Node::update_elements_subtree]: the value stored into
    [elements_subtree]. *)
Definition update_elements_subtree (left right : Node) : N :=
  wrap_size (in_left_subtree left + in_right_subtree right).

(** ** Rotations *)

(** [rotate_right]: [node] takes [left->right] as its left child and becomes
    the right child of [left]; depth and counter of [node] are recomputed
    first, then those of [left], which read them. *)
Definition rotate_right (node : Node) : option Node :=
  match node with
  | Nd x _ _ (Nd lx _ _ ll lr) r =>
      let node' := Nd x (update_elements_subtree lr r) (update_depth lr r) lr r in
      Some (Nd lx (update_elements_subtree ll node') (update_depth ll node')
               ll node')
  | _ => None
  end.

Definition rotate_left (node : Node) : option Node :=
  match node with
  | Nd x _ _ l (Nd rx _ _ rl rr) =>
      let node' := Nd x (update_elements_subtree l rl) (update_depth l rl) l rl in
      Some (Nd rx (update_elements_subtree node' rr) (update_depth node' rr)
               node' rr)
  | _ => None
  end.

(** ** Rebalancing *)

Definition balance_node (node : Node) : option Node :=
  match node with
  | Null => None
  | Nd x es _ l r =>
      let d := update_depth l r in
      if (balance l r =? 2)%Z then
        match r with
        | Null => None
        | Nd _ _ _ rl rr =>
            r' <- (if (balance rl rr <? 0)%Z then rotate_right r else Some r) ;;
            rotate_left (Nd x es d l r')
        end
      else if (balance l r =? -2)%Z then
        match l with
        | Null => None
        | Nd _ _ _ ll lr =>
            l' <- (if (balance ll lr >? 0)%Z then rotate_left l else Some l) ;;
            rotate_right (Nd x es d l' r)
        end
      else Some (Nd x (update_elements_subtree l r) d l r)
  end.

(** ** Recursive insertion *)

(** Returns the new subtree root and the final content of [*pos_ptr]. *)
Fixpoint insert_rec (node : Node) (new_element : T) (pos : N)
  : option (Node * N) :=
  match node with
  | Null => Some (Nd new_element 0 1 Null Null, pos)
  | Nd x es d l r =>
      if cmp new_element x then
        '(l', pos') <- insert_rec l new_element pos ;;
        n' <- balance_node (Nd x (size_inc es) d l' r) ;;
        Some (n', pos')
      else
        let pos1 := wrap_size (pos + wrap_size (in_left_subtree l + 1)) in
        '(r', pos') <- insert_rec r new_element pos1 ;;
        n' <- balance_node (Nd x (size_inc es) d l r') ;;
        Some (n', pos')
  end.

(** ** K-th order statistic *)

(** [value] is the content of [*value] on entry; the result is its content
    on return. *)
Fixpoint get_Kth_rec (node : Node) (find_pos pos : N) (value : T) : T :=
  match node with
  | Null => value
  | Nd x _ _ l r =>
      let here := wrap_size (pos + in_left_subtree l) in
      if here =? find_pos then x
      else if here <? find_pos
           then get_Kth_rec r find_pos (wrap_size (here + 1)) value
           else get_Kth_rec l find_pos pos value
  end.

(** ** Removal of the minimum and of the maximum *)

(** Returns the new subtree root and the value written to [*save_data]. *)
Fixpoint remove_min (node : Node) : option (Node * T) :=
  match node with
  | Null => None
  | Nd x es d l r =>
      match l with
      | Null => Some (r, x)
      | Nd _ _ _ _ _ =>
          '(l', m) <- remove_min l ;;
          n' <- balance_node (Nd x (size_dec es) d l' r) ;;
          Some (n', m)
      end
  end.

Fixpoint remove_max (node : Node) : option (Node * T) :=
  match node with
  | Null => None
  | Nd x es d l r =>
      match r with
      | Null => Some (l, x)
      | Nd _ _ _ _ _ =>
          '(r', m) <- remove_max r ;;
          n' <- balance_node (Nd x (size_dec es) d l r') ;;
          Some (n', m)
      end
  end.

(** ** Recursive removal by key *)

(** [value] and [was_deleted] are the contents of [*value] and of the
    reference [was_deleted] on entry; the result carries the new subtree root
    and their contents on return. *)
Fixpoint remove_rec (node : Node) (key : T) (value : T) (was_deleted : bool)
  : option (Node * T * bool) :=
  match node with
  | Null => Some (Null, value, was_deleted)
  | Nd x es d l r =>
      if cmp x key then
        '(r', value', wd') <- remove_rec r key value was_deleted ;;
        n' <- balance_node (Nd x (if wd' then size_dec es else es) d l r') ;;
        Some (n', value', wd')
      else if cmp key x then
        '(l', value', wd') <- remove_rec l key value was_deleted ;;
        n' <- balance_node (Nd x (if wd' then size_dec es else es) d l' r) ;;
        Some (n', value', wd')
      else
        let right_depth := depth_of r in
        let left_depth := depth_of l in
        if (right_depth =? 0) && (left_depth =? 0) then
          Some (Null, x, was_deleted)
        else if left_depth <=? right_depth then
          '(r', m) <- remove_min r ;;
          n' <- balance_node (Nd m es d l r') ;;
          Some (n', x, was_deleted)
        else
          '(l', m) <- remove_max l ;;
          n' <- balance_node (Nd m es d l' r) ;;
          Some (n', x, was_deleted)
  end.

(** ** The container *)

Record AVLTree : Type := mkAVLTree {
  root : Node;
  element_count : N
}.

(** The constructor. *)
Definition AVLTree_new : AVLTree := mkAVLTree Null 0.

Definition insert (t : AVLTree) (new_element : T) : option (AVLTree * N) :=
  '(root', pos) <- insert_rec (root t) new_element 0 ;;
  Some (mkAVLTree root' (size_inc (element_count t)), pos).

Definition remove (t : AVLTree) (key : T) : option (AVLTree * T) :=
  '(root', deleted, was_deleted) <- remove_rec (root t) key T_init false ;;
  Some (mkAVLTree root'
          (if was_deleted then size_dec (element_count t) else element_count t),
        deleted).

Definition get_Kth (t : AVLTree) (pos : N) : option T :=
  if pos <? element_count t
  then Some (get_Kth_rec (root t) pos 0 T_init)
  else None.

(** ** Abstract views of a tree *)

(** The keys in in-order (left subtree, node, right subtree). *)
Fixpoint inorder (n : Node) : list T :=
  match n with
  | Null => []
  | Nd x _ _ l r => inorder l ++ x :: inorder r
  end.

(** The true height: 0 for an absent child, 1 for a leaf. *)
Fixpoint height (n : Node) : N :=
  match n with
  | Null => 0
  | Nd _ _ _ l r => 1 + N.max (height l) (height r)
  end.

(** The true number of nodes of a subtree. *)
Fixpoint node_count (n : Node) : N :=
  match n with
  | Null => 0
  | Nd _ _ _ l r => 1 + node_count l + node_count r
  end.

(** ** Invariants *)

(** Balance invariant: at every node the heights of the two child subtrees
    differ by at most one. *)
Fixpoint balanced (n : Node) : Prop :=
  match n with
  | Null => True
  | Nd _ _ _ l r =>
      (Z.abs (Z.of_N (height r) - Z.of_N (height l)) <= 1)%Z /\
      balanced l /\ balanced r
  end.

(** Height invariant: every [depth] field holds the true height. *)
Fixpoint depth_inv (n : Node) : Prop :=
  match n with
  | Null => True
  | Nd _ _ d l r => d = height n /\ depth_inv l /\ depth_inv r
  end.

(** Size invariant: every [elements_subtree] field is the number of nodes of
    the subtree without the node itself, and is the sum of what the two
    children contribute through [in_left_subtree] and [in_right_subtree]. *)
Fixpoint size_inv (n : Node) : Prop :=
  match n with
  | Null => True
  | Nd _ es _ l r =>
      es + 1 = node_count n /\
      es = in_left_subtree l + in_right_subtree r /\
      size_inv l /\ size_inv r
  end.

(** The three invariants together, in the form the proofs use. *)
Fixpoint wf (n : Node) : Prop :=
  match n with
  | Null => True
  | Nd _ es d l r =>
      wf l /\ wf r /\
      d = 1 + N.max (height l) (height r) /\
      (Z.abs (Z.of_N (height r) - Z.of_N (height l)) <= 1)%Z /\
      es = node_count l + node_count r
  end.

(** [a] is not greater than [b] under the comparator. *)
Definition not_greater (a b : T) : Prop := cmp b a = false.

(** [a] and [b] are equal under the comparator. *)
Definition equiv (a b : T) : Prop := cmp a b = false /\ cmp b a = false.
Definition equivb (a b : T) : bool := negb (cmp a b) && negb (cmp b a).

(** Order invariant as the specification words it: keys of the left subtree
    strictly less than the key of the node, keys of the right subtree greater
    or equal. *)
Fixpoint bst_strict (n : Node) : Prop :=
  match n with
  | Null => True
  | Nd x _ _ l r =>
      (forall y, In y (inorder l) -> cmp y x = true) /\
      (forall y, In y (inorder r) -> cmp y x = false) /\
      bst_strict l /\ bst_strict r
  end.

(** Order invariant the tree keeps: keys of the left subtree not greater than
    the key of the node, keys of the right subtree not less. *)
Fixpoint bst_weak (n : Node) : Prop :=
  match n with
  | Null => True
  | Nd x _ _ l r =>
      (forall y, In y (inorder l) -> cmp x y = false) /\
      (forall y, In y (inorder r) -> cmp y x = false) /\
      bst_weak l /\ bst_weak r
  end.

(** The number of elements of [l] that are not greater than [e]. *)
Definition rank_of (e : T) (l : list T) : nat :=
  length (filter (fun y => negb (cmp e y)) l).

(** Insertion into a sorted list after every element not greater than [e]:
    one step of a stable insertion sort. *)
Fixpoint stable_insert (e : T) (l : list T) : list T :=
  match l with
  | [] => [e]
  | y :: l' => if cmp e y then e :: l else y :: stable_insert e l'
  end.

Definition stable_sort (xs : list T) : list T :=
  fold_left (fun acc e => stable_insert e acc) xs [].

(** The node the descent of [remove_rec] stops at: the first node on the
    search path from the root whose key is equal to [key] under the
    comparator, if there is one. *)
Fixpoint find_on_path (key : T) (n : Node) : option T :=
  match n with
  | Null => None
  | Nd x _ _ l r =>
      if cmp x key then find_on_path key r
      else if cmp key x then find_on_path key l
      else Some x
  end.

(** What the comparator has to be for the order invariant to make sense:
    a strict weak ordering, given as asymmetry and negative transitivity. *)
Definition strict_weak_order : Prop :=
  (forall a b, cmp a b = true -> cmp b a = false) /\
  (forall a b c, cmp a c = true -> cmp a b = true \/ cmp b c = true).

(** A list in non-decreasing order under the comparator. *)
Definition sorted (l : list T) : Prop := StronglySorted not_greater l.

(** ** Reachable states *)

(** The states a program can reach through the public operations.  An insert
    step is taken only while [element_count] can still be incremented without
    overflowing [size_t]. *)
Inductive reachable : AVLTree -> Prop :=
| reach_new : reachable AVLTree_new
| reach_insert t x t' pos :
    reachable t -> element_count t < SIZE_MAX ->
    insert t x = Some (t', pos) -> reachable t'
| reach_remove t k t' v :
    reachable t -> remove t k = Some (t', v) -> reachable t'.

(** What holds of every reachable state, apart from the order of the keys. *)
Definition state_inv (t : AVLTree) : Prop :=
  wf (root t) /\ node_count (root t) <= element_count t /\
  element_count t <= SIZE_MAX.

(** The state after inserting the elements of [xs] one by one. *)
Definition insert_all (xs : list T) : option AVLTree :=
  fold_left (fun acc x => t <- acc ;; '(t', _) <- insert t x ;; Some t')
            xs (Some AVLTree_new).

End AVL.

Arguments Null {T}.
Arguments Nd {T}.
Arguments mkAVLTree {T}.
Arguments root {T}.
Arguments element_count {T}.
Arguments AVLTree_new {T}.
Arguments inorder {T}.
Arguments height {T}.
Arguments node_count {T}.
Arguments balanced {T}.
Arguments depth_inv {T}.
Arguments size_inv {T}.
Arguments wf {T}.
Arguments depth_of {T}.
Arguments balance {T}.
Arguments update_depth {T}.
Arguments in_subtree {T}.
Arguments in_left_subtree {T}.
Arguments in_right_subtree {T}.
Arguments update_elements_subtree {T}.
Arguments rotate_left {T}.
Arguments rotate_right {T}.
Arguments balance_node {T}.
Arguments insert_rec {T}.
Arguments get_Kth_rec {T}.
Arguments remove_min {T}.
Arguments remove_max {T}.
Arguments remove_rec {T}.
Arguments insert {T}.
Arguments remove {T}.
Arguments get_Kth {T}.
Arguments not_greater {T}.
Arguments equiv {T}.
Arguments equivb {T}.
Arguments bst_strict {T}.
Arguments bst_weak {T}.
Arguments rank_of {T}.
Arguments stable_insert {T}.
Arguments stable_sort {T}.
Arguments find_on_path {T}.
Arguments strict_weak_order {T}.
Arguments sorted {T}.
Arguments state_inv {T}.
Arguments reachable {T}.
Arguments insert_all {T}.

(** ** Concrete instances *)

Local Open Scope Z_scope.

(** Integers under [<]. *)
Definition int_less : Z -> Z -> bool := Z.ltb.

(** Records [(key, tag)] compared by key alone: records with the same key
    are equal under the comparator and still told apart by their tag. *)
Definition key_less (a b : Z * Z) : bool := fst a <? fst b.

(** The tree after inserting 5, 3, 8, 1, 4, 7, 9. *)
Definition tree7 : AVLTree Z :=
  mkAVLTree
    (Nd 5 6%N 3%N
       (Nd 3 2%N 2%N (Nd 1 0%N 1%N Null Null) (Nd 4 0%N 1%N Null Null))
       (Nd 8 2%N 2%N (Nd 7 0%N 1%N Null Null) (Nd 9 0%N 1%N Null Null)))
    7%N.

(** [tree7] after [remove(8)]. *)
Definition tree7_less_8 : AVLTree Z :=
  mkAVLTree
    (Nd 5 5%N 3%N
       (Nd 3 2%N 2%N (Nd 1 0%N 1%N Null Null) (Nd 4 0%N 1%N Null Null))
       (Nd 9 1%N 2%N (Nd 7 0%N 1%N Null Null) Null))
    7%N.

(** The tree after inserting 5 three times: the second 5 is the root. *)
Definition tree555 : AVLTree Z :=
  mkAVLTree (Nd 5 2%N 2%N (Nd 5 0%N 1%N Null Null) (Nd 5 0%N 1%N Null Null))
            3%N.

(** The tree after inserting (5,1), (5,2), (5,3). *)
Definition tagged555 : AVLTree (Z * Z) :=
  mkAVLTree
    (Nd (5, 2) 2%N 2%N (Nd (5, 1) 0%N 1%N Null Null)
                       (Nd (5, 3) 0%N 1%N Null Null))
    3%N.

(** The tree holding the single element 5, and what [remove(5)] leaves. *)
Definition tree5 : AVLTree Z := mkAVLTree (Nd 5 0%N 1%N Null Null) 1%N.
Definition tree5_less_5 : AVLTree Z := mkAVLTree Null 1%N.

Local Close Scope Z_scope.

(** ** The claims of the specification that the code does not meet, as
    predicates *)

(** "The result of removing an absent key is told apart from the result of
    every removal": the returned values differ. *)
Definition absence_is_signalled {T : Type} (cmp : T -> T -> bool) (T_init : T)
  : Prop :=
  forall (t1 t2 t1' t2' : AVLTree T) (key v1 v2 : T),
    reachable cmp T_init t1 -> reachable cmp T_init t2 ->
    (forall y, In y (inorder (root t1)) -> ~ equiv cmp y key) ->
    (exists y, In y (inorder (root t2)) /\ equiv cmp y key) ->
    remove cmp T_init t1 key = Some (t1', v1) ->
    remove cmp T_init t2 key = Some (t2', v2) ->
    v1 <> v2.

(** "[remove] takes out the first match of the in-order traversal". *)
Definition removes_leftmost_match {T : Type} (cmp : T -> T -> bool)
  (T_init : T) : Prop :=
  forall (t t' : AVLTree T) (key v : T),
    reachable cmp T_init t ->
    (exists y, In y (inorder (root t)) /\ equiv cmp y key) ->
    remove cmp T_init t key = Some (t', v) ->
    find (equivb cmp key) (inorder (root t)) = Some v.

(** "The element count is the number of inserts minus the number of removes
    that removed something": after a run it is the number of nodes. *)
Definition count_is_consistent {T : Type} (t : AVLTree T) : Prop :=
  element_count t = node_count (root t).

(** * The naive binary tree (BinaryTree<T, Comparator>) *)

(** [int] is 32 bits wide, two's complement. *)
Definition INT_MAX : Z := 2147483647.

(** The conversion of a [size_t] to [int]: reduction modulo [2^32] into
    [-2^31 .. 2^31 - 1]. *)
Definition to_int (x : Z) : Z :=
  ((x + 2147483648) mod 4294967296 - 2147483648)%Z.

Module BinaryTree.

Section Defs.

Variable T : Type.
(** The comparator functor: [cmp a b] is "a < b". *)
Variable cmp : T -> T -> bool.

(** [Node *]: [nullptr] or a node with its data and two children. *)
Inductive Node : Type :=
| Null : Node
| Nd (data : T) (left right : Node) : Node.

(** The [while (true)] descent of [insert], started at [current_node]: the
    new element goes right where [cmp(current_node->data, new_element)] is
    false and left where it is true, and is attached where the child is
    missing.  [None] is a null [current_node], which the loop never
    holds. *)
Fixpoint insert_loop (current_node : Node) (new_element : T) : option Node :=
  match current_node with
  | Null => None
  | Nd x l r =>
      if negb (cmp x new_element) then
        match r with
        | Null => Some (Nd x l (Nd new_element Null Null))
        | Nd _ _ _ => r' <- insert_loop r new_element ;; Some (Nd x l r')
        end
      else
        match l with
        | Null => Some (Nd x (Nd new_element Null Null) r)
        | Nd _ _ _ => l' <- insert_loop l new_element ;; Some (Nd x l' r)
        end
  end.

(** [insert]: the new root. *)
Definition insert (root : Node) (new_element : T) : option Node :=
  match root with
  | Null => Some (Nd new_element Null Null)
  | Nd _ _ _ => insert_loop root new_element
  end.

(** The converting constructor: the elements of [input] inserted in order
    into an empty tree. *)
Definition from_vector (input : list T) : option Node :=
  fold_left (fun acc it => root <- acc ;; insert root it) input (Some Null).

(** [queue.push(child)] guarded by [if (child)]. *)
Definition push_if (queue : list Node) (child : Node) : list Node :=
  match child with
  | Null => queue
  | Nd _ _ _ => queue ++ [child]
  end.

(** The inner [for] loop of the breadth-first traversals, with [on_level]
    iterations left: each takes the front of the queue and pushes its
    children.  [None] is [front()] on an empty queue or a null node in the
    queue. *)
Fixpoint drain_level (on_level : nat) (queue : list Node)
  : option (list Node) :=
  match on_level with
  | O => Some queue
  | S k =>
      match queue with
      | [] => None
      | Null :: _ => None
      | Nd _ l r :: rest => drain_level k (push_if (push_if rest l) r)
      end
  end.

(** The [while (!queue.empty())] loop of [get_depth]; [None] is undefined
    behaviour (overflow of the [int] counter included) or exhausted
    [fuel]. *)
Fixpoint depth_loop (fuel : nat) (queue : list Node) (depth : Z)
  : option Z :=
  match fuel with
  | O => None
  | S fuel' =>
      match queue with
      | [] => Some depth
      | _ :: _ =>
          if (depth =? INT_MAX)%Z then None else
          let on_level := to_int (Z.of_nat (length queue)) in
          queue' <- drain_level (Z.to_nat on_level) queue ;;
          depth_loop fuel' queue' (depth + 1)%Z
      end
  end.

(** The number of nodes, which bounds the number of levels. *)
Fixpoint node_count (n : Node) : nat :=
  match n with
  | Null => 0
  | Nd _ l r => S (node_count l + node_count r)
  end.

(** [get_depth]: the outer loop runs once per level, so one round per node
    and one more are fuel enough. *)
Definition get_depth (root : Node) : option Z :=
  match root with
  | Null => Some 0%Z
  | Nd _ _ _ => depth_loop (S (node_count root)) [root] 0%Z
  end.

(** The loop of the destructor over the explicit stack (top at the head);
    [deleted] collects the data of the nodes in the order they are
    deleted.  [None] is a null pointer followed, or exhausted [fuel]. *)
Fixpoint destroy_loop (fuel : nat) (dfs_stack : list Node) (deleted : list T)
  : option (list T) :=
  match fuel with
  | O => None
  | S fuel' =>
      match dfs_stack with
      | [] => Some deleted
      | Null :: _ => None
      | Nd x l r :: rest =>
          let st1 := match l with Null => rest | Nd _ _ _ => l :: rest end in
          let st2 := match r with Null => st1 | Nd _ _ _ => r :: st1 end in
          destroy_loop fuel' st2 (deleted ++ [x])
      end
  end.

(** The destructor: [root] is pushed without a null check. *)
Definition destroy (root : Node) : option (list T) :=
  destroy_loop (S (S (node_count root))) [root] [].

(** ** Abstract views *)

Fixpoint inorder (n : Node) : list T :=
  match n with
  | Null => []
  | Nd x l r => inorder l ++ x :: inorder r
  end.

Fixpoint height (n : Node) : nat :=
  match n with
  | Null => 0
  | Nd _ l r => S (Nat.max (height l) (height r))
  end.

(** The order the descent keeps at every node: what went left is what the
    comparator put above the node's key, what went right is the rest. *)
Fixpoint ordered (n : Node) : Prop :=
  match n with
  | Null => True
  | Nd x l r =>
      (forall y, In y (inorder l) -> cmp x y = true) /\
      (forall y, In y (inorder r) -> cmp x y = false) /\
      ordered l /\ ordered r
  end.

(** The number of nodes at distance [d] from the root. *)
Fixpoint width_at (d : nat) (n : Node) {struct n} : nat :=
  match n with
  | Null => 0
  | Nd _ l r =>
      match d with
      | O => 1
      | S d' => width_at d' l + width_at d' r
      end
  end.

(** The widest level among the first [levels] ones. *)
Fixpoint widest (levels : nat) (n : Node) : nat :=
  match levels with
  | O => 0
  | S k => Nat.max (widest k n) (width_at k n)
  end.

(** A tree in which no node has a right child. *)
Fixpoint left_chain (n : Node) : Prop :=
  match n with
  | Null => True
  | Nd _ l r => r = Null /\ left_chain l
  end.

(** *** Views of a queue of subtrees *)

Definition non_null (n : Node) : Prop := n <> Null.

(** The children a node contributes to the next level. *)
Definition children (n : Node) : list Node :=
  match n with
  | Null => []
  | Nd _ l r => push_if (push_if [] l) r
  end.

Definition next_level (queue : list Node) : list Node :=
  flat_map children queue.

Definition forest_count (queue : list Node) : nat :=
  list_sum (map node_count queue).

Definition forest_height (queue : list Node) : nat :=
  fold_right Nat.max 0%nat (map height queue).

Definition forest_width_at (d : nat) (queue : list Node) : nat :=
  list_sum (map (width_at d) queue).

Fixpoint forest_widest (levels : nat) (queue : list Node) : nat :=
  match levels with
  | O => 0
  | S k => Nat.max (forest_widest k queue) (forest_width_at k queue)
  end.

End Defs.

Arguments Null {T}.
Arguments Nd {T}.
Arguments insert_loop {T}.
Arguments insert {T}.
Arguments from_vector {T}.
Arguments push_if {T}.
Arguments drain_level {T}.
Arguments depth_loop {T}.
Arguments node_count {T}.
Arguments get_depth {T}.
Arguments destroy_loop {T}.
Arguments destroy {T}.
Arguments inorder {T}.
Arguments height {T}.
Arguments ordered {T}.
Arguments width_at {T}.
Arguments widest {T}.
Arguments left_chain {T}.
Arguments non_null {T}.
Arguments children {T}.
Arguments next_level {T}.
Arguments forest_count {T}.
Arguments forest_height {T}.
Arguments forest_width_at {T}.
Arguments forest_widest {T}.

End BinaryTree.

(** * The width of a tree (get_max_width) *)

Module TreeWidth.

Import BinaryTree.

(** The [while (!queue.empty())] loop of [get_max_width]; the inner [for]
    loop is the one of [BinaryTree::get_depth], word for word. *)
Fixpoint width_loop {T : Type} (fuel : nat) (queue : list (Node T))
  (max_width : Z) : option Z :=
  match fuel with
  | O => None
  | S fuel' =>
      match queue with
      | [] => Some max_width
      | _ :: _ =>
          let size := to_int (Z.of_nat (length queue)) in
          queue' <- drain_level (Z.to_nat size) queue ;;
          width_loop fuel' queue' (Z.max max_width size)
      end
  end.

(** [get_max_width], at the nodes of [BinaryTree] for the pointer type
    [E]. *)
Definition get_max_width {T : Type} (root : Node T) : option Z :=
  match root with
  | Null => Some 0%Z
  | Nd _ _ _ => width_loop (S (node_count root)) [root] 1%Z
  end.

End TreeWidth.

(** * The treap (Treap<T, P, ComparatorT, ComparatorP>) *)

Module Treap.

Section Defs.

Variables T P : Type.
(** The comparators of the data and of the priorities: "a < b". *)
Variable cmp_data : T -> T -> bool.
Variable cmp_priority : P -> P -> bool.

(** [std::shared_ptr<Node>]: null or a node.  Every node has one owner at a
    time, so the structure is a tree. *)
Inductive Node : Type :=
| Null : Node
| Nd (data : T) (priority : P) (left right : Node) : Node.

(** [split]: the pair of the tree of the nodes whose data is less than
    [key] and the tree of the others; the nodes are relinked in place. *)
Fixpoint split (t : Node) (key : T) : Node * Node :=
  match t with
  | Null => (Null, Null)
  | Nd x p l r =>
      if cmp_data x key then
        let right_nodes := split r key in
        (Nd x p l (fst right_nodes), snd right_nodes)
      else
        let left_nodes := split l key in
        (fst left_nodes, Nd x p (snd left_nodes) r)
  end.

(** The [while (true)] descent of [insert] from [current_node]; [None] is a
    null [current_node], which the loop never holds. *)
Fixpoint insert_loop (current_node : Node) (new_element : T)
  (new_priority : P) : option Node :=
  match current_node with
  | Null => None
  | Nd x px l r =>
      if cmp_data x new_element then
        match r with
        | Null => Some (Nd x px l (Nd new_element new_priority Null Null))
        | Nd _ pr _ _ =>
            if cmp_priority pr new_priority then
              let left_right := split r new_element in
              Some (Nd x px l (Nd new_element new_priority
                                  (fst left_right) (snd left_right)))
            else
              r' <- insert_loop r new_element new_priority ;;
              Some (Nd x px l r')
        end
      else
        match l with
        | Null => Some (Nd x px (Nd new_element new_priority Null Null) r)
        | Nd _ pl _ _ =>
            if cmp_priority pl new_priority then
              let left_right := split l new_element in
              Some (Nd x px (Nd new_element new_priority
                                (fst left_right) (snd left_right)) r)
            else
              l' <- insert_loop l new_element new_priority ;;
              Some (Nd x px l' r)
        end
  end.

(** [insert]: the new root. *)
Definition insert (root : Node) (new_element : T) (new_priority : P)
  : option Node :=
  match root with
  | Null =>
      let left_right := split root new_element in
      Some (Nd new_element new_priority (fst left_right) (snd left_right))
  | Nd _ pr _ _ =>
      if cmp_priority pr new_priority then
        let left_right := split root new_element in
        Some (Nd new_element new_priority (fst left_right) (snd left_right))
      else insert_loop root new_element new_priority
  end.

(** The tree after inserting the pairs of [xs] one by one. *)
Definition insert_all (xs : list (T * P)) : option Node :=
  fold_left (fun acc ep => root <- acc ;; insert root (fst ep) (snd ep))
            xs (Some Null).

(** ** Abstract views *)

(** The nodes in in-order, as pairs of data and priority. *)
Fixpoint items (n : Node) : list (T * P) :=
  match n with
  | Null => []
  | Nd x p l r => items l ++ (x, p) :: items r
  end.

Definition inorder (n : Node) : list T := map fst (items n).
Definition priorities (n : Node) : list P := map snd (items n).

(** Heap order: no priority below a node is greater than the node's. *)
Fixpoint heap (n : Node) : Prop :=
  match n with
  | Null => True
  | Nd _ p l r =>
      (forall q, In q (priorities l) -> cmp_priority p q = false) /\
      (forall q, In q (priorities r) -> cmp_priority p q = false) /\
      heap l /\ heap r
  end.

(** Insertion into a sorted list before every element not less than [e]. *)
Fixpoint insert_before (e : T) (l : list T) : list T :=
  match l with
  | [] => [e]
  | y :: l' => if cmp_data y e then y :: insert_before e l' else e :: l
  end.

End Defs.

Arguments Null {T P}.
Arguments Nd {T P}.
Arguments split {T P}.
Arguments insert_loop {T P}.
Arguments insert {T P}.
Arguments insert_all {T P}.
Arguments items {T P}.
Arguments inorder {T P}.
Arguments priorities {T P}.
Arguments heap {T P}.
Arguments insert_before {T}.

End Treap.

(** * The open-addressing hash table (HashTable<T, Hash, Equal>) *)

Module HashTable.

(** ** The string hash (struct hash<A>) *)

(** The conversion of an [int] or a [char] to [size_t]. *)
Definition to_size (z : Z) : N := Z.to_N (z mod 18446744073709551616)%Z.

(** The value of a [char]: plain [char] is signed or unsigned, as the
    platform has it. *)
Definition char_value (char_is_signed : bool) (c : Ascii.ascii) : Z :=
  let n := Z.of_N (Ascii.N_of_ascii c) in
  if char_is_signed && (128 <=? n)%Z then (n - 256)%Z else n.

(** [hash<A>::operator()(key, m)]: Horner's scheme modulo [m]; [None] is
    the division by zero of [% m]. *)
Definition string_hash (char_is_signed : bool) (A : Z) (key : list Ascii.ascii)
  (m : N) : option N :=
  fold_left
    (fun acc symbol =>
       hash <- acc ;;
       if m =? 0 then None
       else Some (wrap_size (wrap_size (hash * to_size A)
                             + to_size (char_value char_is_signed symbol))
                  mod m))
    key (Some 0).

(** ** The table *)

Section Defs.

Variable T : Type.
(** [operator==] of [T]; [operator!=] is its negation. *)
Variable eqb : T -> T -> bool.
(** The functors [Hash] and [Equal]. *)
Variable hash : T -> N -> N.
Variable equal : T -> T -> bool.
(** The two reserved values. *)
Variables deleted empty : T.
(** The test [fabs(double(elements_count) / capacity - max_load_factor) < eps]
    of [insert], as a function of [elements_count] and [capacity]: the
    floating-point arithmetic is left open, every outcome is allowed for. *)
Variable load_reached : N -> N -> bool.

Record HashTable : Type := mkHashTable {
  hash_container : list T;
  elements_count : N;
  capacity : N
}.

(** The constructor. *)
Definition HashTable_new (cap : N) : HashTable :=
  mkHashTable (repeat empty (N.to_nat cap)) 0 cap.

(** [*it = x] for the iterator at index [j]. *)
Fixpoint assign (container : list T) (j : nat) (x : T) : list T :=
  match container, j with
  | [], _ => []
  | _ :: rest, O => x :: rest
  | y :: rest, S j' => y :: assign rest j' x
  end.

(** The loop of [look_up], entered with the values the variables have at
    the test of the [while]; the result is the index of the iterator
    returned.  [None] is an index outside the vector, [% 0], or exhausted
    [fuel]. *)
Fixpoint look_up_loop (fuel : nat) (container : list T) (cap : N) (key : T)
  (original_hash_index hash_index i : N)
  (was_empty : bool) (first_empty_index : N) : option N :=
  match fuel with
  | O => None
  | S fuel' =>
      cell <- nth_error container (N.to_nat hash_index) ;;
      if negb (eqb cell empty) then
        let was_empty' := was_empty || eqb cell deleted in
        let first_empty_index' :=
          if eqb cell deleted && negb was_empty
          then hash_index else first_empty_index in
        if equal cell key then Some hash_index
        else if cap =? 0 then None
        else
          let hash_index' := wrap_size (hash_index + i) mod cap in
          if original_hash_index =? hash_index'
          then Some (if was_empty' then first_empty_index' else hash_index')
          else look_up_loop fuel' container cap key original_hash_index
                 hash_index' (size_inc i) was_empty' first_empty_index'
      else Some (if was_empty then first_empty_index else hash_index)
  end.

(** [look_up]: the probe sequence comes back to where it started after at
    most [2 * capacity - 1] steps, so [2 * capacity] rounds are fuel
    enough. *)
Definition look_up (h : HashTable) (key : T) : option N :=
  look_up_loop (N.to_nat (2 * capacity h)) (hash_container h) (capacity h) key
    (hash key (capacity h)) (hash key (capacity h)) 1 false 0.

(** [cell != deleted && cell != empty] *)
Definition live (cell : T) : bool :=
  negb (eqb cell deleted) && negb (eqb cell empty).

Definition has (h : HashTable) (key : T) : option bool :=
  it <- look_up h key ;;
  cell <- nth_error (hash_container h) (N.to_nat it) ;;
  Some (live cell).

Definition erase (h : HashTable) (key : T) : option (HashTable * bool) :=
  if elements_count h =? 0 then Some (h, false)
  else
    it <- look_up h key ;;
    cell <- nth_error (hash_container h) (N.to_nat it) ;;
    if eqb cell deleted || eqb cell empty then Some (h, false)
    else
      Some (mkHashTable (assign (hash_container h) (N.to_nat it) deleted)
                        (size_dec (elements_count h)) (capacity h),
            true).

(** [rehash], over the [insert] it calls for every live cell of the old
    vector. *)
Definition rehash (insert : HashTable -> T -> option (HashTable * bool))
  (h : HashTable) (cap : N) : option HashTable :=
  fold_left
    (fun acc it =>
       h' <- acc ;;
       if live it then '(h'', _) <- insert h' it ;; Some h'' else Some h')
    (hash_container h)
    (Some (HashTable_new cap)).

(** [insert]; [fuel] bounds how deep [insert] and [rehash] call each
    other. *)
Fixpoint insert (fuel : nat) (h : HashTable) (new_element : T)
  : option (HashTable * bool) :=
  match fuel with
  | O => None
  | S fuel' =>
      h1 <- (if load_reached (elements_count h) (capacity h)
             then rehash (insert fuel') h (wrap_size (capacity h * 2))
             else Some h) ;;
      insert_it <- look_up h1 new_element ;;
      cell <- nth_error (hash_container h1) (N.to_nat insert_it) ;;
      if live cell then Some (h1, false)
      else
        Some (mkHashTable
                (assign (hash_container h1) (N.to_nat insert_it) new_element)
                (size_inc (elements_count h1)) (capacity h1),
              true)
  end.

(** ** Well-formed tables *)

(** The vector has [capacity] cells, there is at least one, and few enough
    for the index arithmetic of [look_up] not to wrap around. *)
Definition table_ok (h : HashTable) : Prop :=
  length (hash_container h) = N.to_nat (capacity h) /\
  0 < capacity h /\ capacity h < 4611686018427387904.

End Defs.

Arguments mkHashTable {T}.
Arguments hash_container {T}.
Arguments elements_count {T}.
Arguments capacity {T}.
Arguments HashTable_new {T}.
Arguments assign {T}.
Arguments look_up_loop {T}.
Arguments look_up {T}.
Arguments live {T}.
Arguments has {T}.
Arguments erase {T}.
Arguments rehash {T}.
Arguments insert {T}.
Arguments table_ok {T}.

(** ** A table of numbers *)

(** [0] is the empty cell, [1] the tombstone, the hash is the key modulo
    the capacity, and the load test is for 3/4. *)
Definition number_hash (key m : N) : N := key mod m.
Definition three_quarters (count cap : N) : bool := 4 * count =? 3 * cap.

Definition number_table (cells : list N) (count cap : N) : HashTable N :=
  mkHashTable cells count cap.

End HashTable.

(** * Properties *)

(** ** Machine arithmetic *)

Lemma wrap_size_small x : x < SIZE_MOD -> wrap_size x = x.
Proof. intros H. unfold wrap_size. apply N.mod_small. exact H. Qed.

Lemma wrap_uchar_small x : x < UCHAR_MOD -> wrap_uchar x = x.
Proof. intros H. unfold wrap_uchar. apply N.mod_small. exact H. Qed.

Lemma wrap_size_lt x : wrap_size x < SIZE_MOD.
Proof. unfold wrap_size. apply N.mod_lt. discriminate. Qed.

Lemma wrap_size_add_r a b : wrap_size (a + wrap_size b) = wrap_size (a + b).
Proof. unfold wrap_size. apply N.Div0.add_mod_idemp_r. Qed.

Lemma wrap_size_add_l a b : wrap_size (wrap_size a + b) = wrap_size (a + b).
Proof. unfold wrap_size. apply N.Div0.add_mod_idemp_l. Qed.

Lemma size_inc_small x : x < SIZE_MAX -> size_inc x = x + 1.
Proof.
  intros H. unfold size_inc. apply wrap_size_small.
  unfold SIZE_MAX, SIZE_MOD in *. lia.
Qed.

(** Rewrites away every wrap-around whose argument is in range. *)
Ltac unwrap :=
  repeat match goal with
  | |- context [wrap_size ?x] =>
      rewrite (wrap_size_small x) by (unfold SIZE_MOD, SIZE_MAX in *; lia)
  | |- context [wrap_uchar ?x] =>
      rewrite (wrap_uchar_small x) by (unfold UCHAR_MOD in *; lia)
  end.

Section Theory.

Context {T : Type}.
Variable cmp : T -> T -> bool.
Variable T_init : T.

Implicit Types (n l r : Node T) (x e key v : T).

(** ** Heights and counts *)

Lemma node_count_length n : node_count n = N.of_nat (length (inorder n)).
Proof.
  induction n as [|x es d l IHl r IHr]; cbn [node_count inorder];
    [reflexivity|].
  rewrite IHl, IHr, length_app. cbn [length]. lia.
Qed.

Lemma wf_depth_of n : wf n -> depth_of n = height n.
Proof. destruct n; simpl; [reflexivity|]. intros (_ & _ & H & _). exact H. Qed.

Lemma wf_balanced n : wf n -> balanced n.
Proof.
  induction n as [|x es d l IHl r IHr]; simpl; [trivial|].
  intros (Hl & Hr & _ & Hb & _). auto.
Qed.

Lemma wf_depth_inv n : wf n -> depth_inv n.
Proof.
  induction n as [|x es d l IHl r IHr]; simpl; [trivial|].
  intros (Hl & Hr & Hd & _). auto.
Qed.

(** A balanced tree of height at least [2 * k] has at least [2 ^ k - 1]
    nodes. *)
Lemma balanced_count_lower n :
  balanced n -> forall k, 2 * k <= height n -> 2 ^ k <= node_count n + 1.
Proof.
  induction n as [|x es d l IHl r IHr];
    cbn [height node_count balanced]; intros Hb k Hk.
  - assert (k = 0) by lia. subst k. rewrite N.pow_0_r. lia.
  - destruct Hb as (Hb & Hbl & Hbr).
    destruct (N.eq_dec k 0) as [->|Hk0]; [rewrite N.pow_0_r; lia|].
    assert (Hk' : k = N.succ (k - 1)) by lia.
    rewrite Hk', N.pow_succ_r'.
    specialize (IHl Hbl (k - 1)). specialize (IHr Hbr (k - 1)).
    lia.
Qed.

(** A balanced tree whose node count fits [size_t] is far shallower than
    what [unsigned char] can hold. *)
Lemma balanced_height_bound n :
  balanced n -> node_count n <= SIZE_MAX -> height n < 130.
Proof.
  intros Hb Hc.
  destruct (N.lt_ge_cases (height n) 130) as [H|H]; [exact H|].
  pose proof (balanced_count_lower n Hb 65) as H65.
  assert (H2 : 2 ^ 65 = 36893488147419103232) by reflexivity.
  rewrite H2 in H65. unfold SIZE_MAX in Hc. lia.
Qed.

Lemma wf_height_bound n : wf n -> node_count n <= SIZE_MAX -> height n < 130.
Proof. intros H. apply balanced_height_bound, wf_balanced, H. Qed.

Lemma wf_in_subtree n :
  wf n -> node_count n <= SIZE_MAX -> in_subtree n = node_count n.
Proof.
  destruct n as [|x es d l r]; cbn [wf in_subtree node_count]; [reflexivity|].
  intros (_ & _ & _ & _ & ->) Hc. unwrap. lia.
Qed.

Lemma wf_size_inv n : wf n -> node_count n <= SIZE_MAX -> size_inv n.
Proof.
  induction n as [|x es d l IHl r IHr]; cbn [wf size_inv node_count];
    [trivial|].
  intros (Hl & Hr & _ & _ & ->) Hc.
  unfold in_left_subtree, in_right_subtree.
  rewrite !wf_in_subtree by (trivial; lia).
  repeat split; try lia; [apply IHl | apply IHr]; trivial; lia.
Qed.

(** ** Rotations and rebalancing *)

Lemma rotate_left_inorder n n' :
  rotate_left n = Some n' -> inorder n' = inorder n.
Proof.
  destruct n as [|x es d l [|rx res rd rl rr]]; unfold rotate_left;
    try discriminate.
  intros [= <-]. cbn [inorder]. rewrite <- app_assoc. reflexivity.
Qed.

Lemma rotate_right_inorder n n' :
  rotate_right n = Some n' -> inorder n' = inorder n.
Proof.
  destruct n as [|x es d [|lx les ld ll lr] r]; unfold rotate_right;
    try discriminate.
  intros [= <-]. cbn [inorder]. rewrite <- app_assoc. reflexivity.
Qed.

(** Rebalancing never changes the in-order sequence. *)
Lemma balance_node_inorder n n' :
  balance_node n = Some n' -> inorder n' = inorder n.
Proof.
  destruct n as [|x es d l r]; unfold balance_node; [discriminate|].
  destruct (balance l r =? 2)%Z.
  - destruct r as [|rx res rd rl rr]; [discriminate|].
    destruct (balance rl rr <? 0)%Z.
    + destruct (rotate_right (Nd rx res rd rl rr)) as [r'|] eqn:Er;
        cbn [bind]; [|discriminate].
      intros H. apply rotate_left_inorder in H. rewrite H.
      cbn [inorder]. apply rotate_right_inorder in Er. rewrite Er.
      reflexivity.
    + cbn [bind]. intros H. apply rotate_left_inorder in H. exact H.
  - destruct (balance l r =? -2)%Z.
    + destruct l as [|lx les ld ll lr]; [discriminate|].
      destruct (balance ll lr >? 0)%Z.
      * destruct (rotate_left (Nd lx les ld ll lr)) as [l'|] eqn:El;
          cbn [bind]; [|discriminate].
        intros H. apply rotate_right_inorder in H. rewrite H.
        cbn [inorder]. apply rotate_left_inorder in El. rewrite El.
        reflexivity.
      * cbn [bind]. intros H. apply rotate_right_inorder in H. exact H.
    + intros [= <-]. reflexivity.
Qed.

(** Rebalancing a node never fails: whenever a rotation is chosen, the child
    it needs is there. *)
Lemma balance_node_total x es d l r :
  exists n', balance_node (Nd x es d l r) = Some n'.
Proof.
  unfold balance_node.
  destruct (Z.eqb_spec (balance l r) 2) as [E2|E2].
  - destruct r as [|rx res rd rl rr];
      [exfalso; unfold balance in E2; cbn [depth_of] in E2; lia|].
    destruct (Z.ltb_spec (balance rl rr) 0) as [E|E].
    + destruct rl as [|rlx rles rld rll rlr];
        [exfalso; unfold balance in E; cbn [depth_of] in E; lia|].
      cbn [rotate_right rotate_left bind]. eexists; reflexivity.
    + cbn [rotate_left bind]. eexists; reflexivity.
  - destruct (Z.eqb_spec (balance l r) (-2)) as [E3|E3].
    + destruct l as [|lx les ld ll lr];
        [exfalso; unfold balance in E3; cbn [depth_of] in E3; lia|].
      destruct (Z.gtb_spec (balance ll lr) 0) as [E|E].
      * destruct lr as [|lrx lres lrd lrl lrr];
          [exfalso; unfold balance in E; cbn [depth_of] in E; lia|].
        cbn [rotate_right rotate_left bind]. eexists; reflexivity.
      * cbn [rotate_right bind]. eexists; reflexivity.
    + eexists; reflexivity.
Qed.

(** Unfolds the field updates of a rotation down to heights and counts. *)
Ltac fields :=
  unfold update_depth, update_elements_subtree,
    in_left_subtree, in_right_subtree;
  cbn [depth_of in_subtree];
  rewrite ?wf_depth_of by assumption;
  rewrite ?wf_in_subtree by (try assumption; lia).

(** Rebalancing a node whose subtrees are well formed and differ in height
    by at most two gives a well-formed tree; it leaves a node that is
    already consistent untouched. *)
Lemma balance_node_wf x es d l r :
  wf l -> wf r -> node_count l + node_count r < SIZE_MAX ->
  (Z.abs (Z.of_N (height r) - Z.of_N (height l)) <= 2)%Z ->
  exists n', balance_node (Nd x es d l r) = Some n' /\ wf n' /\
    node_count n' = 1 + node_count l + node_count r /\
    N.max (height l) (height r) <= height n' /\
    height n' <= 1 + N.max (height l) (height r) /\
    ((Z.abs (Z.of_N (height r) - Z.of_N (height l)) <= 1)%Z ->
     height n' = 1 + N.max (height l) (height r)) /\
    ((Z.abs (Z.of_N (height r) - Z.of_N (height l)) <= 1)%Z ->
     n' = Nd x (node_count l + node_count r)
               (1 + N.max (height l) (height r)) l r).
Proof.
  intros Hl Hr Hc Hb.
  assert (Hhl : height l < 130) by (apply wf_height_bound; trivial; lia).
  assert (Hhr : height r < 130) by (apply wf_height_bound; trivial; lia).
  unfold balance_node, balance. rewrite !wf_depth_of by assumption.
  destruct (Z.eqb_spec (Z.of_N (height r) - Z.of_N (height l)) 2) as [E2|E2].
  - destruct r as [|rx res rd rl rr]; [exfalso; cbn [height] in E2; lia|].
    cbn [wf] in Hr. destruct Hr as (Hrl & Hrr & -> & Hbr & ->).
    cbn [height node_count] in *.
    unfold balance. rewrite !wf_depth_of by assumption.
    destruct (Z.ltb_spec (Z.of_N (height rr) - Z.of_N (height rl)) 0) as [E|E].
    + destruct rl as [|rlx rles rld rll rlr]; [exfalso; cbn [height] in E; lia|].
      cbn [wf] in Hrl. destruct Hrl as (Hrll & Hrlr & -> & Hbrl & ->).
      cbn [height node_count] in *.
      cbn [rotate_right rotate_left bind]. fields.
      eexists; split; [reflexivity|].
      cbn [wf height node_count]. unwrap.
      repeat split; trivial; lia.
    + cbn [rotate_left bind]. fields.
      eexists; split; [reflexivity|].
      cbn [wf height node_count]. unwrap.
      repeat split; trivial; lia.
  - destruct (Z.eqb_spec (Z.of_N (height r) - Z.of_N (height l)) (-2))
      as [E3|E3].
    + destruct l as [|lx les ld ll lr]; [exfalso; cbn [height] in E3; lia|].
      cbn [wf] in Hl. destruct Hl as (Hll & Hlr & -> & Hbl & ->).
      cbn [height node_count] in *.
      unfold balance. rewrite !wf_depth_of by assumption.
      destruct (Z.gtb_spec (Z.of_N (height lr) - Z.of_N (height ll)) 0)
        as [E|E].
      * destruct lr as [|lrx lres lrd lrl lrr]; [exfalso; cbn [height] in E; lia|].
        cbn [wf] in Hlr. destruct Hlr as (Hlrl & Hlrr & -> & Hblr & ->).
        cbn [height node_count] in *.
        cbn [rotate_right rotate_left bind]. fields.
        eexists; split; [reflexivity|].
        cbn [wf height node_count]. unwrap.
        repeat split; trivial; lia.
      * cbn [rotate_right bind]. fields.
        eexists; split; [reflexivity|].
        cbn [wf height node_count]. unwrap.
        repeat split; trivial; lia.
    + fields. eexists; split; [reflexivity|].
      cbn [wf height node_count]. unwrap.
      repeat split; trivial; try lia.
      intros _. f_equal; lia.
Qed.

(** ** Insertion keeps the tree well formed *)

Lemma insert_rec_total n e pos : exists res, insert_rec cmp n e pos = Some res.
Proof.
  revert pos. induction n as [|x es d l IHl r IHr]; intros pos;
    cbn [insert_rec]; [eexists; reflexivity|].
  destruct (cmp e x).
  - destruct (IHl pos) as [[l' p'] ->]. cbn [bind].
    destruct (balance_node_total x (size_inc es) d l' r) as [n' ->].
    cbn [bind]. eexists; reflexivity.
  - match goal with |- context [insert_rec cmp r e ?p] =>
      destruct (IHr p) as [[r' p'] ->] end.
    cbn [bind].
    destruct (balance_node_total x (size_inc es) d l r') as [n' ->].
    cbn [bind]. eexists; reflexivity.
Qed.

Lemma insert_rec_wf n e pos n' pos' :
  wf n -> node_count n < SIZE_MAX ->
  insert_rec cmp n e pos = Some (n', pos') ->
  wf n' /\ node_count n' = node_count n + 1 /\
  height n <= height n' /\ height n' <= height n + 1.
Proof.
  revert pos n' pos'. induction n as [|x es d l IHl r IHr];
    intros pos n' pos' Hwf Hc H; cbn [insert_rec] in H.
  - injection H as <- <-. cbn [wf height node_count].
    repeat split; trivial; lia.
  - cbn [wf] in Hwf. destruct Hwf as (Hl & Hr & -> & Hb & ->).
    cbn [node_count height] in *.
    destruct (cmp e x).
    + destruct (insert_rec cmp l e pos) as [[l' p1]|] eqn:El;
        cbn [bind] in H; [|discriminate].
      destruct (IHl _ _ _ Hl ltac:(lia) El) as (Hl' & Hcl & Hh1 & Hh2).
      destruct (balance_node_wf x (size_inc (node_count l + node_count r)) 
                  (1 + N.max (height l) (height r)) l' r Hl' Hr
                  ltac:(lia) ltac:(lia))
        as (n1 & E1 & Hn1 & Hc1 & Hh3 & Hh4 & Hh5 & _).
      rewrite E1 in H. cbn [bind] in H. injection H as <- <-.
      repeat split; trivial; lia.
    + match type of H with context [insert_rec cmp r e ?p] =>
        destruct (insert_rec cmp r e p) as [[r' p1]|] eqn:Er end;
        cbn [bind] in H; [|discriminate].
      destruct (IHr _ _ _ Hr ltac:(lia) Er) as (Hr' & Hcr & Hh1 & Hh2).
      destruct (balance_node_wf x (size_inc (node_count l + node_count r)) 
                  (1 + N.max (height l) (height r)) l r' Hl Hr'
                  ltac:(lia) ltac:(lia))
        as (n1 & E1 & Hn1 & Hc1 & Hh3 & Hh4 & Hh5 & _).
      rewrite E1 in H. cbn [bind] in H. injection H as <- <-.
      repeat split; trivial; lia.
Qed.

(** ** Removal of the minimum and of the maximum *)

Lemma remove_min_total x es d l r :
  exists res, remove_min (Nd x es d l r) = Some res.
Proof.
  revert x es d r. induction l as [|lx les ld ll IHll lr _]; intros x es d r.
  - eexists; reflexivity.
  - cbn [remove_min]. cbn [remove_min] in IHll.
    destruct (IHll lx les ld lr) as [[l' m] ->]. cbn [bind].
    destruct (balance_node_total x (size_dec es) d l' r) as [n' ->].
    eexists; reflexivity.
Qed.

Lemma remove_max_total x es d l r :
  exists res, remove_max (Nd x es d l r) = Some res.
Proof.
  revert x es d l. induction r as [|rx res rd rl _ rr IHrr]; intros x es d l.
  - eexists; reflexivity.
  - cbn [remove_max]. cbn [remove_max] in IHrr.
    destruct (IHrr rx res rd rl) as [[r' m] ->]. cbn [bind].
    destruct (balance_node_total x (size_dec es) d l r') as [n' ->].
    eexists; reflexivity.
Qed.

Lemma height_0_Null n : height n = 0 -> n = Null.
Proof. destruct n; cbn [height]; [reflexivity | lia]. Qed.

Lemma remove_min_spec n n' m :
  wf n -> node_count n <= SIZE_MAX -> remove_min n = Some (n', m) ->
  wf n' /\ inorder n = m :: inorder n' /\
  node_count n = node_count n' + 1 /\
  height n' <= height n /\ height n <= height n' + 1.
Proof.
  revert n' m. induction n as [|x es d l IHl r _]; intros n' m Hwf Hc H;
    [discriminate|].
  cbn [wf] in Hwf. destruct Hwf as (Hl & Hr & -> & Hb & ->).
  cbn [remove_min] in H. destruct l as [|lx les ld ll lr].
  - injection H as <- <-. cbn [height node_count inorder] in *.
    repeat split; trivial; lia.
  - remember (Nd lx les ld ll lr) as l eqn:El.
    destruct (remove_min l) as [[l' m']|] eqn:E; cbn [bind] in H;
      [|discriminate].
    cbn [node_count height] in *.
    destruct (IHl _ _ Hl ltac:(lia) eq_refl) as (Hl' & Hin & Hcl & Hh1 & Hh2).
    destruct (balance_node_wf x (size_dec (node_count l + node_count r))
                (1 + N.max (height l) (height r)) l' r Hl' Hr
                ltac:(lia) ltac:(lia))
      as (n1 & E1 & Hn1 & Hc1 & Hh3 & Hh4 & Hh5 & _).
    pose proof (balance_node_inorder _ _ E1) as Hin1.
    rewrite E1 in H. cbn [bind] in H. injection H as <- <-.
    cbn [inorder] in *. rewrite Hin1, Hin.
    repeat split; trivial; lia.
Qed.

Lemma remove_max_spec n n' m :
  wf n -> node_count n <= SIZE_MAX -> remove_max n = Some (n', m) ->
  wf n' /\ inorder n = inorder n' ++ [m] /\
  node_count n = node_count n' + 1 /\
  height n' <= height n /\ height n <= height n' + 1.
Proof.
  revert n' m. induction n as [|x es d l _ r IHr]; intros n' m Hwf Hc H;
    [discriminate|].
  cbn [wf] in Hwf. destruct Hwf as (Hl & Hr & -> & Hb & ->).
  cbn [remove_max] in H. destruct r as [|rx res rd rl rr].
  - injection H as <- <-. cbn [height node_count inorder] in *.
    repeat split; trivial; lia.
  - remember (Nd rx res rd rl rr) as r eqn:Er.
    destruct (remove_max r) as [[r' m']|] eqn:E; cbn [bind] in H;
      [|discriminate].
    cbn [node_count height] in *.
    destruct (IHr _ _ Hr ltac:(lia) eq_refl) as (Hr' & Hin & Hcr & Hh1 & Hh2).
    destruct (balance_node_wf x (size_dec (node_count l + node_count r))
                (1 + N.max (height l) (height r)) l r' Hl Hr'
                ltac:(lia) ltac:(lia))
      as (n1 & E1 & Hn1 & Hc1 & Hh3 & Hh4 & Hh5 & _).
    pose proof (balance_node_inorder _ _ E1) as Hin1.
    rewrite E1 in H. cbn [bind] in H. injection H as <- <-.
    cbn [inorder] in *. rewrite Hin1, Hin, <- app_assoc.
    repeat split; trivial; lia.
Qed.

(** ** Removal by key *)

Lemma remove_rec_total n key v wd :
  exists res, remove_rec cmp n key v wd = Some res.
Proof.
  induction n as [|x es d l IHl r IHr]; cbn [remove_rec];
    [eexists; reflexivity|].
  destruct (cmp x key).
  - destruct IHr as [[[r' v'] wd'] ->]. cbn [bind].
    destruct (balance_node_total x (if wd' then size_dec es else es) d l r')
      as [n' ->].
    eexists; reflexivity.
  - destruct (cmp key x).
    + destruct IHl as [[[l' v'] wd'] ->]. cbn [bind].
      destruct (balance_node_total x (if wd' then size_dec es else es) d l' r)
        as [n' ->].
      eexists; reflexivity.
    + destruct (N.eqb_spec (depth_of r) 0) as [Er|Er];
        destruct (N.eqb_spec (depth_of l) 0) as [El|El]; cbn [andb];
        try (eexists; reflexivity).
      * destruct (N.leb_spec (depth_of l) (depth_of r)); [lia|].
        destruct l as [|lx les ld ll lr]; [cbn [depth_of] in El; lia|].
        destruct (remove_max_total lx les ld ll lr) as [[l' m] ->].
        cbn [bind].
        destruct (balance_node_total m es d l' r) as [n' ->].
        eexists; reflexivity.
      * destruct (N.leb_spec (depth_of l) (depth_of r)); [|lia].
        destruct r as [|rx res rd rl rr]; [cbn [depth_of] in Er; lia|].
        destruct (remove_min_total rx res rd rl rr) as [[r' m] ->].
        cbn [bind].
        destruct (balance_node_total m es d l r') as [n' ->].
        eexists; reflexivity.
      * destruct (N.leb_spec (depth_of l) (depth_of r)).
        -- destruct r as [|rx res rd rl rr]; [cbn [depth_of] in Er; lia|].
           destruct (remove_min_total rx res rd rl rr) as [[r' m] ->].
           cbn [bind].
           destruct (balance_node_total m es d l r') as [n' ->].
           eexists; reflexivity.
        -- destruct l as [|lx les ld ll lr]; [cbn [depth_of] in El; lia|].
           destruct (remove_max_total lx les ld ll lr) as [[l' m] ->].
           cbn [bind].
           destruct (balance_node_total m es d l' r) as [n' ->].
           eexists; reflexivity.
Qed.

(** [remove_rec] only reads [was_deleted]: the flag comes back as it went
    in. *)
Lemma remove_rec_flag n key v wd n' v' wd' :
  remove_rec cmp n key v wd = Some (n', v', wd') -> wd' = wd.
Proof.
  revert n' v' wd'. induction n as [|x es d l IHl r IHr];
    intros n' v' wd' H; cbn [remove_rec] in H.
  - injection H as _ _ <-. reflexivity.
  - destruct (cmp x key).
    + destruct (remove_rec cmp r key v wd) as [[[r' v1] wd1]|];
        cbn [bind] in H; [|discriminate].
      destruct (balance_node _); cbn [bind] in H; [|discriminate].
      injection H as _ _ <-. eapply IHr; reflexivity.
    + destruct (cmp key x).
      * destruct (remove_rec cmp l key v wd) as [[[l' v1] wd1]|];
          cbn [bind] in H; [|discriminate].
        destruct (balance_node _); cbn [bind] in H; [|discriminate].
        injection H as _ _ <-. eapply IHl; reflexivity.
      * destruct (_ && _).
        -- injection H as _ _ <-. reflexivity.
        -- destruct (_ <=? _).
           ++ destruct (remove_min r) as [[r' m]|]; cbn [bind] in H;
                [|discriminate].
              destruct (balance_node _); cbn [bind] in H; [|discriminate].
              injection H as _ _ <-. reflexivity.
           ++ destruct (remove_max l) as [[l' m]|]; cbn [bind] in H;
                [|discriminate].
              destruct (balance_node _); cbn [bind] in H; [|discriminate].
              injection H as _ _ <-. reflexivity.
Qed.

Lemma find_on_path_In key n y :
  find_on_path cmp key n = Some y -> In y (inorder n) /\ equiv cmp y key.
Proof.
  induction n as [|x es d l IHl r IHr]; cbn [find_on_path inorder];
    [discriminate|].
  destruct (cmp x key) eqn:E1.
  - intros H. destruct (IHr H) as [Hin He]. split; [|exact He].
    apply in_or_app. right. right. exact Hin.
  - destruct (cmp key x) eqn:E2.
    + intros H. destruct (IHl H) as [Hin He]. split; [|exact He].
      apply in_or_app. left. exact Hin.
    + intros [= <-]. split; [|split; assumption].
      apply in_or_app. right. left. reflexivity.
Qed.

(** What [remove_rec] does to a well-formed subtree: it stays well formed
    and loses at most one level; when the descent meets no node equal to the
    key nothing changes at all, otherwise the first such node on the path is
    the one excised from the in-order sequence and copied to [*value]. *)
Lemma remove_rec_spec n key v wd n' v' wd' :
  wf n -> node_count n <= SIZE_MAX ->
  remove_rec cmp n key v wd = Some (n', v', wd') ->
  wf n' /\ height n' <= height n /\ height n <= height n' + 1 /\
  match find_on_path cmp key n with
  | None => n' = n /\ v' = v
  | Some y =>
      v' = y /\ node_count n = node_count n' + 1 /\
      exists pre suf, inorder n = pre ++ y :: suf /\ inorder n' = pre ++ suf
  end.
Proof.
  revert n' v' wd'. induction n as [|x es d l IHl r IHr];
    intros n' v' wd' Hwf Hc H; cbn [remove_rec] in H; cbn [find_on_path].
  - injection H as <- <- <-. cbn [wf height]. repeat split; trivial; lia.
  - cbn [wf] in Hwf. destruct Hwf as (Hl & Hr & -> & Hb & ->).
    cbn [node_count height] in *.
    destruct (cmp x key) eqn:E1; [|destruct (cmp key x) eqn:E2].
    + destruct (remove_rec cmp r key v wd) as [[[r' v1] wd1]|] eqn:Er;
        cbn [bind] in H; [|discriminate].
      destruct (IHr _ _ _ Hr ltac:(lia) eq_refl) as (Hr' & Hh1 & Hh2 & Hf).
      assert (Hcr : node_count r' <= node_count r)
        by (destruct (find_on_path cmp key r);
            [lia | destruct Hf as [-> _]; lia]).
      destruct (balance_node_wf x
                  (if wd1 then size_dec (node_count l + node_count r)
                   else node_count l + node_count r)
                  (1 + N.max (height l) (height r)) l r' Hl Hr'
                  ltac:(lia) ltac:(lia))
        as (n1 & E & Hn1 & Hc1 & Hh3 & Hh4 & Hh5 & Hsame).
      pose proof (balance_node_inorder _ _ E) as Hin1.
      rewrite E in H. cbn [bind] in H. injection H as <- <- <-.
      repeat split; trivial; try lia.
      destruct (find_on_path cmp key r) as [y|].
      * destruct Hf as (-> & Hcy & pre & suf & Hi & Hi').
        repeat split; trivial; [lia|].
        exists (inorder l ++ x :: pre), suf. cbn [inorder] in *.
        rewrite Hin1, Hi, Hi', <- !app_assoc. split; reflexivity.
      * destruct Hf as [-> ->]. split; [|reflexivity].
        apply Hsame. exact Hb.
    + destruct (remove_rec cmp l key v wd) as [[[l' v1] wd1]|] eqn:El;
        cbn [bind] in H; [|discriminate].
      destruct (IHl _ _ _ Hl ltac:(lia) eq_refl) as (Hl' & Hh1 & Hh2 & Hf).
      assert (Hcl : node_count l' <= node_count l)
        by (destruct (find_on_path cmp key l);
            [lia | destruct Hf as [-> _]; lia]).
      destruct (balance_node_wf x
                  (if wd1 then size_dec (node_count l + node_count r)
                   else node_count l + node_count r)
                  (1 + N.max (height l) (height r)) l' r Hl' Hr
                  ltac:(lia) ltac:(lia))
        as (n1 & E & Hn1 & Hc1 & Hh3 & Hh4 & Hh5 & Hsame).
      pose proof (balance_node_inorder _ _ E) as Hin1.
      rewrite E in H. cbn [bind] in H. injection H as <- <- <-.
      repeat split; trivial; try lia.
      destruct (find_on_path cmp key l) as [y|].
      * destruct Hf as (-> & Hcy & pre & suf & Hi & Hi').
        repeat split; trivial; [lia|].
        exists pre, (suf ++ x :: inorder r). cbn [inorder] in *.
        rewrite Hin1, Hi, Hi', <- !app_assoc. split; reflexivity.
      * destruct Hf as [-> ->]. split; [|reflexivity].
        apply Hsame. exact Hb.
    + rewrite !wf_depth_of in H by assumption.
      destruct ((height r =? 0) && (height l =? 0)) eqn:Eleaf.
      * injection H as <- <- <-.
        apply andb_true_iff in Eleaf. destruct Eleaf as [Er El].
        apply N.eqb_eq, height_0_Null in Er, El. subst l r.
        cbn [wf height node_count inorder]. repeat split; trivial; try lia.
        exists [], []. split; reflexivity.
      * destruct (N.leb_spec (height l) (height r)).
        -- destruct (remove_min r) as [[r' m]|] eqn:Em; cbn [bind] in H;
             [|discriminate].
           destruct (remove_min_spec _ _ _ Hr ltac:(lia) Em)
             as (Hr' & Hi & Hcr & Hh1 & Hh2).
           destruct (balance_node_wf m (node_count l + node_count r)
                       (1 + N.max (height l) (height r)) l r' Hl Hr'
                       ltac:(lia) ltac:(lia))
             as (n1 & E & Hn1 & Hc1 & Hh3 & Hh4 & Hh5 & _).
           pose proof (balance_node_inorder _ _ E) as Hin1.
           rewrite E in H. cbn [bind] in H. injection H as <- <- <-.
           repeat split; trivial; try lia.
           exists (inorder l), (m :: inorder r'). cbn [inorder] in *.
           rewrite Hin1, Hi. split; reflexivity.
        -- destruct (remove_max l) as [[l' m]|] eqn:Em; cbn [bind] in H;
             [|discriminate].
           destruct (remove_max_spec _ _ _ Hl ltac:(lia) Em)
             as (Hl' & Hi & Hcl & Hh1 & Hh2).
           destruct (balance_node_wf m (node_count l + node_count r)
                       (1 + N.max (height l) (height r)) l' r Hl' Hr
                       ltac:(lia) ltac:(lia))
             as (n1 & E & Hn1 & Hc1 & Hh3 & Hh4 & Hh5 & _).
           pose proof (balance_node_inorder _ _ E) as Hin1.
           rewrite E in H. cbn [bind] in H. injection H as <- <- <-.
           repeat split; trivial; try lia.
           exists (inorder l), (inorder r). cbn [inorder] in *.
           split; [reflexivity|].
           rewrite Hin1, Hi, <- app_assoc. reflexivity.
Qed.

(** ** Lookup by rank *)

(** On a well-formed subtree whose ranks start at [pos], the descent finds
    the element of in-order index [find_pos - pos], whatever [*value] held. *)
Lemma get_Kth_rec_spec n find_pos pos v :
  wf n -> pos + node_count n <= SIZE_MAX ->
  pos <= find_pos -> find_pos < pos + node_count n ->
  nth_error (inorder n) (N.to_nat (find_pos - pos)) =
  Some (get_Kth_rec n find_pos pos v).
Proof.
  revert pos. induction n as [|x es d l IHl r IHr]; intros pos Hwf Hc H1 H2.
  - cbn [node_count] in H2. lia.
  - cbn [wf] in Hwf. destruct Hwf as (Hl & Hr & -> & Hb & ->).
    cbn [node_count inorder get_Kth_rec] in *.
    unfold in_left_subtree. rewrite wf_in_subtree by (trivial; lia).
    unwrap.
    pose proof (node_count_length l) as Hlen.
    destruct (N.eqb_spec (pos + node_count l) find_pos) as [E|E].
    + rewrite nth_error_app2 by lia.
      replace (N.to_nat (find_pos - pos) - length (inorder l))%nat with 0%nat
        by lia.
      reflexivity.
    + destruct (N.ltb_spec (pos + node_count l) find_pos) as [E'|E'].
      * rewrite <- (IHr (pos + node_count l + 1)) by (trivial; lia).
        rewrite nth_error_app2 by lia.
        replace (N.to_nat (find_pos - pos) - length (inorder l))%nat
          with (S (N.to_nat (find_pos - (pos + node_count l + 1)))) by lia.
        reflexivity.
      * rewrite <- (IHl pos) by (trivial; lia).
        apply nth_error_app1. lia.
Qed.

(** ** Invariants of the reachable states *)

Lemma insert_state_inv (t t' : AVLTree T) e pos :
  state_inv t -> element_count t < SIZE_MAX ->
  insert cmp t e = Some (t', pos) ->
  state_inv t' /\ node_count (root t') = node_count (root t) + 1 /\
  element_count t' = element_count t + 1.
Proof.
  intros (Hwf & Hc & Hec) Hlt H. unfold insert in H.
  destruct (insert_rec cmp (root t) e 0) as [[root' p]|] eqn:E;
    cbn [bind] in H; [|discriminate].
  injection H as <- <-.
  destruct (insert_rec_wf _ _ _ _ _ Hwf ltac:(lia) E) as (Hwf' & Hc' & _).
  unfold state_inv. cbn [root element_count].
  rewrite size_inc_small by exact Hlt.
  repeat split; trivial; lia.
Qed.

Lemma remove_state_inv (t t' : AVLTree T) key v :
  state_inv t -> remove cmp T_init t key = Some (t', v) ->
  state_inv t' /\ element_count t' = element_count t /\
  node_count (root t') <= node_count (root t).
Proof.
  intros (Hwf & Hc & Hec) H. unfold remove in H.
  destruct (remove_rec cmp (root t) key T_init false) as [[[root' d] wd]|]
    eqn:E; cbn [bind] in H; [|discriminate].
  injection H as <- <-.
  pose proof (remove_rec_flag _ _ _ _ _ _ _ E) as ->.
  destruct (remove_rec_spec _ _ _ _ _ _ _ Hwf ltac:(lia) E)
    as (Hwf' & _ & _ & Hf).
  assert (node_count root' <= node_count (root t))
    by (destruct (find_on_path cmp key (root t));
        [lia | destruct Hf as [-> _]; lia]).
  unfold state_inv. cbn [root element_count].
  repeat split; trivial; lia.
Qed.

Lemma reachable_state_inv (t : AVLTree T) :
  reachable cmp T_init t -> state_inv t.
Proof.
  induction 1 as [|t x t' pos _ IH Hlt Hins|t key t' v _ IH Hrem].
  - unfold state_inv. cbn. repeat split; trivial; lia.
  - eapply insert_state_inv; eassumption.
  - eapply remove_state_inv; eassumption.
Qed.

(** ** Sorted sequences under a strict weak ordering *)

Section Ordered.

Hypothesis Hswo : strict_weak_order cmp.

Lemma cmp_asym a b : cmp a b = true -> cmp b a = false.
Proof. apply Hswo. Qed.

Lemma cmp_negtrans a b c :
  cmp a c = true -> cmp a b = true \/ cmp b c = true.
Proof. apply Hswo. Qed.

Lemma not_greater_trans a b c :
  not_greater cmp a b -> not_greater cmp b c -> not_greater cmp a c.
Proof.
  unfold not_greater. intros Hab Hbc.
  destruct (cmp c a) eqn:E; [|reflexivity].
  destruct (cmp_negtrans c b a E); congruence.
Qed.

(** If [e] is less than [y], it is less than everything not less than [y]. *)
Lemma cmp_lt_le e y z : cmp e y = true -> not_greater cmp y z -> cmp e z = true.
Proof.
  unfold not_greater. intros He Hyz.
  destruct (cmp_negtrans e z y He); congruence.
Qed.

Lemma sorted_app_iff (a b : list T) :
  sorted cmp (a ++ b) <->
  sorted cmp a /\ sorted cmp b /\
  (forall y z, In y a -> In z b -> not_greater cmp y z).
Proof.
  unfold sorted. induction a as [|h a IH]; cbn [app].
  - split; [intros H; repeat split; trivial; [constructor | intros ? ? []]
           | intros (_ & H & _); exact H].
  - split.
    + intros H. apply StronglySorted_inv in H. destruct H as [Hs Hf].
      apply IH in Hs. destruct Hs as (Ha & Hb & Hab).
      apply Forall_app in Hf. destruct Hf as [Hfa Hfb].
      repeat split; trivial; [constructor; trivial|].
      intros y z [<-|Hy] Hz; [|auto].
      rewrite Forall_forall in Hfb. auto.
    + intros (Ha & Hb & Hab).
      apply StronglySorted_inv in Ha. destruct Ha as [Hs Hf].
      constructor.
      * apply IH. repeat split; trivial. intros y z Hy Hz.
        apply Hab; [right|]; trivial.
      * apply Forall_app. split; trivial.
        apply Forall_forall. intros z Hz. apply Hab; [left|]; trivial.
Qed.

Lemma sorted_cons_iff h (a : list T) :
  sorted cmp (h :: a) <->
  sorted cmp a /\ forall z, In z a -> not_greater cmp h z.
Proof.
  unfold sorted. split.
  - intros H. apply StronglySorted_inv in H. destruct H as [Hs Hf].
    rewrite Forall_forall in Hf. auto.
  - intros [Hs Hf]. constructor; trivial. apply Forall_forall. exact Hf.
Qed.

(** Excising one element keeps a sequence sorted. *)
Lemma sorted_excise (a b : list T) y :
  sorted cmp (a ++ y :: b) -> sorted cmp (a ++ b).
Proof.
  rewrite !sorted_app_iff, sorted_cons_iff.
  intros (Ha & (Hb & _) & Hab). repeat split; trivial.
  intros u z Hu Hz. apply Hab; [|right]; trivial.
Qed.

(** *** Stable insertion *)

Lemma stable_insert_perm e (a : list T) :
  Permutation (stable_insert cmp e a) (e :: a).
Proof.
  induction a as [|y a IH]; cbn [stable_insert]; [reflexivity|].
  destruct (cmp e y); [reflexivity|].
  rewrite IH. apply perm_swap.
Qed.

Lemma stable_insert_sorted e (a : list T) :
  sorted cmp a -> sorted cmp (stable_insert cmp e a).
Proof.
  induction a as [|y a IH]; cbn [stable_insert]; intros Hs.
  - apply sorted_cons_iff. split; [exact Hs | intros ? []].
  - apply sorted_cons_iff in Hs. destruct Hs as [Hs Hy].
    destruct (cmp e y) eqn:E.
    + apply sorted_cons_iff. split; [apply sorted_cons_iff; auto|].
      intros z Hz. unfold not_greater. apply cmp_asym.
      destruct Hz as [<-|Hz]; [exact E|].
      eapply cmp_lt_le; eauto.
    + apply sorted_cons_iff. split; [auto|].
      intros z Hz.
      apply (Permutation_in _ (stable_insert_perm e a)) in Hz.
      destruct Hz as [<-|Hz]; [exact E | auto].
Qed.

(** Where the descent goes left, the new element lands in the left part. *)
Lemma stable_insert_app_l e (a b : list T) x :
  cmp e x = true ->
  stable_insert cmp e (a ++ x :: b) = stable_insert cmp e a ++ x :: b.
Proof.
  intros E. induction a as [|y a IH]; cbn [stable_insert app].
  - rewrite E. reflexivity.
  - destruct (cmp e y); [reflexivity|]. rewrite IH. reflexivity.
Qed.

(** Where the descent goes right, it lands in the right part. *)
Lemma stable_insert_app_r e (a b : list T) :
  (forall y, In y a -> cmp e y = false) ->
  stable_insert cmp e (a ++ b) = a ++ stable_insert cmp e b.
Proof.
  induction a as [|y a IH]; cbn [stable_insert app]; intros H;
    [reflexivity|].
  rewrite (H y (or_introl eq_refl)), IH; [reflexivity|].
  intros z Hz. apply H. right. exact Hz.
Qed.

(** *** Ranks *)

Lemma rank_of_app e (a b : list T) :
  rank_of cmp e (a ++ b) = (rank_of cmp e a + rank_of cmp e b)%nat.
Proof. unfold rank_of. rewrite filter_app, length_app. reflexivity. Qed.

Lemma rank_of_all e (a : list T) :
  (forall y, In y a -> cmp e y = false) -> rank_of cmp e a = length a.
Proof.
  unfold rank_of. induction a as [|y a IH]; cbn [filter length]; intros H;
    [reflexivity|].
  rewrite (H y (or_introl eq_refl)). cbn [negb length].
  rewrite IH; [reflexivity|]. intros z Hz. apply H. right. exact Hz.
Qed.

Lemma rank_of_none e (a : list T) :
  (forall y, In y a -> cmp e y = true) -> rank_of cmp e a = 0%nat.
Proof.
  unfold rank_of. induction a as [|y a IH]; cbn [filter length]; intros H;
    [reflexivity|].
  rewrite (H y (or_introl eq_refl)). cbn [negb].
  apply IH. intros z Hz. apply H. right. exact Hz.
Qed.

(** In a sorted sequence, everything from an element greater than [e] on is
    greater than [e]. *)
Lemma sorted_tail_greater e y (a : list T) :
  sorted cmp (y :: a) -> cmp e y = true ->
  forall z, In z (y :: a) -> cmp e z = true.
Proof.
  intros Hs E z [<-|Hz]; [exact E|].
  apply sorted_cons_iff in Hs. destruct Hs as [_ Hy].
  eapply cmp_lt_le; eauto.
Qed.

(** The new element sits at its rank. *)
Lemma stable_insert_nth e (a : list T) :
  sorted cmp a ->
  nth_error (stable_insert cmp e a) (rank_of cmp e a) = Some e.
Proof.
  induction a as [|y a IH]; intros Hs; [reflexivity|].
  cbn [stable_insert]. destruct (cmp e y) eqn:E.
  - rewrite rank_of_none; [reflexivity|].
    apply sorted_tail_greater; trivial.
  - unfold rank_of in *. cbn [filter]. rewrite E. cbn [negb length nth_error].
    apply IH. apply sorted_cons_iff in Hs. apply Hs.
Qed.

(** ** Insertion and removal on a sorted tree *)

(** Splitting a sorted in-order sequence at a node. *)
Lemma sorted_node_inv x es d l r :
  sorted cmp (inorder (Nd x es d l r)) ->
  sorted cmp (inorder l) /\ sorted cmp (inorder r) /\
  sorted cmp (x :: inorder r) /\
  (forall y, In y (inorder l) -> not_greater cmp y x) /\
  (forall z, In z (inorder r) -> not_greater cmp x z).
Proof.
  cbn [inorder]. rewrite sorted_app_iff. intros (Hl & Hxr & Hlr).
  pose proof Hxr as Hxr'. apply sorted_cons_iff in Hxr'.
  destruct Hxr' as [Hr Hx]. repeat split; trivial.
  intros y Hy. apply Hlr; [|left]; trivial.
Qed.

Lemma insert_rec_inorder n e pos n' pos' :
  sorted cmp (inorder n) ->
  insert_rec cmp n e pos = Some (n', pos') ->
  inorder n' = stable_insert cmp e (inorder n).
Proof.
  revert pos n' pos'. induction n as [|x es d l IHl r IHr];
    intros pos n' pos' Hs H; cbn [insert_rec] in H.
  - injection H as <- <-. reflexivity.
  - destruct (sorted_node_inv _ _ _ _ _ Hs) as (Hsl & Hsr & _ & Hlx & _).
    cbn [inorder]. destruct (cmp e x) eqn:E.
    + destruct (insert_rec cmp l e pos) as [[l' p1]|] eqn:El;
        cbn [bind] in H; [|discriminate].
      destruct (balance_node _) as [n1|] eqn:Eb; cbn [bind] in H;
        [|discriminate].
      injection H as <- <-.
      rewrite (balance_node_inorder _ _ Eb). cbn [inorder].
      rewrite (IHl _ _ _ Hsl El), stable_insert_app_l by exact E.
      reflexivity.
    + match type of H with context [insert_rec cmp r e ?p] =>
        destruct (insert_rec cmp r e p) as [[r' p1]|] eqn:Er end;
        cbn [bind] in H; [|discriminate].
      destruct (balance_node _) as [n1|] eqn:Eb; cbn [bind] in H;
        [|discriminate].
      injection H as <- <-.
      rewrite (balance_node_inorder _ _ Eb). cbn [inorder].
      rewrite (IHr _ _ _ Hsr Er), stable_insert_app_r.
      * cbn [stable_insert]. rewrite E. reflexivity.
      * intros y Hy. apply (not_greater_trans y x e); [auto | exact E].
Qed.

(** The accumulated position grows by the rank of the new element in the
    subtree. *)
Lemma insert_rec_pos n e pos n' pos' :
  wf n -> node_count n <= SIZE_MAX -> sorted cmp (inorder n) ->
  pos < SIZE_MOD ->
  insert_rec cmp n e pos = Some (n', pos') ->
  pos' = wrap_size (pos + N.of_nat (rank_of cmp e (inorder n))).
Proof.
  revert pos n' pos'. induction n as [|x es d l IHl r IHr];
    intros pos n' pos' Hwf Hc Hs Hp H; cbn [insert_rec] in H.
  - injection H as _ <-. cbn [inorder]. unfold rank_of.
    cbn [filter length N.of_nat]. rewrite N.add_0_r, wrap_size_small; trivial.
  - destruct (sorted_node_inv _ _ _ _ _ Hs) as (Hsl & Hsr & Hsx & Hlx & _).
    cbn [wf] in Hwf. destruct Hwf as (Hl & Hr & -> & Hb & ->).
    cbn [inorder node_count] in *. rewrite rank_of_app.
    destruct (cmp e x) eqn:E.
    + destruct (insert_rec cmp l e pos) as [[l' p1]|] eqn:El;
        cbn [bind] in H; [|discriminate].
      destruct (balance_node _) as [n1|]; cbn [bind] in H; [|discriminate].
      injection H as _ <-.
      rewrite (IHl _ _ _ Hl ltac:(lia) Hsl Hp El).
      rewrite (rank_of_none e (x :: inorder r))
        by (apply sorted_tail_greater; trivial).
      rewrite Nat.add_0_r. reflexivity.
    + unfold in_left_subtree in H.
      rewrite wf_in_subtree in H by (trivial; lia).
      rewrite wrap_size_add_r in H.
      match type of H with context [insert_rec cmp r e ?p] =>
        destruct (insert_rec cmp r e p) as [[r' p1]|] eqn:Er end;
        cbn [bind] in H; [|discriminate].
      destruct (balance_node _) as [n1|]; cbn [bind] in H; [|discriminate].
      injection H as _ <-.
      rewrite (IHr _ _ _ Hr ltac:(lia) Hsr (wrap_size_lt _) Er).
      rewrite wrap_size_add_l.
      rewrite (rank_of_all e (inorder l))
        by (intros y Hy; apply (not_greater_trans y x e); [auto | exact E]).
      unfold rank_of at 2. cbn [filter]. rewrite E. cbn [negb length].
      fold (rank_of cmp e (inorder r)).
      rewrite (node_count_length l). f_equal. lia.
Qed.

(** On a sorted tree the descent of [remove_rec] finds every key that is
    there. *)
Lemma find_on_path_present key n y :
  sorted cmp (inorder n) -> In y (inorder n) -> equiv cmp y key ->
  exists v, find_on_path cmp key n = Some v.
Proof.
  intros Hs Hin [Hy1 Hy2]. induction n as [|x es d l IHl r IHr];
    [destruct Hin|].
  destruct (sorted_node_inv _ _ _ _ _ Hs) as (Hsl & Hsr & _ & Hlx & Hxr).
  cbn [find_on_path inorder] in *.
  apply in_app_or in Hin.
  destruct (cmp x key) eqn:E1; [|destruct (cmp key x) eqn:E2].
  - destruct Hin as [Hin|[->|Hin]]; [exfalso| exfalso; congruence | auto].
    apply Hlx in Hin. unfold not_greater in Hin.
    destruct (cmp_negtrans x y key E1); congruence.
  - destruct Hin as [Hin|[->|Hin]]; [auto | exfalso; congruence | exfalso].
    apply Hxr in Hin. unfold not_greater in Hin.
    destruct (cmp_negtrans key y x E2); congruence.
  - eexists; reflexivity.
Qed.

(** A sorted in-order sequence is the order invariant at every node. *)
Lemma sorted_bst_weak n : sorted cmp (inorder n) -> bst_weak cmp n.
Proof.
  induction n as [|x es d l IHl r IHr]; [intros _; exact I|]. intros Hs.
  destruct (sorted_node_inv _ _ _ _ _ Hs) as (Hsl & Hsr & _ & Hlx & Hxr).
  cbn [bst_weak]. repeat split; auto.
Qed.

Lemma reachable_sorted (t : AVLTree T) :
  reachable cmp T_init t -> sorted cmp (inorder (root t)).
Proof.
  induction 1 as [|t x t' pos Hr IH Hlt Hins|t key t' v Hr IH Hrem].
  - constructor.
  - unfold insert in Hins.
    destruct (insert_rec cmp (root t) x 0) as [[root' p]|] eqn:E;
      cbn [bind] in Hins; [|discriminate].
    injection Hins as <- <-. cbn [root].
    rewrite (insert_rec_inorder _ _ _ _ _ IH E).
    apply stable_insert_sorted, IH.
  - destruct (reachable_state_inv _ Hr) as (Hwf & Hc & Hec).
    unfold remove in Hrem.
    destruct (remove_rec cmp (root t) key T_init false) as [[[root' d] wd]|]
      eqn:E; cbn [bind] in Hrem; [|discriminate].
    injection Hrem as <- <-. cbn [root].
    destruct (remove_rec_spec _ _ _ _ _ _ _ Hwf ltac:(lia) E)
      as (_ & _ & _ & Hf).
    destruct (find_on_path cmp key (root t)) as [y|].
    + destruct Hf as (_ & _ & pre & suf & Hi & ->).
      rewrite Hi in IH. eapply sorted_excise, IH.
    + destruct Hf as [-> _]. exact IH.
Qed.

End Ordered.

(** ** Sequences of insertions *)

Lemma insert_total (t : AVLTree T) e : exists res, insert cmp t e = Some res.
Proof.
  unfold insert.
  destruct (insert_rec_total (root t) e 0) as [[root' p] ->].
  cbn [bind]. eexists; reflexivity.
Qed.

Lemma remove_total (t : AVLTree T) key :
  exists res, remove cmp T_init t key = Some res.
Proof.
  unfold remove.
  destruct (remove_rec_total (root t) key T_init false) as [[[root' d] wd] ->].
  cbn [bind]. eexists; reflexivity.
Qed.

Lemma insert_all_snoc (xs : list T) x :
  insert_all cmp (xs ++ [x]) =
  (t <- insert_all cmp xs ;; '(t', _) <- insert cmp t x ;; Some t').
Proof. unfold insert_all. rewrite fold_left_app. reflexivity. Qed.

Lemma stable_sort_snoc (xs : list T) x :
  stable_sort cmp (xs ++ [x]) = stable_insert cmp x (stable_sort cmp xs).
Proof. unfold stable_sort. rewrite fold_left_app. reflexivity. Qed.

(** Inserting fewer than [2^64] elements never fails, counts them, and
    passes through reachable states only. *)
Lemma insert_all_reachable (xs : list T) :
  N.of_nat (length xs) <= SIZE_MAX ->
  exists t, insert_all cmp xs = Some t /\ reachable cmp T_init t /\
            element_count t = N.of_nat (length xs).
Proof.
  induction xs as [|x xs IH] using rev_ind; intros Hlen.
  - exists AVLTree_new. repeat split. constructor.
  - rewrite length_app in Hlen. cbn [length] in Hlen.
    destruct IH as (t & Et & Hr & Hec); [lia|].
    rewrite insert_all_snoc, Et. cbn [bind].
    destruct (insert_total t x) as [[t' p] Ei]. rewrite Ei. cbn [bind].
    exists t'. split; [reflexivity|].
    destruct (insert_state_inv t t' x p (reachable_state_inv _ Hr)
                ltac:(lia) Ei) as (_ & _ & Hec').
    split; [eapply reach_insert; eauto; lia|].
    rewrite Hec', Hec, length_app. cbn [length]. lia.
Qed.

Lemma insert_all_inorder (xs : list T) t :
  strict_weak_order cmp -> N.of_nat (length xs) <= SIZE_MAX ->
  insert_all cmp xs = Some t -> inorder (root t) = stable_sort cmp xs.
Proof.
  intros Hswo. revert t.
  induction xs as [|x xs IH] using rev_ind; intros t Hlen H.
  - injection H as <-. reflexivity.
  - rewrite length_app in Hlen. cbn [length] in Hlen.
    destruct (insert_all_reachable xs ltac:(lia)) as (t0 & Et & Hr & _).
    rewrite insert_all_snoc, Et in H. cbn [bind] in H.
    unfold insert in H.
    destruct (insert_rec cmp (root t0) x 0) as [[root' p]|] eqn:E;
      cbn [bind] in H; [|discriminate].
    injection H as <-. cbn [root].
    rewrite stable_sort_snoc, <- (IH t0 ltac:(lia) Et).
    eapply insert_rec_inorder; eauto using reachable_sorted.
Qed.

(** *** The stable sort is the sorted, stable rearrangement of its input *)

Lemma stable_sort_perm (xs : list T) : Permutation (stable_sort cmp xs) xs.
Proof.
  induction xs as [|x xs IH] using rev_ind; [reflexivity|].
  rewrite stable_sort_snoc, stable_insert_perm, IH.
  apply Permutation_cons_append.
Qed.

Lemma stable_sort_sorted (xs : list T) :
  strict_weak_order cmp -> sorted cmp (stable_sort cmp xs).
Proof.
  intros Hswo. induction xs as [|x xs IH] using rev_ind; [constructor|].
  rewrite stable_sort_snoc. apply stable_insert_sorted; trivial.
Qed.

Lemma filter_none (f : T -> bool) (a : list T) :
  (forall z, In z a -> f z = false) -> filter f a = [].
Proof.
  induction a as [|y a IH]; cbn [filter]; intros H; [reflexivity|].
  rewrite (H y (or_introl eq_refl)). apply IH.
  intros z Hz. apply H. right. exact Hz.
Qed.

Lemma stable_insert_filter key e (a : list T) :
  strict_weak_order cmp -> sorted cmp a ->
  filter (equivb cmp key) (stable_insert cmp e a) =
  filter (equivb cmp key) a ++ filter (equivb cmp key) [e].
Proof.
  intros Hswo. induction a as [|y a IH]; intros Hs; [reflexivity|].
  cbn [stable_insert]. destruct (cmp e y) eqn:E.
  - cbn [filter app]. destruct (equivb cmp key e) eqn:Ee;
      [|rewrite app_nil_r; reflexivity].
    assert (Hnone : filter (equivb cmp key) (y :: a) = []).
    { apply filter_none. intros z Hz.
      pose proof (sorted_tail_greater Hswo e y a Hs E z Hz) as Hez.
      unfold equivb in *. apply andb_true_iff in Ee. destruct Ee as [E1 E2].
      apply negb_true_iff in E1, E2.
      destruct (cmp_negtrans Hswo e key z Hez) as [H|H]; [congruence|].
      rewrite H. reflexivity. }
    cbn [filter] in Hnone. rewrite Hnone. reflexivity.
  - cbn [filter]. apply sorted_cons_iff in Hs. destruct Hs as [Hs _].
    rewrite (IH Hs). destruct (equivb cmp key y); reflexivity.
Qed.

(** Elements that compare equal keep the order in which they came. *)
Lemma stable_sort_stable key (xs : list T) :
  strict_weak_order cmp ->
  filter (equivb cmp key) (stable_sort cmp xs) = filter (equivb cmp key) xs.
Proof.
  intros Hswo. induction xs as [|x xs IH] using rev_ind; [reflexivity|].
  rewrite stable_sort_snoc, stable_insert_filter, IH, filter_app;
    auto using stable_sort_sorted.
Qed.

End Theory.

(** * The comparators of the examples *)

Lemma int_less_swo : strict_weak_order int_less.
Proof. unfold strict_weak_order, int_less. split; intros; lia. Defined.

Lemma key_less_swo : strict_weak_order key_less.
Proof. unfold strict_weak_order, key_less. split; intros; lia. Defined.

(** Reachability of a state given as the result of a run of inserts. *)
Lemma reachable_of_insert_all {T : Type} (cmp : T -> T -> bool) (T_init : T)
  (xs : list T) (t : AVLTree T) :
  N.of_nat (length xs) <= SIZE_MAX -> insert_all cmp xs = Some t ->
  reachable cmp T_init t.
Proof.
  intros Hlen H.
  destruct (insert_all_reachable cmp T_init xs Hlen) as (t0 & E & Hr & _).
  rewrite E in H. injection H as <-. exact Hr.
Defined.

Lemma tree7_reachable : reachable int_less 0%Z tree7.
Proof.
  apply (reachable_of_insert_all _ _ [5; 3; 8; 1; 4; 7; 9]%Z);
    [vm_compute; discriminate | reflexivity].
Defined.

Lemma tree7_less_8_reachable : reachable int_less 0%Z tree7_less_8.
Proof.
  apply (reach_remove _ _ _ tree7 8%Z tree7_less_8 8%Z);
    [apply tree7_reachable | reflexivity].
Defined.

Lemma tree555_reachable : reachable int_less 0%Z tree555.
Proof.
  apply (reachable_of_insert_all _ _ [5; 5; 5]%Z);
    [vm_compute; discriminate | reflexivity].
Defined.

Lemma tagged555_reachable : reachable key_less (0, 0)%Z tagged555.
Proof.
  apply (reachable_of_insert_all _ _ [(5, 1); (5, 2); (5, 3)]%Z);
    [vm_compute; discriminate | reflexivity].
Defined.

Lemma tree5_reachable : reachable int_less 0%Z tree5.
Proof.
  apply (reachable_of_insert_all _ _ [5]%Z);
    [vm_compute; discriminate | reflexivity].
Defined.

(** * The claims *)

(** ** Balance (C6) *)

(** C6: in every reachable state every node has child subtrees whose heights
    differ by at most one, and every [depth] field holds the true height, so
    the balance factor the code computes is the true one. *)
Theorem balance_invariant {T : Type} (cmp : T -> T -> bool) (T_init : T)
  (t : AVLTree T) :
  reachable cmp T_init t -> balanced (root t) /\ depth_inv (root t).
Proof.
  intros Hr. destruct (reachable_state_inv cmp T_init t Hr) as (Hwf & _).
  split; [apply wf_balanced | apply wf_depth_inv]; exact Hwf.
Qed.

Lemma balance_invariant_witness :
  balanced (root tree7_less_8) /\ depth_inv (root tree7_less_8).
Proof.
  apply (balance_invariant int_less 0%Z tree7_less_8).
  apply tree7_less_8_reachable.
Defined.

(** ** Subtree counters (C7) *)

(** C7: in every reachable state every [elements_subtree] field is the
    number of nodes of the subtree minus the node itself, and is the sum of
    the contributions of the two children ([elements_subtree + 1] for a
    child that is there, 0 for an absent one). *)
Theorem size_invariant {T : Type} (cmp : T -> T -> bool) (T_init : T)
  (t : AVLTree T) :
  reachable cmp T_init t -> size_inv (root t).
Proof.
  intros Hr. destruct (reachable_state_inv cmp T_init t Hr) as (Hwf & Hc & He).
  apply wf_size_inv; [exact Hwf | lia].
Qed.

Lemma size_invariant_witness : size_inv (root tree7_less_8).
Proof.
  apply (size_invariant int_less 0%Z tree7_less_8).
  apply tree7_less_8_reachable.
Defined.

(** ** Order of the keys (C8) *)

(** C8, as stated, fails: after inserting 5 three times the rotation has
    put a 5 into the left subtree of the root 5, which is not strictly
    less. *)
Lemma bst_strict_counterexample :
  reachable int_less 0%Z tree555 /\ ~ bst_strict int_less (root tree555).
Proof.
  split; [apply tree555_reachable|].
  intros (Hl & _). specialize (Hl 5%Z (or_introl eq_refl)). discriminate Hl.
Qed.

(** C8, amended: in every reachable state, at every node, no key of the left
    subtree is greater than the key of the node and no key of the right
    subtree is less. *)
Theorem bst_weak_invariant {T : Type} (cmp : T -> T -> bool) (T_init : T)
  (t : AVLTree T) :
  strict_weak_order cmp -> reachable cmp T_init t -> bst_weak cmp (root t).
Proof.
  intros Hswo Hr. apply sorted_bst_weak.
  apply (reachable_sorted cmp T_init Hswo). exact Hr.
Qed.

Lemma bst_weak_invariant_witness : bst_weak int_less (root tree555).
Proof.
  apply (bst_weak_invariant int_less 0%Z tree555).
  - apply int_less_swo.
  - apply tree555_reachable.
Defined.

(** ** The element counter (C1) *)

(** [remove] never changes [element_count]: the flag that guards the
    decrement is never set by [remove_rec]. *)
Lemma remove_keeps_element_count {T : Type} (cmp : T -> T -> bool)
  (T_init : T) (t t' : AVLTree T) (key v : T) :
  remove cmp T_init t key = Some (t', v) ->
  element_count t' = element_count t.
Proof.
  unfold remove. intros H.
  destruct (remove_rec cmp (root t) key T_init false) as [[[root' d] wd]|]
    eqn:E; cbn [bind] in H; [|discriminate].
  injection H as <- <-.
  rewrite (remove_rec_flag cmp _ _ _ _ _ _ _ E). reflexivity.
Qed.

(** C1: on the run insert(5), remove(5) the removal takes the only node out
    and returns 5, and the element count stays 1 although the tree is
    empty: the count is not the number of inserts minus the number of
    removals that removed something. *)
Theorem element_count_not_decremented :
  insert int_less AVLTree_new 5%Z = Some (tree5, 0) /\
  remove int_less 0%Z tree5 5%Z = Some (tree5_less_5, 5%Z) /\
  node_count (root tree5_less_5) = 0 /\
  element_count tree5_less_5 = 1 /\
  ~ count_is_consistent tree5_less_5.
Proof.
  split; [reflexivity|]. split; [reflexivity|]. split; [reflexivity|].
  split; [reflexivity|]. unfold count_is_consistent. cbn. discriminate.
Qed.

(** ** Removal of an absent key (C2) *)

(** C2, as stated, fails: what [remove] returns for an absent key can be
    the very value a removal returns.  With a default-initialised local that
    holds 0, [remove(0)] returns 0 on the empty tree and on the tree holding
    0. *)
Lemma absence_not_signalled : ~ absence_is_signalled int_less 0%Z.
Proof.
  intros H.
  refine (H AVLTree_new (mkAVLTree (Nd 0%Z 0 1 Null Null) 1)
            AVLTree_new (mkAVLTree Null 1) 0%Z 0%Z 0%Z
            _ _ _ _ eq_refl eq_refl eq_refl).
  - constructor.
  - apply (reachable_of_insert_all _ _ [0%Z]);
      [vm_compute; discriminate | reflexivity].
  - intros y [].
  - exists 0%Z. split; [left; reflexivity | split; reflexivity].
Qed.

(** C2, amended: on a reachable state, removing a key that no stored
    element is equal to leaves the whole container as it was (same nodes,
    same fields, same element count) and returns the default-initialised
    local; the result is a plain [T], without a flag. *)
Theorem remove_absent_noop {T : Type} (cmp : T -> T -> bool) (T_init : T)
  (t : AVLTree T) (key : T) :
  reachable cmp T_init t ->
  (forall y, In y (inorder (root t)) -> ~ equiv cmp y key) ->
  remove cmp T_init t key = Some (t, T_init).
Proof.
  intros Hr Habs.
  destruct (reachable_state_inv cmp T_init t Hr) as (Hwf & Hc & He).
  unfold remove.
  destruct (remove_rec_total cmp (root t) key T_init false)
    as [[[root' d] wd] E].
  rewrite E. cbn [bind].
  pose proof (remove_rec_flag cmp _ _ _ _ _ _ _ E) as ->.
  destruct (remove_rec_spec cmp _ _ _ _ _ _ _ Hwf ltac:(lia) E)
    as (_ & _ & _ & Hf).
  destruct (find_on_path cmp key (root t)) as [y|] eqn:Ef.
  - exfalso. destruct (find_on_path_In cmp _ _ _ Ef) as [Hin Heq].
    exact (Habs y Hin Heq).
  - destruct Hf as [-> ->]. destruct t; reflexivity.
Qed.

Lemma remove_absent_noop_witness :
  remove int_less 0%Z tree7_less_8 100%Z = Some (tree7_less_8, 0%Z).
Proof.
  apply (remove_absent_noop int_less 0%Z tree7_less_8 100%Z).
  - apply tree7_less_8_reachable.
  - intros y Hy [H1 H2]. unfold int_less in *. cbn in Hy.
    repeat (destruct Hy as [<-|Hy]; [discriminate H1|]). exact Hy.
Defined.

(** ** Removal of a present key (C3) *)

(** C3, as stated, fails: of three records with key 5 inserted in the order
    (5,1), (5,2), (5,3), [remove] takes out (5,2), the root, and not (5,1),
    the first match in in-order. *)
Lemma leftmost_match_counterexample :
  ~ removes_leftmost_match key_less (0, 0)%Z.
Proof.
  intros H.
  assert (Hfind : find (equivb key_less (5, 0)%Z) (inorder (root tagged555))
                  = Some (5, 2)%Z).
  { apply (H tagged555
             (mkAVLTree (Nd (5, 3)%Z 1 2 (Nd (5, 1)%Z 0 1 Null Null) Null) 3)
             (5, 0)%Z (5, 2)%Z tagged555_reachable).
    - exists (5, 1)%Z. split; [left; reflexivity | split; reflexivity].
    - reflexivity. }
  vm_compute in Hfind. discriminate Hfind.
Qed.

(** C3, amended: on a reachable state that holds an element equal to the
    key, [remove] takes out exactly one element equal to the key, the first
    one the descent from the root meets, and returns a copy of it; the
    in-order sequence afterwards is the one before with that element
    excised. *)
Theorem remove_present {T : Type} (cmp : T -> T -> bool) (T_init : T)
  (t : AVLTree T) (key y : T) :
  strict_weak_order cmp -> reachable cmp T_init t ->
  In y (inorder (root t)) -> equiv cmp y key ->
  exists t' v pre suf,
    remove cmp T_init t key = Some (t', v) /\
    equiv cmp v key /\ find_on_path cmp key (root t) = Some v /\
    inorder (root t) = pre ++ v :: suf /\
    inorder (root t') = pre ++ suf.
Proof.
  intros Hswo Hr Hin Heq.
  destruct (reachable_state_inv cmp T_init t Hr) as (Hwf & Hc & He).
  pose proof (reachable_sorted cmp T_init Hswo t Hr) as Hs.
  destruct (find_on_path_present cmp Hswo key _ y Hs Hin Heq) as [v Ef].
  destruct (remove_total cmp T_init t key) as [[t' v'] Erem].
  pose proof Erem as Erem'. unfold remove in Erem'.
  destruct (remove_rec cmp (root t) key T_init false) as [[[root' d] wd]|]
    eqn:E; cbn [bind] in Erem'; [|discriminate].
  injection Erem' as <- <-.
  destruct (remove_rec_spec cmp _ _ _ _ _ _ _ Hwf ltac:(lia) E)
    as (_ & _ & _ & Hf).
  rewrite Ef in Hf. destruct Hf as (-> & _ & pre & suf & Hi & Hi').
  exists (mkAVLTree root'
            (if wd then size_dec (element_count t) else element_count t)),
         v, pre, suf.
  repeat split; trivial; apply (find_on_path_In cmp _ _ _ Ef).
Qed.

Lemma remove_present_witness :
  exists t' v pre suf,
    remove key_less (0, 0)%Z tagged555 (5, 0)%Z = Some (t', v) /\
    equiv key_less v (5, 0)%Z /\
    find_on_path key_less (5, 0)%Z (root tagged555) = Some v /\
    inorder (root tagged555) = pre ++ v :: suf /\
    inorder (root t') = pre ++ suf.
Proof.
  apply (remove_present key_less (0, 0)%Z tagged555 (5, 0)%Z (5, 1)%Z).
  - apply key_less_swo.
  - apply tagged555_reachable.
  - left. reflexivity.
  - split; reflexivity.
Defined.

(** ** Rank reported by insert (C4) *)

Lemma rank_of_le {T : Type} (cmp : T -> T -> bool) (e : T) (a : list T) :
  (rank_of cmp e a <= length a)%nat.
Proof. unfold rank_of. apply filter_length_le. Qed.

(** C4: on a reachable state whose counter can still be incremented,
    [insert] returns the number of stored elements that are not greater
    than the new one, and [get_Kth] at that rank, right after, returns the
    new element. *)
Theorem insert_rank {T : Type} (cmp : T -> T -> bool) (T_init : T)
  (t : AVLTree T) (e : T) :
  strict_weak_order cmp -> reachable cmp T_init t ->
  element_count t < SIZE_MAX ->
  exists t',
    insert cmp t e = Some (t', N.of_nat (rank_of cmp e (inorder (root t)))) /\
    get_Kth T_init t' (N.of_nat (rank_of cmp e (inorder (root t)))) = Some e.
Proof.
  intros Hswo Hr Hlt.
  pose proof (reachable_state_inv cmp T_init t Hr) as Hinv.
  pose proof Hinv as (Hwf & Hc & He).
  pose proof (reachable_sorted cmp T_init Hswo t Hr) as Hs.
  pose proof (rank_of_le cmp e (inorder (root t))) as Hrank.
  pose proof (node_count_length (root t)) as Hlen.
  destruct (insert_total cmp t e) as [[t' p] Ei].
  destruct (insert_state_inv cmp t t' e p Hinv Hlt Ei)
    as ((Hwf' & Hc' & He') & Hcount & Hec).
  pose proof Ei as Ei'. unfold insert in Ei'.
  destruct (insert_rec cmp (root t) e 0) as [[root' p']|] eqn:E;
    cbn [bind] in Ei'; [|discriminate].
  injection Ei' as <- <-.
  assert (Hp : p' = N.of_nat (rank_of cmp e (inorder (root t)))).
  { assert (H0 : 0 < SIZE_MOD) by reflexivity.
    rewrite (insert_rec_pos cmp Hswo (root t) e 0 root' p' Hwf ltac:(lia) Hs
               H0 E).
    rewrite N.add_0_l. apply wrap_size_small.
    unfold SIZE_MOD, SIZE_MAX in *. lia. }
  subst p'. eexists. split; [exact Ei|].
  cbn [root element_count] in *.
  unfold get_Kth. cbn [root element_count].
  destruct (N.ltb_spec (N.of_nat (rank_of cmp e (inorder (root t))))
              (size_inc (element_count t))) as [Hin|Hout]; [|lia].
  f_equal.
  pose proof (get_Kth_rec_spec root'
                (N.of_nat (rank_of cmp e (inorder (root t)))) 0 T_init
                Hwf' ltac:(lia) ltac:(lia) ltac:(lia)) as Hk.
  rewrite (insert_rec_inorder cmp Hswo _ _ _ _ _ Hs E) in Hk.
  rewrite N.sub_0_r, Nat2N.id, (stable_insert_nth cmp Hswo e _ Hs) in Hk.
  injection Hk as <-. reflexivity.
Qed.

Lemma insert_rank_witness :
  exists t',
    insert int_less tree7_less_8 4%Z = Some (t', 3) /\
    get_Kth 0%Z t' 3 = Some 4%Z.
Proof.
  apply (insert_rank int_less 0%Z tree7_less_8 4%Z).
  - apply int_less_swo.
  - apply tree7_less_8_reachable.
  - reflexivity.
Defined.

(** ** Order statistics after a run of inserts (C5) *)

(** C5: after inserting the elements of [xs] (fewer than [2^64] of them),
    for every rank below the element count [get_Kth] returns the element at
    that index of the stable sort of [xs], which is the rearrangement of [xs]
    in non-decreasing order in which equal elements keep their insertion
    order. *)
Theorem get_Kth_order_statistic {T : Type} (cmp : T -> T -> bool) (T_init : T)
  (xs : list T) :
  strict_weak_order cmp -> N.of_nat (length xs) <= SIZE_MAX ->
  exists t,
    insert_all cmp xs = Some t /\
    element_count t = N.of_nat (length xs) /\
    (forall r, r < element_count t ->
       exists x, get_Kth T_init t r = Some x /\
                 nth_error (stable_sort cmp xs) (N.to_nat r) = Some x) /\
    sorted cmp (stable_sort cmp xs) /\
    Permutation (stable_sort cmp xs) xs /\
    (forall key, filter (equivb cmp key) (stable_sort cmp xs) =
                 filter (equivb cmp key) xs).
Proof.
  intros Hswo Hlen.
  destruct (insert_all_reachable cmp T_init xs Hlen) as (t & Et & Hr & Hec).
  pose proof (insert_all_inorder cmp T_init xs t Hswo Hlen Et) as Hin.
  destruct (reachable_state_inv cmp T_init t Hr) as (Hwf & Hc & He).
  exists t. split; [exact Et|]. split; [exact Hec|].
  split; [|split; [apply stable_sort_sorted; exact Hswo|
           split; [apply stable_sort_perm | intros key;
                   apply stable_sort_stable; exact Hswo]]].
  intros r Hrlt. exists (get_Kth_rec (root t) r 0 T_init).
  unfold get_Kth. destruct (N.ltb_spec r (element_count t)); [|lia].
  split; [reflexivity|].
  assert (Hcount : node_count (root t) = N.of_nat (length xs)).
  { rewrite node_count_length, Hin.
    rewrite (Permutation_length (stable_sort_perm cmp xs)). reflexivity. }
  rewrite <- Hin, <- (N.sub_0_r r) at 1.
  apply get_Kth_rec_spec; trivial; lia.
Qed.

Lemma get_Kth_order_statistic_witness :
  exists t,
    insert_all key_less [(5, 1); (3, 1); (5, 2); (1, 1); (3, 2)]%Z = Some t /\
    element_count t = 5 /\
    (forall r, r < element_count t ->
       exists x, get_Kth (0, 0)%Z t r = Some x /\
                 nth_error
                   (stable_sort key_less
                      [(5, 1); (3, 1); (5, 2); (1, 1); (3, 2)]%Z)
                   (N.to_nat r) = Some x) /\
    sorted key_less
      (stable_sort key_less [(5, 1); (3, 1); (5, 2); (1, 1); (3, 2)]%Z) /\
    Permutation
      (stable_sort key_less [(5, 1); (3, 1); (5, 2); (1, 1); (3, 2)]%Z)
      [(5, 1); (3, 1); (5, 2); (1, 1); (3, 2)]%Z /\
    (forall key,
       filter (equivb key_less key)
         (stable_sort key_less [(5, 1); (3, 1); (5, 2); (1, 1); (3, 2)]%Z) =
       filter (equivb key_less key)
         [(5, 1); (3, 1); (5, 2); (1, 1); (3, 2)]%Z).
Proof.
  apply (get_Kth_order_statistic key_less (0, 0)%Z
           [(5, 1); (3, 1); (5, 2); (1, 1); (3, 2)]%Z).
  - apply key_less_swo.
  - vm_compute. discriminate.
Defined.

(** ** The precondition of get_Kth (C9) *)

(** A rank that is not below [element_count] fails the assertion. *)
Lemma get_Kth_out_of_range {T : Type} (T_init : T) (t : AVLTree T) (pos : N) :
  element_count t <= pos -> get_Kth T_init t pos = None.
Proof.
  intros H. unfold get_Kth.
  destruct (N.ltb_spec pos (element_count t)); [lia | reflexivity].
Qed.

(** Where [element_count] is the number of nodes, a rank below it reaches a
    node: the result is the element of that in-order index and does not
    depend on what the local held. *)
Lemma get_Kth_in_range {T : Type} (cmp : T -> T -> bool) (T_init : T)
  (t : AVLTree T) (pos : N) :
  reachable cmp T_init t -> count_is_consistent t -> pos < element_count t ->
  exists x, nth_error (inorder (root t)) (N.to_nat pos) = Some x /\
            forall d, get_Kth d t pos = Some x.
Proof.
  intros Hr Hcc Hlt.
  destruct (reachable_state_inv cmp T_init t Hr) as (Hwf & Hc & He).
  unfold count_is_consistent in Hcc.
  exists (get_Kth_rec (root t) pos 0 T_init).
  assert (Hspec : forall d, nth_error (inorder (root t)) (N.to_nat pos) =
                            Some (get_Kth_rec (root t) pos 0 d)).
  { intros d. rewrite <- (N.sub_0_r pos) at 1.
    apply get_Kth_rec_spec; trivial; lia. }
  split; [apply Hspec|].
  intros d. unfold get_Kth.
  destruct (N.ltb_spec pos (element_count t)); [|lia].
  rewrite <- (Hspec d). apply Hspec.
Qed.

(** C9: after insert(5), remove(5) the tree is empty and [element_count] is
    still 1, so [get_Kth(0)] passes the assertion, the descent starts at a
    null root, and the value returned is whatever the unassigned local
    held. *)
Theorem get_Kth_reaches_null :
  forall d : Z,
    insert int_less AVLTree_new 5%Z = Some (tree5, 0) /\
    remove int_less d tree5 5%Z = Some (tree5_less_5, 5%Z) /\
    root tree5_less_5 = Null /\
    get_Kth d tree5_less_5 0 = Some d.
Proof. intros d. repeat split. Qed.

(** ** Termination (C10) *)

(** C10: every recursive helper is defined by structural recursion on the
    node it is given; each returns at once on a null pointer or, for
    [remove_min] and [remove_max], on a node without the child it follows;
    and none of them ever fails an assertion or follows a null pointer, on
    any tree whatsoever, so the public operations always return. *)
Theorem operations_total {T : Type} (cmp : T -> T -> bool) (T_init : T) :
  (forall e pos, insert_rec cmp Null e pos = Some (Nd e 0 1 Null Null, pos)) /\
  (forall n e pos, exists n' pos',
      insert_rec cmp n e pos = Some (n', pos')) /\
  (forall key v wd, remove_rec cmp Null key v wd = Some (Null, v, wd)) /\
  (forall n key v wd, exists n' v' wd',
      remove_rec cmp n key v wd = Some (n', v', wd')) /\
  (forall find_pos pos (v : T), get_Kth_rec Null find_pos pos v = v) /\
  (forall (n : Node T) find_pos pos v, exists v',
      get_Kth_rec n find_pos pos v = v') /\
  (forall (x : T) es d r, remove_min (Nd x es d Null r) = Some (r, x)) /\
  (forall (x : T) es d l r, exists n' m,
      remove_min (Nd x es d l r) = Some (n', m)) /\
  (forall (x : T) es d l, remove_max (Nd x es d l Null) = Some (l, x)) /\
  (forall (x : T) es d l r, exists n' m,
      remove_max (Nd x es d l r) = Some (n', m)) /\
  (forall t e, exists t' pos, insert cmp t e = Some (t', pos)) /\
  (forall t key, exists t' v, remove cmp T_init t key = Some (t', v)).
Proof.
  repeat match goal with |- _ /\ _ => split end; try reflexivity.
  - intros n e pos.
    destruct (insert_rec_total cmp n e pos) as [[n' pos'] H]. eauto.
  - intros n key v wd.
    destruct (remove_rec_total cmp n key v wd) as [[[n' v'] wd'] H]. eauto.
  - intros. eexists; reflexivity.
  - intros x es d l r.
    destruct (remove_min_total x es d l r) as [[n' m] H]. eauto.
  - intros x es d l r.
    destruct (remove_max_total x es d l r) as [[n' m] H]. eauto.
  - intros t e. destruct (insert_total cmp t e) as [[t' pos] H]. eauto.
  - intros t key.
    destruct (remove_total cmp T_init t key) as [[t' v] H]. eauto.
Qed.

(** * The worked examples of the specification *)

(** Example 1: after inserting 5, 3, 8, 1, 4, 7, 9 the ranks 0, 3 and 6 hold
    1, 5 and 9, and rank 7 fails the assertion. *)
Example example_insert_get_Kth :
  insert_all int_less [5; 3; 8; 1; 4; 7; 9]%Z = Some tree7 /\
  get_Kth 0%Z tree7 0 = Some 1%Z /\
  get_Kth 0%Z tree7 3 = Some 5%Z /\
  get_Kth 0%Z tree7 6 = Some 9%Z /\
  get_Kth 0%Z tree7 7 = None.
Proof. repeat split. Qed.

(** Example 2: [remove(8)] then returns 8, and 9 moves down to rank 5. *)
Example example_remove_present :
  remove int_less 0%Z tree7 8%Z = Some (tree7_less_8, 8%Z) /\
  get_Kth 0%Z tree7_less_8 5 = Some 9%Z.
Proof. repeat split. Qed.

(** Example 3: [remove(100)] then changes nothing. *)
Example example_remove_absent :
  remove int_less 0%Z tree7_less_8 100%Z = Some (tree7_less_8, 0%Z).
Proof. reflexivity. Qed.

(** Example 4: inserting 1 .. 10 in ascending order gives a tree of height 4,
    not a list of height 10. *)
Example example_ascending_height :
  option_map (fun t => height (root t))
    (insert_all int_less [1; 2; 3; 4; 5; 6; 7; 8; 9; 10]%Z) = Some 4.
Proof. reflexivity. Qed.

(** * Further properties of the AVL tree *)

(** ** Rotations *)

Lemma depth_inv_depth_of {T : Type} (n : Node T) :
  depth_inv n -> depth_of n = height n.
Proof. destruct n; cbn [depth_inv depth_of]; [reflexivity|]. intros [H _]. exact H. Qed.

Lemma size_inv_in_subtree {T : Type} (n : Node T) :
  size_inv n -> node_count n <= SIZE_MAX -> in_subtree n = node_count n.
Proof.
  destruct n as [|x es d l r]; cbn [size_inv in_subtree]; [reflexivity|].
  intros (H & _) Hc. rewrite H. apply wrap_size_small.
  unfold SIZE_MOD, SIZE_MAX in *. lia.
Qed.

(** A rotation succeeds exactly when the child it lifts is there, and it
    keeps the in-order sequence and the number of nodes. *)
Theorem rotations_keep_inorder {T : Type} (n : Node T) :
  (rotate_left n = None <->
   n = Null \/ exists x es d l, n = Nd x es d l Null) /\
  (rotate_right n = None <->
   n = Null \/ exists x es d r, n = Nd x es d Null r) /\
  (forall n', rotate_left n = Some n' \/ rotate_right n = Some n' ->
     inorder n' = inorder n /\ node_count n' = node_count n).
Proof.
  split; [|split].
  - destruct n as [|x es d l [|rx res rd rl rr]]; cbn [rotate_left].
    + split; auto.
    + split; [intros _; right; eauto | reflexivity].
    + split; [discriminate|].
      intros [H|(x0 & es0 & d0 & l0 & H)]; discriminate H.
  - destruct n as [|x es d [|lx les ld ll lr] r]; cbn [rotate_right].
    + split; auto.
    + split; [intros _; right; eauto | reflexivity].
    + split; [discriminate|].
      intros [H|(x0 & es0 & d0 & r0 & H)]; discriminate H.
  - intros n' [H|H].
    + split; [eapply rotate_left_inorder; eauto|].
      rewrite !node_count_length.
      rewrite (rotate_left_inorder _ _ H). reflexivity.
    + split; [eapply rotate_right_inorder; eauto|].
      rewrite !node_count_length.
      rewrite (rotate_right_inorder _ _ H). reflexivity.
Qed.

(** On a subtree whose [depth] and [elements_subtree] fields are right (it
    need not be balanced), a left rotation followed by a right rotation, or
    the other way round, gives back the very same subtree, fields
    included. *)
Theorem rotate_round_trip {T : Type} (n n' : Node T) :
  depth_inv n -> size_inv n ->
  height n < UCHAR_MOD -> node_count n <= SIZE_MAX ->
  (rotate_left n = Some n' -> rotate_right n' = Some n) /\
  (rotate_right n = Some n' -> rotate_left n' = Some n).
Proof.
  intros Hd Hs Hh Hc. split.
  - destruct n as [|x es d l [|rx res rd rl rr]]; cbn [rotate_left];
      try discriminate.
    intros [= <-]. cbn [rotate_right].
    cbn [depth_inv size_inv] in Hd, Hs.
    destruct Hd as (Hd & Hdl & Hdr & Hdrl & Hdrr).
    destruct Hs as (Hs1 & Hs2 & Hsl & Hsr1 & Hsr2 & Hsrl & Hsrr).
    cbn [height node_count] in *.
    unfold update_depth, update_elements_subtree, in_left_subtree,
      in_right_subtree in *.
    cbn [depth_of in_subtree] in *.
    rewrite !(depth_inv_depth_of l), !(depth_inv_depth_of rl),
      !(depth_inv_depth_of rr) by assumption.
    rewrite !(size_inv_in_subtree l), !(size_inv_in_subtree rl),
      !(size_inv_in_subtree rr) in * by (trivial; lia).
    unfold UCHAR_MOD in Hh.
    assert (Hres : wrap_size (res + 1) = res + 1)
      by (apply wrap_size_small; unfold SIZE_MOD, SIZE_MAX in *; lia).
    rewrite Hres in Hs2.
    unwrap. do 2 f_equal; try lia. f_equal; lia.
  - destruct n as [|x es d [|lx les ld ll lr] r]; cbn [rotate_right];
      try discriminate.
    intros [= <-]. cbn [rotate_left].
    cbn [depth_inv size_inv] in Hd, Hs.
    destruct Hd as (Hd & (Hdl & Hdll & Hdlr) & Hdr).
    destruct Hs as (Hs1 & Hs2 & (Hsl1 & Hsl2 & Hsll & Hslr) & Hsr).
    cbn [height node_count] in *.
    unfold update_depth, update_elements_subtree, in_left_subtree,
      in_right_subtree in *.
    cbn [depth_of in_subtree] in *.
    rewrite !(depth_inv_depth_of r), !(depth_inv_depth_of ll),
      !(depth_inv_depth_of lr) by assumption.
    rewrite !(size_inv_in_subtree r), !(size_inv_in_subtree ll),
      !(size_inv_in_subtree lr) in * by (trivial; lia).
    unfold UCHAR_MOD in Hh.
    assert (Hles : wrap_size (les + 1) = les + 1)
      by (apply wrap_size_small; unfold SIZE_MOD, SIZE_MAX in *; lia).
    rewrite Hles in Hs2.
    unwrap. do 2 f_equal; try lia. f_equal; lia.
Qed.

Lemma rotate_round_trip_witness :
  (rotate_left (root tree7) =
     Some (Nd 8%Z 6 4
             (Nd 5%Z 4 3
                (Nd 3%Z 2 2 (Nd 1%Z 0 1 Null Null) (Nd 4%Z 0 1 Null Null))
                (Nd 7%Z 0 1 Null Null))
             (Nd 9%Z 0 1 Null Null)) ->
   rotate_right
     (Nd 8%Z 6 4
        (Nd 5%Z 4 3
           (Nd 3%Z 2 2 (Nd 1%Z 0 1 Null Null) (Nd 4%Z 0 1 Null Null))
           (Nd 7%Z 0 1 Null Null))
        (Nd 9%Z 0 1 Null Null)) = Some (root tree7)) /\
  (rotate_right (root tree7) =
     Some (Nd 8%Z 6 4
             (Nd 5%Z 4 3
                (Nd 3%Z 2 2 (Nd 1%Z 0 1 Null Null) (Nd 4%Z 0 1 Null Null))
                (Nd 7%Z 0 1 Null Null))
             (Nd 9%Z 0 1 Null Null)) ->
   rotate_left
     (Nd 8%Z 6 4
        (Nd 5%Z 4 3
           (Nd 3%Z 2 2 (Nd 1%Z 0 1 Null Null) (Nd 4%Z 0 1 Null Null))
           (Nd 7%Z 0 1 Null Null))
        (Nd 9%Z 0 1 Null Null)) = Some (root tree7)).
Proof.
  apply (rotate_round_trip (root tree7)).
  - cbn. repeat split.
  - cbn. repeat split.
  - reflexivity.
  - vm_compute. discriminate.
Defined.

(** ** Rebalancing *)

(** Whatever the fields and the shape of a node, [balance_node] returns: the
    assertions of the rotations it calls never fail and no null child is
    followed; the in-order sequence and the number of nodes stay as they
    were. *)
Theorem balance_node_safe {T : Type} (x : T) (es d : N) (l r : Node T) :
  exists n',
    balance_node (Nd x es d l r) = Some n' /\
    inorder n' = inorder l ++ x :: inorder r /\
    node_count n' = 1 + node_count l + node_count r.
Proof.
  destruct (balance_node_total x es d l r) as [n' H].
  exists n'. split; [exact H|].
  pose proof (balance_node_inorder _ _ H) as Hi. split; [exact Hi|].
  rewrite node_count_length, Hi. cbn [inorder node_count].
  rewrite !node_count_length, !length_app. cbn [length]. lia.
Qed.

(** The rebalancing step proper: over two well-formed subtrees whose heights
    differ by at most two (fewer than [2^64 - 1] nodes in all),
    [balance_node] gives a well-formed, hence balanced, subtree, whatever
    stale values the node's own fields held; its height is the greater of
    the two heights or one more, and is one more when no rotation was
    needed. *)
Theorem balance_node_restores {T : Type} (x : T) (es d : N) (l r : Node T) :
  wf l -> wf r -> node_count l + node_count r < SIZE_MAX ->
  (Z.abs (Z.of_N (height r) - Z.of_N (height l)) <= 2)%Z ->
  exists n',
    balance_node (Nd x es d l r) = Some n' /\
    wf n' /\ balanced n' /\ depth_inv n' /\
    N.max (height l) (height r) <= height n' /\
    height n' <= 1 + N.max (height l) (height r) /\
    ((Z.abs (Z.of_N (height r) - Z.of_N (height l)) <= 1)%Z ->
     height n' = 1 + N.max (height l) (height r)).
Proof.
  intros Hl Hr Hc Hb.
  destruct (balance_node_wf x es d l r Hl Hr Hc Hb)
    as (n' & E & Hwf & _ & H1 & H2 & H3 & _).
  exists n'. repeat split; trivial;
    [apply wf_balanced | apply wf_depth_inv]; exact Hwf.
Qed.

Lemma balance_node_restores_witness :
  exists n',
    balance_node
      (Nd 1%Z 7 0 Null (Nd 2%Z 1 2 Null (Nd 3%Z 0 1 Null Null))) = Some n' /\
    wf n' /\ balanced n' /\ depth_inv n' /\
    N.max 0 2 <= height n' /\ height n' <= 1 + N.max 0 2 /\
    ((Z.abs (2 - 0) <= 1)%Z -> height n' = 1 + N.max 0 2).
Proof.
  apply (balance_node_restores 1%Z 7 0 Null
           (Nd 2%Z 1 2 Null (Nd 3%Z 0 1 Null Null))).
  - exact I.
  - cbn. repeat split; lia.
  - reflexivity.
  - cbn. lia.
Defined.

(** A node that is already well formed is left exactly as it is. *)
Theorem balance_node_fixpoint {T : Type} (x : T) (es d : N) (l r : Node T) :
  wf (Nd x es d l r) -> node_count (Nd x es d l r) <= SIZE_MAX ->
  balance_node (Nd x es d l r) = Some (Nd x es d l r).
Proof.
  cbn [wf node_count]. intros (Hl & Hr & -> & Hb & ->) Hc.
  destruct (balance_node_wf x (node_count l + node_count r)
              (1 + N.max (height l) (height r)) l r Hl Hr
              ltac:(lia) ltac:(lia))
    as (n' & E & _ & _ & _ & _ & _ & Hsame).
  rewrite E, (Hsame Hb). reflexivity.
Qed.

Lemma balance_node_fixpoint_witness :
  balance_node (root tree7) = Some (root tree7).
Proof.
  apply (balance_node_fixpoint 5%Z 6 3).
  - cbn. repeat split; lia.
  - vm_compute. discriminate.
Defined.

(** ** Height *)

(** The tree stays logarithmic: in every reachable state a tree of height
    at least [2 * k] has at least [2 ^ k - 1] nodes, so the height never
    reaches 130 and the 8-bit [depth] field never overflows. *)
Theorem avl_height_logarithmic {T : Type} (cmp : T -> T -> bool) (T_init : T)
  (t : AVLTree T) :
  reachable cmp T_init t ->
  (forall k, 2 * k <= height (root t) -> 2 ^ k <= node_count (root t) + 1) /\
  height (root t) < 130.
Proof.
  intros Hr. destruct (reachable_state_inv cmp T_init t Hr) as (Hwf & Hc & He).
  split.
  - apply balanced_count_lower, wf_balanced, Hwf.
  - apply wf_height_bound; [exact Hwf | lia].
Qed.

Lemma avl_height_logarithmic_witness :
  (forall k, 2 * k <= height (root tree7) ->
             2 ^ k <= node_count (root tree7) + 1) /\
  height (root tree7) < 130.
Proof.
  apply (avl_height_logarithmic int_less 0%Z tree7). apply tree7_reachable.
Defined.

(** ** Removal of the extremes *)

(** [remove_min] on a non-empty well-formed subtree unlinks the first
    element of the in-order sequence, hands it back, and leaves the rest
    well formed and at most one level lower. *)
Theorem remove_min_first {T : Type} (x : T) (es d : N) (l r : Node T) :
  wf (Nd x es d l r) -> node_count (Nd x es d l r) <= SIZE_MAX ->
  exists n' m,
    remove_min (Nd x es d l r) = Some (n', m) /\
    inorder (Nd x es d l r) = m :: inorder n' /\
    wf n' /\ height n' <= height (Nd x es d l r) /\
    height (Nd x es d l r) <= height n' + 1.
Proof.
  intros Hwf Hc.
  destruct (remove_min_total x es d l r) as [[n' m] E].
  destruct (remove_min_spec _ _ _ Hwf Hc E) as (H1 & H2 & _ & H3 & H4).
  exists n', m. repeat split; trivial.
Qed.

Lemma remove_min_first_witness :
  exists n' m,
    remove_min (root tree7) = Some (n', m) /\
    inorder (root tree7) = m :: inorder n' /\
    wf n' /\ height n' <= height (root tree7) /\
    height (root tree7) <= height n' + 1.
Proof.
  apply (remove_min_first 5%Z 6 3).
  - cbn. repeat split; lia.
  - vm_compute. discriminate.
Defined.

(** [remove_max], symmetrically, unlinks the last element of the in-order
    sequence. *)
Theorem remove_max_last {T : Type} (x : T) (es d : N) (l r : Node T) :
  wf (Nd x es d l r) -> node_count (Nd x es d l r) <= SIZE_MAX ->
  exists n' m,
    remove_max (Nd x es d l r) = Some (n', m) /\
    inorder (Nd x es d l r) = inorder n' ++ [m] /\
    wf n' /\ height n' <= height (Nd x es d l r) /\
    height (Nd x es d l r) <= height n' + 1.
Proof.
  intros Hwf Hc.
  destruct (remove_max_total x es d l r) as [[n' m] E].
  destruct (remove_max_spec _ _ _ Hwf Hc E) as (H1 & H2 & _ & H3 & H4).
  exists n', m. repeat split; trivial.
Qed.

Lemma remove_max_last_witness :
  exists n' m,
    remove_max (root tree7) = Some (n', m) /\
    inorder (root tree7) = inorder n' ++ [m] /\
    wf n' /\ height n' <= height (root tree7) /\
    height (root tree7) <= height n' + 1.
Proof.
  apply (remove_max_last 5%Z 6 3).
  - cbn. repeat split; lia.
  - vm_compute. discriminate.
Defined.

(** ** What insert adds *)

(** On a reachable state whose counter can still be incremented, [insert]
    never refuses: the new element, duplicate or not, joins the in-order
    sequence right after the elements that are not greater, nothing else
    moves, and both the number of nodes and [element_count] grow by one. *)
Theorem insert_adds_one {T : Type} (cmp : T -> T -> bool) (T_init : T)
  (t : AVLTree T) (e : T) :
  strict_weak_order cmp -> reachable cmp T_init t ->
  element_count t < SIZE_MAX ->
  exists t' pos,
    insert cmp t e = Some (t', pos) /\
    reachable cmp T_init t' /\
    inorder (root t') = stable_insert cmp e (inorder (root t)) /\
    Permutation (inorder (root t')) (e :: inorder (root t)) /\
    node_count (root t') = node_count (root t) + 1 /\
    element_count t' = element_count t + 1.
Proof.
  intros Hswo Hr Hlt.
  destruct (insert_total cmp t e) as [[t' pos] Ei].
  pose proof (reachable_state_inv cmp T_init t Hr) as Hinv.
  destruct (insert_state_inv cmp t t' e pos Hinv Hlt Ei) as (_ & Hc & He).
  assert (Hin : inorder (root t') = stable_insert cmp e (inorder (root t))).
  { pose proof Ei as Ei'. unfold insert in Ei'.
    destruct (insert_rec cmp (root t) e 0) as [[root' p]|] eqn:E;
      cbn [bind] in Ei'; [|discriminate].
    injection Ei' as <- <-. cbn [root].
    apply (insert_rec_inorder cmp Hswo _ _ _ _ _
             (reachable_sorted cmp T_init Hswo t Hr) E). }
  exists t', pos. repeat split; trivial.
  - eapply reach_insert; eauto.
  - rewrite Hin. apply stable_insert_perm.
Qed.

Lemma insert_adds_one_witness :
  exists t' pos,
    insert int_less tree7_less_8 4%Z = Some (t', pos) /\
    reachable int_less 0%Z t' /\
    inorder (root t') = stable_insert int_less 4%Z (inorder (root tree7_less_8)) /\
    Permutation (inorder (root t')) (4%Z :: inorder (root tree7_less_8)) /\
    node_count (root t') = node_count (root tree7_less_8) + 1 /\
    element_count t' = element_count tree7_less_8 + 1.
Proof.
  apply (insert_adds_one int_less 0%Z tree7_less_8 4%Z).
  - apply int_less_swo.
  - apply tree7_less_8_reachable.
  - reflexivity.
Defined.

(** ** What get_Kth returns in a reachable state *)

(** Outside the ranks of a subtree the descent ends at a null pointer and
    leaves [*value] as it was. *)
Lemma get_Kth_rec_miss {T : Type} (n : Node T) (find_pos pos : N) (v : T) :
  wf n -> pos + node_count n <= SIZE_MAX ->
  find_pos < pos \/ pos + node_count n <= find_pos ->
  get_Kth_rec n find_pos pos v = v.
Proof.
  revert pos. induction n as [|x es d l IHl r IHr]; intros pos Hwf Hc Hout;
    [reflexivity|].
  cbn [wf] in Hwf. destruct Hwf as (Hl & Hr & -> & Hb & ->).
  cbn [node_count get_Kth_rec] in *.
  unfold in_left_subtree. rewrite wf_in_subtree by (trivial; lia).
  unwrap.
  destruct (N.eqb_spec (pos + node_count l) find_pos) as [E|E]; [lia|].
  destruct (N.ltb_spec (pos + node_count l) find_pos) as [E'|E'].
  - apply IHr; trivial; lia.
  - apply IHl; trivial; lia.
Qed.

(** In every reachable state, also after removals, the ranks below the
    number of nodes enumerate the stored elements in non-decreasing order:
    [get_Kth(r)] passes the assertion and returns the element of in-order
    index [r], whatever the local held. *)
Theorem get_Kth_enumerates {T : Type} (cmp : T -> T -> bool) (T_init : T)
  (t : AVLTree T) (r : N) :
  strict_weak_order cmp -> reachable cmp T_init t ->
  r < node_count (root t) ->
  sorted cmp (inorder (root t)) /\
  exists x, nth_error (inorder (root t)) (N.to_nat r) = Some x /\
            forall d, get_Kth d t r = Some x.
Proof.
  intros Hswo Hr Hlt.
  destruct (reachable_state_inv cmp T_init t Hr) as (Hwf & Hc & He).
  split; [apply (reachable_sorted cmp T_init Hswo t Hr)|].
  assert (Hspec : forall d, nth_error (inorder (root t)) (N.to_nat r) =
                            Some (get_Kth_rec (root t) r 0 d)).
  { intros d. rewrite <- (N.sub_0_r r) at 1.
    apply get_Kth_rec_spec; trivial; lia. }
  exists (get_Kth_rec (root t) r 0 T_init). split; [apply Hspec|].
  intros d. unfold get_Kth.
  destruct (N.ltb_spec r (element_count t)); [|lia].
  rewrite <- (Hspec d). apply Hspec.
Qed.

Lemma get_Kth_enumerates_witness :
  sorted int_less (inorder (root tree7_less_8)) /\
  exists x, nth_error (inorder (root tree7_less_8)) (N.to_nat 5) = Some x /\
            forall d, get_Kth d tree7_less_8 5 = Some x.
Proof.
  apply (get_Kth_enumerates int_less 0%Z tree7_less_8 5).
  - apply int_less_swo.
  - apply tree7_less_8_reachable.
  - reflexivity.
Defined.

(** Between the number of nodes and the stale [element_count] the assertion
    still passes, no node is reached, and [get_Kth] returns the unassigned
    local. *)
Theorem get_Kth_stale_window {T : Type} (cmp : T -> T -> bool) (T_init : T)
  (t : AVLTree T) (r : N) :
  reachable cmp T_init t ->
  node_count (root t) <= r -> r < element_count t ->
  forall d, get_Kth d t r = Some d.
Proof.
  intros Hr Hge Hlt d.
  destruct (reachable_state_inv cmp T_init t Hr) as (Hwf & Hc & He).
  unfold get_Kth. destruct (N.ltb_spec r (element_count t)); [|lia].
  f_equal. apply get_Kth_rec_miss; trivial; [lia | right; lia].
Qed.

Lemma get_Kth_stale_window_witness :
  get_Kth 42%Z tree7_less_8 6 = Some 42%Z.
Proof.
  apply (get_Kth_stale_window int_less 0%Z tree7_less_8 6).
  - apply tree7_less_8_reachable.
  - vm_compute. discriminate.
  - reflexivity.
Defined.

(** ** Insert followed by remove *)

Lemma stable_insert_split {T : Type} (cmp : T -> T -> bool) (e : T)
  (a : list T) :
  exists a1 a2, a = a1 ++ a2 /\ stable_insert cmp e a = a1 ++ e :: a2.
Proof.
  induction a as [|y a IH]; cbn [stable_insert].
  - exists [], []. split; reflexivity.
  - destruct (cmp e y).
    + exists [], (y :: a). split; reflexivity.
    + destruct IH as (a1 & a2 & -> & ->).
      exists (y :: a1), a2. split; reflexivity.
Qed.

Lemma split_at_unique {T : Type} (e : T) (a1 a2 b1 b2 : list T) :
  ~ In e a1 -> ~ In e a2 -> a1 ++ e :: a2 = b1 ++ e :: b2 ->
  a1 = b1 /\ a2 = b2.
Proof.
  revert b1. induction a1 as [|h a1 IH]; intros b1 H1 H2 H.
  - destruct b1 as [|p b1]; cbn [app] in H.
    + injection H as <-. split; reflexivity.
    + injection H as <- ->. exfalso. apply H2, in_or_app. right. left.
      reflexivity.
  - destruct b1 as [|p b1]; cbn [app] in H.
    + injection H as -> _. exfalso. apply H1. left. reflexivity.
    + injection H as <- H.
      destruct (IH b1) as [-> ->]; trivial; [|split; reflexivity].
      intros Hin. apply H1. right. exact Hin.
Qed.

(** Inserting an element that was not there (nothing stored is equal to it
    under the comparator) and removing it again hands the element back and
    restores the in-order sequence. *)
Theorem insert_remove_round_trip {T : Type} (cmp : T -> T -> bool)
  (T_init : T) (t : AVLTree T) (e : T) :
  strict_weak_order cmp -> reachable cmp T_init t ->
  element_count t < SIZE_MAX ->
  (forall y, In y (inorder (root t)) -> ~ equiv cmp y e) ->
  exists t1 pos t2,
    insert cmp t e = Some (t1, pos) /\
    remove cmp T_init t1 e = Some (t2, e) /\
    inorder (root t2) = inorder (root t).
Proof.
  intros Hswo Hr Hlt Habs.
  destruct (insert_total cmp t e) as [[t1 pos] Ei].
  assert (Hr1 : reachable cmp T_init t1) by (eapply reach_insert; eauto).
  assert (Hin1 : inorder (root t1) = stable_insert cmp e (inorder (root t))).
  { pose proof Ei as Ei'. unfold insert in Ei'.
    destruct (insert_rec cmp (root t) e 0) as [[root' p]|] eqn:E;
      cbn [bind] in Ei'; [|discriminate].
    injection Ei' as <- <-. cbn [root].
    apply (insert_rec_inorder cmp Hswo _ _ _ _ _
             (reachable_sorted cmp T_init Hswo t Hr) E). }
  assert (Hee : equiv cmp e e).
  { assert (cmp e e = false).
    { destruct (cmp e e) eqn:E; [|reflexivity].
      pose proof (cmp_asym cmp Hswo e e E). congruence. }
    split; assumption. }
  assert (Hnotin : ~ In e (inorder (root t)))
    by (intros Hin; exact (Habs e Hin Hee)).
  destruct (reachable_state_inv cmp T_init t1 Hr1) as (Hwf1 & Hc1 & He1).
  pose proof (reachable_sorted cmp T_init Hswo t1 Hr1) as Hs1.
  assert (Hine : In e (inorder (root t1))).
  { rewrite Hin1.
    apply (Permutation_in _ (Permutation_sym (stable_insert_perm cmp e _))).
    left. reflexivity. }
  destruct (find_on_path_present cmp Hswo e _ e Hs1 Hine Hee) as [v Ef].
  destruct (find_on_path_In cmp _ _ _ Ef) as [Hv Hve].
  assert (v = e).
  { rewrite Hin1 in Hv.
    apply (Permutation_in _ (stable_insert_perm cmp e _)) in Hv.
    destruct Hv as [<-|Hv]; [reflexivity|].
    exfalso. exact (Habs v Hv Hve). }
  subst v.
  destruct (remove_total cmp T_init t1 e) as [[t2 v'] Erem].
  pose proof Erem as Erem'. unfold remove in Erem'.
  destruct (remove_rec cmp (root t1) e T_init false) as [[[root' d] wd]|]
    eqn:E; cbn [bind] in Erem'; [|discriminate].
  injection Erem' as <- <-.
  destruct (remove_rec_spec cmp _ _ _ _ _ _ _ Hwf1 ltac:(lia) E)
    as (_ & _ & _ & Hf).
  rewrite Ef in Hf. destruct Hf as (-> & _ & pre & suf & Hi & Hi').
  exists t1, pos. eexists. split; [exact Ei|]. split; [exact Erem|].
  cbn [root]. rewrite Hi'.
  destruct (stable_insert_split cmp e (inorder (root t)))
    as (a1 & a2 & Ha & Hs).
  rewrite Hin1, Hs in Hi.
  destruct (split_at_unique e a1 a2 pre suf) as [-> ->]; trivial.
  - intros H. apply Hnotin. rewrite Ha. apply in_or_app. left. exact H.
  - intros H. apply Hnotin. rewrite Ha. apply in_or_app. right. exact H.
  - symmetry. exact Ha.
Qed.

Lemma insert_remove_round_trip_witness :
  exists t1 pos t2,
    insert int_less tree7_less_8 6%Z = Some (t1, pos) /\
    remove int_less 0%Z t1 6%Z = Some (t2, 6%Z) /\
    inorder (root t2) = inorder (root tree7_less_8).
Proof.
  apply (insert_remove_round_trip int_less 0%Z tree7_less_8 6%Z).
  - apply int_less_swo.
  - apply tree7_less_8_reachable.
  - reflexivity.
  - intros y Hy [H1 H2]. unfold int_less in *. cbn in Hy.
    repeat (destruct Hy as [<-|Hy]; [discriminate H1 || discriminate H2|]).
    exact Hy.
Defined.

(** * Properties of the naive binary tree *)

Module BinaryTreeFacts.

Import BinaryTree.

Local Open Scope nat_scope.

Section Facts.

Context {T : Type}.
Variable cmp : T -> T -> bool.

(** ** Insertion *)

(** The descent from a node: it never fails, and the new element is put
    into the in-order sequence without moving anything else. *)
Lemma bt_insert_loop_spec (x : T) (l r : Node T) (e : T) :
  exists n' a b,
    insert_loop cmp (Nd x l r) e = Some n' /\
    inorder (Nd x l r) = a ++ b /\ inorder n' = a ++ e :: b /\
    node_count n' = S (node_count (Nd x l r)) /\
    height (Nd x l r) <= height n' <= S (height (Nd x l r)) /\
    (ordered cmp (Nd x l r) -> ordered cmp n').
Proof.
  remember (Nd x l r) as n eqn:En. revert x l r En.
  induction n as [|x0 l0 IHl r0 IHr]; intros x l r En; [discriminate|].
  injection En as -> -> ->. cbn [insert_loop].
  destruct (cmp x e) eqn:E; cbn [negb].
  - destruct l as [|lx ll lr].
    + exists (Nd x (Nd e Null Null) r), [], (x :: inorder r).
      cbn [inorder node_count height app ordered].
      split; [reflexivity|]. split; [reflexivity|]. split; [reflexivity|].
      split; [reflexivity|]. split; [lia|].
      intros (_ & H2 & _ & H4). repeat split; trivial.
      * intros y [<-|[]]. exact E.
      * intros y [].
      * intros y [].
    + destruct (IHl lx ll lr eq_refl)
        as (l' & a & b & -> & Ha & Hb & Hc & Hh & Ho).
      cbn [bind]. exists (Nd x l' r), a, (b ++ x :: inorder r).
      remember (Nd lx ll lr) as l0 eqn:El0.
      cbn [inorder node_count height ordered].
      rewrite Ha, Hb, Hc, <- !app_assoc. cbn [app].
      split; [reflexivity|]. split; [reflexivity|]. split; [reflexivity|].
      split; [reflexivity|]. split; [lia|].
      intros (H1 & H2 & H3 & H4). repeat split; auto.
      intros y Hy.
      apply in_app_or in Hy. destruct Hy as [Hy|[<-|Hy]]; [|exact E|];
        apply H1; apply in_or_app; auto.
  - destruct r as [|rx rl rr].
    + exists (Nd x l (Nd e Null Null)), (inorder l ++ [x]), [].
      cbn [inorder node_count height app ordered].
      rewrite <- !app_assoc, app_nil_r. cbn [app].
      split; [reflexivity|]. split; [reflexivity|]. split; [reflexivity|].
      split; [f_equal; lia|]. split; [lia|].
      intros (H1 & _ & H3 & _). repeat split; trivial.
      * intros y [<-|[]]. exact E.
      * intros y [].
      * intros y [].
    + destruct (IHr rx rl rr eq_refl)
        as (r' & a & b & -> & Ha & Hb & Hc & Hh & Ho).
      cbn [bind]. exists (Nd x l r'), (inorder l ++ x :: a), b.
      remember (Nd rx rl rr) as r0 eqn:Er0.
      cbn [inorder node_count height ordered].
      rewrite Ha, Hb, Hc, <- !app_assoc. cbn [app].
      split; [reflexivity|]. split; [reflexivity|]. split; [reflexivity|].
      split; [f_equal; lia|]. split; [lia|].
      intros (H1 & H2 & H3 & H4). repeat split; auto.
      intros y Hy.
      apply in_app_or in Hy. destruct Hy as [Hy|[<-|Hy]]; [|exact E|];
        apply H2; apply in_or_app; auto.
Qed.

Lemma bt_insert_spec (root : Node T) (e : T) :
  exists root' a b,
    insert cmp root e = Some root' /\
    inorder root = a ++ b /\ inorder root' = a ++ e :: b /\
    node_count root' = S (node_count root) /\
    height root <= height root' <= S (height root).
Proof.
  destruct root as [|x l r].
  - exists (Nd e Null Null), [], []. cbn. repeat split; lia.
  - destruct (bt_insert_loop_spec x l r e)
      as (n' & a & b & H1 & H2 & H3 & H4 & H5 & _).
    exists n', a, b. cbn [insert]. repeat split; trivial; lia.
Qed.

Lemma bt_insert_order (root root' : Node T) (e : T) :
  ordered cmp root -> insert cmp root e = Some root' -> ordered cmp root'.
Proof.
  destruct root as [|x l r]; cbn [insert].
  - intros _ [= <-]. cbn. repeat split; trivial; intros y [].
  - destruct (bt_insert_loop_spec x l r e)
      as (n' & a & b & H1 & _ & _ & _ & _ & Ho).
    intros Hord H. rewrite H1 in H. injection H as <-. auto.
Qed.


(** [insert] keeps the order of the descent: at every node, what is in the
    left subtree is what the comparator puts above the node's key, what is
    in the right subtree is the rest. *)
Theorem naive_insert_keeps_order (root root' : Node T) (e : T) :
  ordered cmp root -> insert cmp root e = Some root' -> ordered cmp root'.
Proof. apply bt_insert_order. Qed.

(** ** The converting constructor *)

Lemma from_vector_snoc (input : list T) (e : T) :
  from_vector cmp (input ++ [e]) =
  (root <- from_vector cmp input ;; insert cmp root e).
Proof. unfold from_vector. rewrite fold_left_app. reflexivity. Qed.

(** In an ordered tree the in-order sequence never increases, when the
    comparator is a strict weak ordering. *)
Lemma ordered_sorted_desc (n : Node T) :
  strict_weak_order cmp -> ordered cmp n ->
  sorted (fun a b => cmp b a) (inorder n).
Proof.
  intros Hswo. induction n as [|x l IHl r IHr]; cbn [ordered inorder].
  - intros _. constructor.
  - intros (Hl & Hr & Hol & Hor).
    apply sorted_app_iff. split; [auto|]. split.
    + apply sorted_cons_iff. split; [auto|].
      intros z Hz. unfold not_greater. auto.
    + intros y z Hy [<-|Hz]; unfold not_greater.
      * apply (cmp_asym cmp Hswo). auto.
      * specialize (Hl y Hy). specialize (Hr z Hz).
        destruct (cmp y z) eqn:E; [|reflexivity].
        destruct (cmp_negtrans cmp Hswo x z y Hl) as [H|H]; [congruence|].
        pose proof (cmp_asym cmp Hswo _ _ H). congruence.
Qed.

Lemma bt_from_vector_spec (input : list T) :
  exists root,
    from_vector cmp input = Some root /\ ordered cmp root /\
    Permutation (inorder root) input /\
    node_count root = length input.
Proof.
  induction input as [|e input IH] using rev_ind.
  - exists Null. cbn. repeat split; trivial.
  - destruct IH as (root & E & Ho & Hp & Hc).
    destruct (bt_insert_spec root e)
      as (root' & a & b & Ei & Ha & Hb & Hn & _).
    exists root'. rewrite from_vector_snoc, E. cbn [bind].
    split; [exact Ei|]. split; [eapply bt_insert_order; eauto|].
    split.
    + rewrite Hb. rewrite Ha in Hp.
      rewrite <- Hp. symmetry.
      rewrite <- app_assoc. apply Permutation_app_head.
      apply Permutation_sym, Permutation_cons_append.
    + rewrite Hn, Hc, length_app. cbn [length]. lia.
Qed.

(** Building a tree from a vector never fails; the tree holds exactly the
    elements of the vector, duplicates included, and is ordered; under a
    strict weak ordering its in-order sequence never increases. *)
Theorem from_vector_ordered (input : list T) :
  exists root,
    from_vector cmp input = Some root /\
    ordered cmp root /\
    Permutation (inorder root) input /\
    node_count root = length input /\
    (strict_weak_order cmp -> sorted (fun a b => cmp b a) (inorder root)).
Proof.
  destruct (bt_from_vector_spec input) as (root & E & Ho & Hp & Hc).
  exists root. repeat split; trivial.
  intros Hswo. apply ordered_sorted_desc; assumption.
Qed.

(** ** Breadth-first traversal *)

Lemma to_int_small (z : Z) : (0 <= z <= INT_MAX)%Z -> to_int z = z.
Proof.
  unfold to_int, INT_MAX. intros H.
  rewrite Z.mod_small by lia. lia.
Qed.

Lemma push_if_app (rest : list (Node T)) (c : Node T) :
  push_if rest c = rest ++ push_if [] c.
Proof. destruct c; cbn [push_if app]; [rewrite app_nil_r|]; reflexivity. Qed.

Lemma push_children (rest : list (Node T)) (x : T) (l r : Node T) :
  push_if (push_if rest l) r = rest ++ children (Nd x l r).
Proof.
  cbn [children]. rewrite (push_if_app (push_if rest l)), (push_if_app rest),
    (push_if_app (push_if [] l)), <- app_assoc.
  reflexivity.
Qed.

(** One run of the inner loop over a whole level replaces the level by the
    next one, behind whatever else the queue held. *)
Lemma drain_level_all (q acc : list (Node T)) :
  Forall non_null q ->
  drain_level (length q) (q ++ acc) = Some (acc ++ next_level q).
Proof.
  revert acc. induction q as [|n q IH]; intros acc Hq.
  - cbn. rewrite app_nil_r. reflexivity.
  - inversion Hq as [|? ? Hn Hq']; subst.
    destruct n as [|x l r]; [exfalso; apply Hn; reflexivity|].
    cbn [length app drain_level]. rewrite (push_children _ x).
    rewrite <- app_assoc, IH by exact Hq'.
    unfold next_level. cbn [flat_map]. rewrite <- app_assoc. reflexivity.
Qed.

Lemma children_non_null (n : Node T) : Forall non_null (children n).
Proof.
  destruct n as [|x l r]; [constructor|]. cbn [children].
  destruct l, r; cbn [push_if app]; repeat constructor; discriminate.
Qed.

Lemma next_level_non_null (q : list (Node T)) : Forall non_null (next_level q).
Proof.
  induction q as [|n q IH]; [constructor|].
  unfold next_level. cbn [flat_map]. apply Forall_app.
  split; [apply children_non_null | exact IH].
Qed.

Lemma forest_height_app (a b : list (Node T)) :
  forest_height (a ++ b) = Nat.max (forest_height a) (forest_height b).
Proof.
  unfold forest_height. induction a as [|n a IH]; cbn [app map fold_right];
    [reflexivity|].
  rewrite IH. lia.
Qed.

Lemma forest_height_children (x : T) (l r : Node T) :
  forest_height (children (Nd x l r)) = Nat.max (height l) (height r).
Proof.
  cbn [children]. destruct l, r; cbn [push_if app]; unfold forest_height;
    cbn [map fold_right height]; lia.
Qed.

Lemma forest_height_next (n : Node T) (q : list (Node T)) :
  Forall non_null (n :: q) ->
  forest_height (n :: q) = S (forest_height (next_level (n :: q))).
Proof.
  revert n. induction q as [|m q IH]; intros n Hq;
    inversion Hq as [|? ? Hn Hq']; subst;
    (destruct n as [|x l r]; [exfalso; apply Hn; reflexivity|]).
  - unfold next_level. cbn [flat_map]. rewrite app_nil_r.
    rewrite forest_height_children. unfold forest_height.
    cbn [map fold_right height]. lia.
  - specialize (IH m Hq').
    unfold next_level in *. cbn [flat_map] in *.
    rewrite forest_height_app, forest_height_children.
    change (forest_height (Nd x l r :: m :: q))
      with (Nat.max (height (Nd x l r)) (forest_height (m :: q))).
    rewrite IH. cbn [height]. lia.
Qed.

Lemma forest_count_app (a b : list (Node T)) :
  forest_count (a ++ b) = forest_count a + forest_count b.
Proof. unfold forest_count. rewrite map_app, list_sum_app. reflexivity. Qed.

Lemma forest_count_cons (n : Node T) (q : list (Node T)) :
  forest_count (n :: q) = node_count n + forest_count q.
Proof. reflexivity. Qed.

Lemma forest_count_children (x : T) (l r : Node T) :
  forest_count (children (Nd x l r)) = node_count l + node_count r.
Proof.
  cbn [children]. destruct l, r; cbn [push_if app]; unfold forest_count;
    cbn [map list_sum fold_right node_count]; lia.
Qed.

Lemma forest_count_next (q : list (Node T)) :
  Forall non_null q ->
  forest_count q = length q + forest_count (next_level q).
Proof.
  induction q as [|n q IH]; intros Hq; [reflexivity|].
  inversion Hq as [|? ? Hn Hq']; subst.
  destruct n as [|x l r]; [exfalso; apply Hn; reflexivity|].
  unfold next_level in *. cbn [flat_map].
  rewrite forest_count_app, forest_count_children.
  change (forest_count (Nd x l r :: q))
    with (node_count (Nd x l r) + forest_count q).
  rewrite (IH Hq'). cbn [node_count length]. lia.
Qed.

Lemma height_le_count (n : Node T) : height n <= node_count n.
Proof. induction n as [|x l IHl r IHr]; cbn [height node_count]; lia. Qed.

Lemma forest_height_le_count (q : list (Node T)) :
  forest_height q <= forest_count q.
Proof.
  induction q as [|n q IH]; [reflexivity|].
  change (forest_height (n :: q))
    with (Nat.max (height n) (forest_height q)).
  change (forest_count (n :: q)) with (node_count n + forest_count q).
  pose proof (height_le_count n). lia.
Qed.

(** The outer loop of [get_depth] counts the levels of what is queued. *)
Lemma depth_loop_spec (fuel : nat) (q : list (Node T)) (depth : Z) :
  Forall non_null q -> forest_height q < fuel ->
  (Z.of_nat (forest_count q) <= INT_MAX)%Z ->
  (depth + Z.of_nat (forest_height q) <= INT_MAX)%Z ->
  depth_loop fuel q depth = Some (depth + Z.of_nat (forest_height q))%Z.
Proof.
  revert q depth. induction fuel as [|fuel IH]; intros q depth Hq Hf Hc Hd;
    [lia|].
  destruct q as [|n q]; cbn [depth_loop].
  - unfold forest_height. cbn. f_equal. lia.
  - pose proof (forest_height_next n q Hq) as Hh.
    pose proof (forest_count_next (n :: q) Hq) as Hcn.
    destruct (Z.eqb_spec depth INT_MAX) as [E|E]; [lia|].
    rewrite to_int_small by (cbn [length] in *; lia).
    rewrite Nat2Z.id.
    rewrite <- (app_nil_r (n :: q)) at 2.
    rewrite drain_level_all by exact Hq. cbn [bind app].
    rewrite IH; [f_equal; lia | apply next_level_non_null | lia | lia | lia].
Qed.

(** [get_depth] on a tree of fewer than [2^31] nodes returns its height:
    0 for the empty tree, otherwise the number of levels the breadth-first
    loop went through. *)
Theorem get_depth_is_height (root : Node T) :
  (Z.of_nat (node_count root) <= INT_MAX)%Z ->
  get_depth root = Some (Z.of_nat (height root)).
Proof.
  intros Hc. destruct root as [|x l r]; [reflexivity|].
  unfold get_depth.
  assert (Hq : Forall non_null [Nd x l r])
    by (repeat constructor; discriminate).
  assert (Hfh : forest_height [Nd x l r] = height (Nd x l r))
    by (unfold forest_height; cbn [map fold_right]; lia).
  assert (Hfc : forest_count [Nd x l r] = node_count (Nd x l r))
    by (unfold forest_count; cbn [map list_sum fold_right]; lia).
  pose proof (height_le_count (Nd x l r)) as Hle.
  rewrite (depth_loop_spec _ _ _ Hq);
    [rewrite Hfh; reflexivity | rewrite Hfh; lia | rewrite Hfc; exact Hc
    | rewrite Hfh; lia].
Qed.

(** ** The destructor *)

Lemma destroy_loop_spec (fuel : nat) (stack : list (Node T))
  (deleted : list T) :
  Forall non_null stack -> forest_count stack < fuel ->
  exists rest,
    destroy_loop fuel stack deleted = Some (deleted ++ rest) /\
    Permutation rest (flat_map inorder stack).
Proof.
  revert stack deleted.
  induction fuel as [|fuel IH]; intros stack deleted Hs Hf; [lia|].
  destruct stack as [|n stack]; cbn [destroy_loop].
  - exists []. rewrite app_nil_r. split; [reflexivity | constructor].
  - inversion Hs as [|? ? Hn Hs']; subst.
    destruct n as [|x l r]; [exfalso; apply Hn; reflexivity|].
    change (forest_count (Nd x l r :: stack))
      with (node_count (Nd x l r) + forest_count stack) in Hf.
    cbn [node_count] in Hf.
    match goal with |- context [destroy_loop fuel ?s _] =>
      set (st2 := s) end.
    assert (Hst2 : Forall non_null st2 /\
                   forest_count st2 =
                     node_count l + node_count r + forest_count stack /\
                   flat_map inorder st2 =
                     inorder r ++ inorder l ++ flat_map inorder stack).
    { subst st2. split; [|split].
      - destruct l, r; repeat constructor; trivial; discriminate.
      - destruct l, r; rewrite ?forest_count_cons; cbn [node_count]; lia.
      - destruct l, r; cbn [flat_map inorder app];
          rewrite <- ?app_assoc; reflexivity. }
    destruct Hst2 as (H1 & H2 & H3).
    destruct (IH st2 (deleted ++ [x]) H1 ltac:(lia)) as (rest & E & Hp).
    exists (x :: rest). rewrite E, <- app_assoc. split; [reflexivity|].
    rewrite Hp, H3. cbn [flat_map inorder].
    rewrite <- !app_assoc. cbn [app].
    rewrite (Permutation_app_swap_app (inorder r) (inorder l)).
    apply Permutation_cons_app. reflexivity.
Qed.

(** The destructor of an empty tree follows the null root it has pushed;
    on a tree with at least one node it deletes every node once, and no
    null pointer is followed. *)
Theorem destroy_deletes_all :
  destroy (@Null T) = None /\
  forall (x : T) (l r : Node T),
    exists deleted,
      destroy (Nd x l r) = Some deleted /\
      Permutation deleted (inorder (Nd x l r)) /\
      length deleted = node_count (Nd x l r).
Proof.
  split; [reflexivity|]. intros x l r. unfold destroy.
  destruct (destroy_loop_spec (S (S (node_count (Nd x l r)))) [Nd x l r] [])
    as (rest & E & Hp).
  - repeat constructor. discriminate.
  - unfold forest_count. cbn [map list_sum fold_right]. lia.
  - exists rest. cbn [app] in E. split; [exact E|].
    cbn [flat_map] in Hp. rewrite app_nil_r in Hp. split; [exact Hp|].
    rewrite (Permutation_length Hp).
    clear. generalize (Nd x l r). intros n.
    induction n as [|y a IHa b IHb]; cbn [inorder node_count length];
      [reflexivity|].
    rewrite length_app. cbn [length]. lia.
Qed.

(** ** Degeneration *)

Lemma bt_insert_chain (n : Node T) (e : T) :
  left_chain n -> (forall y, In y (inorder n) -> cmp y e = true) ->
  exists n', insert cmp n e = Some n' /\ left_chain n' /\
             height n' = S (height n).
Proof.
  induction n as [|x l IHl r _]; intros Hc Hall.
  - exists (Nd e Null Null). cbn. repeat split.
  - cbn [left_chain] in Hc. destruct Hc as [-> Hl].
    assert (Hx : cmp x e = true)
      by (apply Hall; cbn [inorder]; apply in_or_app; right; left;
          reflexivity).
    assert (Hstep : insert cmp (Nd x l Null) e =
                    match l with
                    | Null => Some (Nd x (Nd e Null Null) Null)
                    | Nd _ _ _ => l' <- insert cmp l e ;; Some (Nd x l' Null)
                    end).
    { cbn [insert insert_loop]. rewrite Hx. cbn [negb].
      destruct l; reflexivity. }
    rewrite Hstep. destruct l as [|lx ll lr].
    + exists (Nd x (Nd e Null Null) Null). cbn. repeat split.
    + destruct (IHl Hl) as (l' & E & Hc' & Hh).
      { intros y Hy. apply Hall. cbn [inorder]. apply in_or_app. left.
        exact Hy. }
      rewrite E. cbn [bind]. exists (Nd x l' Null).
      remember (Nd lx ll lr) as l0.
      cbn [left_chain height]. rewrite Hh.
      repeat split; trivial; lia.
Qed.

Lemma strongly_sorted_snoc (R : T -> T -> Prop) (a : list T) (e : T) :
  StronglySorted R (a ++ [e]) ->
  StronglySorted R a /\ forall y, In y a -> R y e.
Proof.
  induction a as [|h a IH]; cbn [app]; intros H.
  - split; [constructor | intros y []].
  - apply StronglySorted_inv in H. destruct H as [Hs Hf].
    destruct (IH Hs) as [Ha Hall].
    apply Forall_app in Hf. destruct Hf as [Hfa Hfe].
    split; [constructor; trivial|].
    intros y [<-|Hy]; [|auto].
    inversion Hfe; trivial.
Qed.

(** Fed a strictly increasing sequence, the naive tree degenerates into a
    list: every element becomes the left child of the one before, and the
    height is the number of elements. *)
Theorem from_vector_increasing (input : list T) :
  StronglySorted (fun a b => cmp a b = true) input ->
  exists root,
    from_vector cmp input = Some root /\
    left_chain root /\ height root = length input.
Proof.
  induction input as [|e input IH] using rev_ind; intros Hs.
  - exists Null. cbn. repeat split.
  - apply strongly_sorted_snoc in Hs. destruct Hs as [Hs Hall].
    destruct (IH Hs) as (root & E & Hc & Hh).
    destruct (bt_from_vector_spec input) as (root0 & E0 & _ & Hp & _).
    rewrite E in E0. injection E0 as <-.
    destruct (bt_insert_chain root e Hc) as (root' & Ei & Hc' & Hh').
    { intros y Hy. apply Hall. eapply Permutation_in; eauto. }
    exists root'. rewrite from_vector_snoc, E. cbn [bind].
    split; [exact Ei|]. split; [exact Hc'|].
    rewrite Hh', Hh, length_app. cbn [length]. lia.
Qed.

End Facts.

Lemma naive_insert_keeps_order_witness :
  ordered int_less
    (Nd 5%Z (Nd 8%Z Null (Nd 7%Z Null Null)) (Nd 3%Z Null Null)).
Proof.
  apply (naive_insert_keeps_order int_less
           (Nd 5%Z (Nd 8%Z Null Null) (Nd 3%Z Null Null)) _ 7%Z).
  - cbn. repeat split; intros y Hy;
      repeat (destruct Hy as [<-|Hy]; [reflexivity|]); destruct Hy.
  - reflexivity.
Defined.

Lemma get_depth_is_height_witness :
  get_depth (Nd 5%Z (Nd 8%Z Null (Nd 7%Z Null Null)) (Nd 3%Z Null Null)) =
  Some 3%Z.
Proof.
  apply (get_depth_is_height
           (Nd 5%Z (Nd 8%Z Null (Nd 7%Z Null Null)) (Nd 3%Z Null Null))).
  vm_compute. discriminate.
Defined.

Lemma from_vector_increasing_witness :
  exists root,
    from_vector int_less [1; 2; 3; 4]%Z = Some root /\
    left_chain root /\ height root = 4.
Proof.
  apply (from_vector_increasing int_less [1; 2; 3; 4]%Z).
  repeat constructor.
Defined.

End BinaryTreeFacts.

(** * Properties of the tree width *)

Module TreeWidthFacts.

Import BinaryTree BinaryTreeFacts TreeWidth.

Local Open Scope nat_scope.

Section Facts.

Context {T : Type}.

Lemma forest_width_at_app (d : nat) (a b : list (Node T)) :
  forest_width_at d (a ++ b) = forest_width_at d a + forest_width_at d b.
Proof. unfold forest_width_at. rewrite map_app, list_sum_app. reflexivity. Qed.

Lemma forest_width_at_cons (d : nat) (n : Node T) (q : list (Node T)) :
  forest_width_at d (n :: q) = width_at d n + forest_width_at d q.
Proof. reflexivity. Qed.

Lemma forest_width_at_nil (d : nat) : forest_width_at d (@nil (Node T)) = 0.
Proof. reflexivity. Qed.

Lemma forest_width_children (d : nat) (x : T) (l r : Node T) :
  forest_width_at d (children (Nd x l r)) = width_at d l + width_at d r.
Proof.
  cbn [children].
  destruct l, r; cbn [push_if app];
    rewrite ?forest_width_at_cons, ?forest_width_at_nil; cbn [width_at]; lia.
Qed.

(** The nodes at distance [d + 1] are the nodes at distance [d] of the next
    level. *)
Lemma forest_width_next (d : nat) (q : list (Node T)) :
  forest_width_at (S d) q = forest_width_at d (next_level q).
Proof.
  induction q as [|n q IH]; [reflexivity|].
  unfold next_level in *. cbn [flat_map].
  rewrite forest_width_at_cons, forest_width_at_app, IH.
  destruct n as [|x l r]; [reflexivity|].
  rewrite forest_width_children. reflexivity.
Qed.

Lemma forest_width_0 (q : list (Node T)) :
  Forall non_null q -> forest_width_at 0 q = length q.
Proof.
  induction q as [|n q IH]; intros Hq; [reflexivity|].
  inversion Hq as [|? ? Hn Hq']; subst.
  destruct n as [|x l r]; [exfalso; apply Hn; reflexivity|].
  rewrite forest_width_at_cons, (IH Hq'). reflexivity.
Qed.

Lemma forest_widest_next (h : nat) (q : list (Node T)) :
  forest_widest (S h) q =
  Nat.max (forest_width_at 0 q) (forest_widest h (next_level q)).
Proof.
  induction h as [|h IH]; [cbn [forest_widest]; lia|].
  change (forest_widest (S (S h)) q)
    with (Nat.max (forest_widest (S h) q) (forest_width_at (S h) q)).
  rewrite IH, forest_width_next. cbn [forest_widest]. lia.
Qed.

Lemma forest_widest_single (h : nat) (n : Node T) :
  forest_widest h [n] = widest h n.
Proof.
  induction h as [|h IH]; [reflexivity|].
  cbn [forest_widest widest].
  rewrite IH, forest_width_at_cons, forest_width_at_nil. lia.
Qed.

(** The outer loop of [get_max_width] keeps the greatest level size met. *)
Lemma width_loop_spec (fuel : nat) (q : list (Node T)) (max_width : Z) :
  Forall non_null q -> forest_height q < fuel ->
  (Z.of_nat (forest_count q) <= INT_MAX)%Z -> (0 <= max_width)%Z ->
  width_loop fuel q max_width =
  Some (Z.max max_width (Z.of_nat (forest_widest (forest_height q) q))).
Proof.
  revert q max_width.
  induction fuel as [|fuel IH]; intros q mw Hq Hf Hc Hm; [lia|].
  destruct q as [|n q]; cbn [width_loop].
  - unfold forest_height. cbn [map fold_right forest_widest]. f_equal. lia.
  - pose proof (forest_height_next n q Hq) as Hh.
    pose proof (forest_count_next (n :: q) Hq) as Hcn.
    rewrite to_int_small by (cbn [length] in *; lia).
    rewrite Nat2Z.id.
    rewrite <- (app_nil_r (n :: q)) at 2.
    rewrite drain_level_all by exact Hq. cbn [bind app].
    rewrite IH; [| apply next_level_non_null | lia | lia | lia].
    rewrite Hh, forest_widest_next, (forest_width_0 _ Hq).
    f_equal. lia.
Qed.

(** [get_max_width] on a tree of fewer than [2^31] nodes returns the size
    of its widest level, the greatest number of nodes at one distance from
    the root; 0 for the empty tree. *)
Theorem get_max_width_is_widest (root : Node T) :
  (Z.of_nat (node_count root) <= INT_MAX)%Z ->
  get_max_width root = Some (Z.of_nat (widest (height root) root)).
Proof.
  intros Hc. destruct root as [|x l r]; [reflexivity|].
  unfold get_max_width.
  assert (Hq : Forall non_null [Nd x l r])
    by (repeat constructor; discriminate).
  assert (Hfh : forest_height [Nd x l r] = height (Nd x l r))
    by (unfold forest_height; cbn [map fold_right]; lia).
  assert (Hfc : forest_count [Nd x l r] = node_count (Nd x l r))
    by (rewrite forest_count_cons; change (forest_count []) with 0; lia).
  pose proof (height_le_count (Nd x l r)) as Hle.
  rewrite (width_loop_spec _ _ _ Hq);
    [| rewrite Hfh; lia | rewrite Hfc; exact Hc | lia].
  rewrite Hfh, forest_widest_single. f_equal.
  assert (1 <= widest (height (Nd x l r)) (Nd x l r)).
  { cbn [height]. generalize (Nat.max (height l) (height r)). intros h.
    induction h as [|h IHh]; cbn [widest width_at] in *; lia. }
  lia.
Qed.

End Facts.

Lemma get_max_width_is_widest_witness :
  get_max_width
    (Nd 5%Z (Nd 8%Z Null (Nd 7%Z Null Null)) (Nd 3%Z (Nd 1%Z Null Null) Null))
  = Some 2%Z.
Proof.
  apply (get_max_width_is_widest
           (Nd 5%Z (Nd 8%Z Null (Nd 7%Z Null Null))
                   (Nd 3%Z (Nd 1%Z Null Null) Null))).
  vm_compute. discriminate.
Defined.

End TreeWidthFacts.

(** * Properties of the treap *)

Module TreapFacts.

Import Treap.

Section Facts.

Context {T P : Type}.
Variable cmp_data : T -> T -> bool.
Variable cmp_priority : P -> P -> bool.

(** ** Splitting *)

Lemma tp_split_items (t : Node T P) (key : T) :
  items (fst (split cmp_data t key)) ++ items (snd (split cmp_data t key)) =
  items t.
Proof.
  induction t as [|x p l IHl r IHr]; cbn [split]; [reflexivity|].
  destruct (cmp_data x key); cbn [fst snd items].
  - rewrite <- app_assoc. cbn [app]. rewrite IHr. reflexivity.
  - rewrite app_assoc, IHl. reflexivity.
Qed.

Lemma tp_inorder_node (x : T) (p : P) (l r : Node T P) :
  inorder (Nd x p l r) = inorder l ++ x :: inorder r.
Proof. unfold inorder. cbn [items]. rewrite map_app. reflexivity. Qed.

Lemma tp_priorities_node (x : T) (p : P) (l r : Node T P) :
  priorities (Nd x p l r) = priorities l ++ p :: priorities r.
Proof. unfold priorities. cbn [items]. rewrite map_app. reflexivity. Qed.

Lemma tp_split_inorder (t : Node T P) (key : T) :
  inorder (fst (split cmp_data t key)) ++
  inorder (snd (split cmp_data t key)) = inorder t.
Proof. unfold inorder. rewrite <- map_app, tp_split_items. reflexivity. Qed.

Lemma tp_split_priorities (t : Node T P) (key : T) (q : P) :
  In q (priorities (fst (split cmp_data t key))) \/
  In q (priorities (snd (split cmp_data t key))) ->
  In q (priorities t).
Proof.
  intros H. apply in_or_app in H. unfold priorities in *.
  rewrite <- map_app, tp_split_items in H. exact H.
Qed.

(** On a tree whose in-order sequence is sorted, [split] puts exactly the
    data less than the key into the first tree. *)
Lemma tp_split_partition (t : Node T P) (key : T) :
  strict_weak_order cmp_data -> sorted cmp_data (inorder t) ->
  (forall y, In y (inorder (fst (split cmp_data t key))) ->
             cmp_data y key = true) /\
  (forall y, In y (inorder (snd (split cmp_data t key))) ->
             cmp_data y key = false).
Proof.
  intros Hswo. induction t as [|x p l IHl r IHr]; cbn [split].
  - intros _. split; intros y [].
  - rewrite tp_inorder_node. intros Hs.
    apply sorted_app_iff in Hs. destruct Hs as (Hsl & Hxr & Hlr).
    pose proof Hxr as Hxr'. apply sorted_cons_iff in Hxr'.
    destruct Hxr' as [Hsr Hx].
    destruct (IHl Hsl) as [Hl1 Hl2]. destruct (IHr Hsr) as [Hr1 Hr2].
    destruct (cmp_data x key) eqn:E; cbn [fst snd].
    + split; [|exact Hr2].
      intros y Hy. rewrite tp_inorder_node in Hy.
      apply in_app_or in Hy. destruct Hy as [Hy|[<-|Hy]]; auto.
      specialize (Hlr y x Hy (or_introl eq_refl)). unfold not_greater in Hlr.
      destruct (cmp_negtrans cmp_data Hswo x y key E); congruence.
    + split; [exact Hl1|].
      intros y Hy. rewrite tp_inorder_node in Hy.
      apply in_app_or in Hy. destruct Hy as [Hy|[<-|Hy]]; auto.
      specialize (Hx y Hy). unfold not_greater in Hx.
      destruct (cmp_data y key) eqn:Ey; [|reflexivity].
      destruct (cmp_negtrans cmp_data Hswo y x key Ey); congruence.
Qed.

Lemma tp_split_heap (t : Node T P) (key : T) :
  heap cmp_priority t ->
  heap cmp_priority (fst (split cmp_data t key)) /\
  heap cmp_priority (snd (split cmp_data t key)).
Proof.
  induction t as [|x p l IHl r IHr]; cbn [split]; [intros _; split; exact I|].
  cbn [heap]. intros (Hl & Hr & Hhl & Hhr).
  destruct (IHl Hhl) as [Hl1 Hl2]. destruct (IHr Hhr) as [Hr1 Hr2].
  destruct (cmp_data x key); cbn [fst snd heap].
  - split; [|exact Hr2]. repeat split; trivial.
    intros q Hq. apply Hr. apply (tp_split_priorities r key). left. exact Hq.
  - split; [exact Hl1|]. repeat split; trivial.
    intros q Hq. apply Hl. apply (tp_split_priorities l key). right. exact Hq.
Qed.

(** [split] relinks the nodes and loses none: the in-order sequence of the
    first tree followed by that of the second is the in-order sequence of
    the tree split, priorities included; both halves are heap ordered if the
    tree was; and if the tree was sorted (strict weak ordering), the first
    holds exactly the data less than the key. *)
Theorem split_partitions (t : Node T P) (key : T) :
  items (fst (split cmp_data t key)) ++ items (snd (split cmp_data t key)) =
    items t /\
  (heap cmp_priority t ->
   heap cmp_priority (fst (split cmp_data t key)) /\
   heap cmp_priority (snd (split cmp_data t key))) /\
  (strict_weak_order cmp_data -> sorted cmp_data (inorder t) ->
   (forall y, In y (inorder (fst (split cmp_data t key))) ->
              cmp_data y key = true) /\
   (forall y, In y (inorder (snd (split cmp_data t key))) ->
              cmp_data y key = false)).
Proof.
  split; [apply tp_split_items|]. split.
  - apply tp_split_heap.
  - apply tp_split_partition.
Qed.

(** ** Insertion: nothing is lost *)

Lemma tp_insert_loop_items (n : Node T P) (e : T) (p : P) :
  n <> Null ->
  exists n' a b,
    insert_loop cmp_data cmp_priority n e p = Some n' /\
    items n = a ++ b /\ items n' = a ++ (e, p) :: b.
Proof.
  induction n as [|x px l IHl r IHr]; intros Hn; [contradiction|].
  cbn [insert_loop]. destruct (cmp_data x e).
  - destruct r as [|rx pr rl rr] eqn:Er; cbv beta match.
    + exists (Nd x px l (Nd e p Null Null)), (items l ++ [(x, px)]), [].
      cbn [items app]. rewrite <- !app_assoc, app_nil_r. cbn [app].
      repeat split.
    + rewrite <- Er in *. destruct (cmp_priority pr p).
      * eexists. exists (items l ++ (x, px) :: items (fst (split cmp_data r e))),
                 (items (snd (split cmp_data r e))).
        split; [reflexivity|]. cbn [items].
        rewrite <- !app_assoc. cbn [app]. rewrite tp_split_items.
        split; reflexivity.
      * destruct IHr as (r' & a & b & -> & Ha & Hb);
          [rewrite Er; discriminate|].
        cbn [bind]. exists (Nd x px l r'), (items l ++ (x, px) :: a), b.
        cbn [items]. rewrite Ha, Hb, <- !app_assoc. repeat split.
  - destruct l as [|lx pl ll lr] eqn:El; cbv beta match.
    + exists (Nd x px (Nd e p Null Null) r), [], ((x, px) :: items r).
      cbn [items app]. repeat split.
    + rewrite <- El in *. destruct (cmp_priority pl p).
      * eexists. exists (items (fst (split cmp_data l e))),
                 (items (snd (split cmp_data l e)) ++ (x, px) :: items r).
        split; [reflexivity|]. cbn [items].
        rewrite <- !app_assoc. cbn [app].
        rewrite app_assoc, tp_split_items.
        split; reflexivity.
      * destruct IHl as (l' & a & b & -> & Ha & Hb);
          [rewrite El; discriminate|].
        cbn [bind]. exists (Nd x px l' r), a, (b ++ (x, px) :: items r).
        cbn [items]. rewrite Ha, Hb, <- !app_assoc. repeat split.
Qed.

Lemma tp_insert_items (root : Node T P) (e : T) (p : P) :
  exists root' a b,
    insert cmp_data cmp_priority root e p = Some root' /\
    items root = a ++ b /\ items root' = a ++ (e, p) :: b.
Proof.
  assert (Hsplit : exists root' a b,
            Some (Nd e p (fst (split cmp_data root e))
                         (snd (split cmp_data root e))) = Some root' /\
            items root = a ++ b /\ items root' = a ++ (e, p) :: b).
  { eexists. exists (items (fst (split cmp_data root e))),
              (items (snd (split cmp_data root e))).
    split; [reflexivity|]. rewrite tp_split_items. split; reflexivity. }
  unfold insert. destruct root as [|x px l r]; [exact Hsplit|].
  destruct (cmp_priority px p); [exact Hsplit|].
  apply tp_insert_loop_items. discriminate.
Qed.

(** [insert] never fails and never rejects: the new pair of data and
    priority, duplicate or not, joins the in-order sequence of the nodes,
    and the nodes already there keep their order. *)
Theorem treap_insert_adds_one (root : Node T P) (e : T) (p : P) :
  exists root' a b,
    insert cmp_data cmp_priority root e p = Some root' /\
    items root = a ++ b /\ items root' = a ++ (e, p) :: b.
Proof. apply tp_insert_items. Qed.

(** ** Insertion keeps the data sorted *)

Lemma tp_insert_before_app (e : T) (a b : list T) :
  (forall y, In y a -> cmp_data y e = true) ->
  insert_before cmp_data e (a ++ b) = a ++ insert_before cmp_data e b.
Proof.
  induction a as [|y a IH]; cbn [app insert_before]; intros H; [reflexivity|].
  rewrite (H y (or_introl eq_refl)), IH; [reflexivity|].
  intros z Hz. apply H. right. exact Hz.
Qed.

Lemma tp_insert_before_ge (e : T) (b : list T) :
  (forall y, In y b -> cmp_data y e = false) ->
  insert_before cmp_data e b = e :: b.
Proof.
  destruct b as [|y b]; cbn [insert_before]; intros H; [reflexivity|].
  rewrite (H y (or_introl eq_refl)). reflexivity.
Qed.

Lemma tp_insert_before_app_l (e x : T) (a b : list T) :
  cmp_data x e = false ->
  insert_before cmp_data e (a ++ x :: b) =
  insert_before cmp_data e a ++ x :: b.
Proof.
  intros E. induction a as [|y a IH]; cbn [app insert_before].
  - rewrite E. reflexivity.
  - destruct (cmp_data y e); [rewrite IH|]; reflexivity.
Qed.

Lemma tp_insert_before_perm (e : T) (a : list T) :
  Permutation (insert_before cmp_data e a) (e :: a).
Proof.
  induction a as [|y a IH]; cbn [insert_before]; [reflexivity|].
  destruct (cmp_data y e); [|reflexivity].
  rewrite IH. apply perm_swap.
Qed.

Lemma tp_insert_before_sorted (e : T) (a : list T) :
  strict_weak_order cmp_data -> sorted cmp_data a ->
  sorted cmp_data (insert_before cmp_data e a).
Proof.
  intros Hswo. induction a as [|y a IH]; cbn [insert_before]; intros Hs.
  - apply sorted_cons_iff. split; [exact Hs | intros ? []].
  - pose proof Hs as Hs'. apply sorted_cons_iff in Hs'.
    destruct Hs' as [Hsa Hy].
    destruct (cmp_data y e) eqn:E.
    + apply sorted_cons_iff. split; [auto|].
      intros z Hz.
      apply (Permutation_in _ (tp_insert_before_perm e a)) in Hz.
      destruct Hz as [<-|Hz]; [|auto].
      unfold not_greater. apply (cmp_asym cmp_data Hswo). exact E.
    + apply sorted_cons_iff. split; [exact Hs|].
      intros z [<-|Hz]; [exact E|].
      apply (not_greater_trans cmp_data Hswo e y z); [exact E | auto].
Qed.

(** The node made of the two halves of a sorted tree split at its own
    data. *)
Lemma tp_new_node_inorder (t : Node T P) (e : T) (p : P) :
  strict_weak_order cmp_data -> sorted cmp_data (inorder t) ->
  inorder (Nd e p (fst (split cmp_data t e)) (snd (split cmp_data t e))) =
  insert_before cmp_data e (inorder t).
Proof.
  intros Hswo Hs.
  destruct (tp_split_partition t e Hswo Hs) as [H1 H2].
  rewrite tp_inorder_node, <- (tp_split_inorder t e).
  rewrite tp_insert_before_app by exact H1.
  rewrite tp_insert_before_ge by exact H2. reflexivity.
Qed.

Lemma tp_insert_loop_inorder (n n' : Node T P) (e : T) (p : P) :
  strict_weak_order cmp_data -> sorted cmp_data (inorder n) ->
  insert_loop cmp_data cmp_priority n e p = Some n' ->
  inorder n' = insert_before cmp_data e (inorder n).
Proof.
  intros Hswo. revert n'.
  induction n as [|x px l IHl r IHr]; intros n' Hs H; [discriminate|].
  rewrite tp_inorder_node in *.
  apply sorted_app_iff in Hs. destruct Hs as (Hsl & Hxr & Hlr).
  pose proof Hxr as Hxr'. apply sorted_cons_iff in Hxr'.
  destruct Hxr' as [Hsr Hx].
  cbn [insert_loop] in H. destruct (cmp_data x e) eqn:E.
  - assert (Hless : forall y, In y (inorder l ++ [x]) -> cmp_data y e = true).
    { intros y Hy. apply in_app_or in Hy.
      destruct Hy as [Hy|[<-|[]]]; [|exact E].
      specialize (Hlr y x Hy (or_introl eq_refl)). unfold not_greater in Hlr.
      destruct (cmp_negtrans cmp_data Hswo x y e E); congruence. }
    assert (Hgoal : forall r',
              inorder r' = insert_before cmp_data e (inorder r) ->
              inorder (Nd x px l r') =
              insert_before cmp_data e (inorder l ++ x :: inorder r)).
    { intros r' Hr'. rewrite tp_inorder_node, Hr'.
      change (inorder l ++ x :: inorder r)
        with (inorder l ++ [x] ++ inorder r).
      rewrite app_assoc, tp_insert_before_app by exact Hless.
      rewrite <- app_assoc. reflexivity. }
    destruct r as [|rx pr rl rr] eqn:Er; cbv beta match in H.
    + injection H as <-. apply Hgoal. reflexivity.
    + rewrite <- Er in *. destruct (cmp_priority pr p).
      * injection H as <-. apply Hgoal.
        apply tp_new_node_inorder; assumption.
      * destruct (insert_loop cmp_data cmp_priority r e p) as [r'|] eqn:El;
          cbn [bind] in H; [|discriminate].
        injection H as <-. apply Hgoal. apply IHr; trivial.
  - assert (Hgoal : forall l',
              inorder l' = insert_before cmp_data e (inorder l) ->
              inorder (Nd x px l' r) =
              insert_before cmp_data e (inorder l ++ x :: inorder r)).
    { intros l' Hl'. rewrite tp_inorder_node, Hl'.
      rewrite tp_insert_before_app_l by exact E. reflexivity. }
    destruct l as [|lx pl ll lr] eqn:El; cbv beta match in H.
    + injection H as <-. apply Hgoal. reflexivity.
    + rewrite <- El in *. destruct (cmp_priority pl p).
      * injection H as <-. apply Hgoal.
        apply tp_new_node_inorder; assumption.
      * destruct (insert_loop cmp_data cmp_priority l e p) as [l'|] eqn:Ei;
          cbn [bind] in H; [|discriminate].
        injection H as <-. apply Hgoal. apply IHl; trivial.
Qed.

Lemma tp_insert_inorder (root root' : Node T P) (e : T) (p : P) :
  strict_weak_order cmp_data -> sorted cmp_data (inorder root) ->
  insert cmp_data cmp_priority root e p = Some root' ->
  inorder root' = insert_before cmp_data e (inorder root).
Proof.
  intros Hswo Hs. unfold insert.
  assert (Hsplit :
            Some (Nd e p (fst (split cmp_data root e))
                         (snd (split cmp_data root e))) = Some root' ->
            inorder root' = insert_before cmp_data e (inorder root)).
  { intros [= <-]. apply tp_new_node_inorder; assumption. }
  destruct root as [|x px l r]; [exact Hsplit|].
  destruct (cmp_priority px p); [exact Hsplit|].
  apply tp_insert_loop_inorder; assumption.
Qed.

(** On a treap whose in-order sequence of data is sorted (strict weak
    ordering), [insert] puts the new element before the first element that
    is not less, whatever its priority, and the sequence stays sorted. *)
Theorem treap_insert_sorted (root : Node T P) (e : T) (p : P) :
  strict_weak_order cmp_data -> sorted cmp_data (inorder root) ->
  exists root',
    insert cmp_data cmp_priority root e p = Some root' /\
    inorder root' = insert_before cmp_data e (inorder root) /\
    sorted cmp_data (inorder root').
Proof.
  intros Hswo Hs.
  destruct (tp_insert_items root e p) as (root' & _ & _ & E & _).
  exists root'. split; [exact E|].
  pose proof (tp_insert_inorder root root' e p Hswo Hs E) as Hi.
  split; [exact Hi|]. rewrite Hi.
  apply tp_insert_before_sorted; assumption.
Qed.

(** ** Insertion keeps the heap order *)

(** A priority above the root of a heap-ordered tree is not below any
    priority of the tree. *)
Lemma tp_above_root (x : T) (pr : P) (l r : Node T P) (p : P) :
  strict_weak_order cmp_priority -> heap cmp_priority (Nd x pr l r) ->
  cmp_priority pr p = true ->
  forall q, In q (priorities (Nd x pr l r)) -> cmp_priority p q = false.
Proof.
  intros Hswo (Hl & Hr & _ & _) E q Hq.
  rewrite tp_priorities_node in Hq.
  assert (Hbelow : q = pr \/ cmp_priority pr q = false).
  { apply in_app_or in Hq. destruct Hq as [Hq|[<-|Hq]]; auto. }
  destruct Hbelow as [->|Hbelow]; [apply (cmp_asym cmp_priority Hswo); exact E|].
  destruct (cmp_priority p q) eqn:Epq; [|reflexivity].
  destruct (cmp_negtrans cmp_priority Hswo pr q p E) as [H|H]; [congruence|].
  pose proof (cmp_asym cmp_priority Hswo _ _ H). congruence.
Qed.

Lemma tp_new_node_heap (t : Node T P) (e : T) (p : P) :
  heap cmp_priority t ->
  (forall q, In q (priorities t) -> cmp_priority p q = false) ->
  heap cmp_priority
    (Nd e p (fst (split cmp_data t e)) (snd (split cmp_data t e))).
Proof.
  intros Hh Hall. destruct (tp_split_heap t e Hh) as [H1 H2].
  cbn [heap]. repeat split; trivial; intros q Hq; apply Hall;
    apply (tp_split_priorities t e); auto.
Qed.

Lemma tp_insert_loop_priorities (n n' : Node T P) (e : T) (p : P) (q : P) :
  insert_loop cmp_data cmp_priority n e p = Some n' ->
  In q (priorities n') -> q = p \/ In q (priorities n).
Proof.
  intros H Hq. destruct n as [|x px l r]; [discriminate|].
  destruct (tp_insert_loop_items (Nd x px l r) e p ltac:(discriminate))
    as (n0 & a & b & E & Ha & Hb).
  rewrite E in H. injection H as <-.
  unfold priorities in *. rewrite Ha. rewrite Hb in Hq.
  rewrite map_app in *. cbn [map snd] in Hq.
  apply in_app_or in Hq. destruct Hq as [Hq|[<-|Hq]]; auto;
    right; apply in_or_app; auto.
Qed.

Lemma tp_insert_loop_heap (n n' : Node T P) (e : T) (p : P) :
  strict_weak_order cmp_priority -> heap cmp_priority n ->
  (forall x px l r, n = Nd x px l r -> cmp_priority px p = false) ->
  insert_loop cmp_data cmp_priority n e p = Some n' ->
  heap cmp_priority n'.
Proof.
  intros Hswo. revert n'.
  induction n as [|x px l IHl r IHr]; intros n' Hh Hroot H; [discriminate|].
  pose proof (Hroot x px l r eq_refl) as Hpx.
  pose proof Hh as (Hl & Hr & Hhl & Hhr).
  cbn [insert_loop] in H. destruct (cmp_data x e).
  - destruct r as [|rx pr rl rr] eqn:Er; cbv beta match in H.
    + injection H as <-. cbn [heap]. repeat split; trivial.
      * intros q [<-|[]]. exact Hpx.
      * intros q [].
      * intros q [].
    + rewrite <- Er in *. destruct (cmp_priority pr p) eqn:Ep.
      * injection H as <-. cbn [heap]. repeat split; trivial.
        -- intros q Hq. rewrite tp_priorities_node in Hq.
           apply in_app_or in Hq. destruct Hq as [Hq|[<-|Hq]]; trivial;
             apply Hr; apply (tp_split_priorities r e); auto.
        -- destruct (tp_split_heap r e Hhr) as [H1 H2].
           intros q Hq. rewrite Er in Hhr.
           apply (tp_above_root rx pr rl rr p Hswo Hhr Ep).
           rewrite <- Er. apply (tp_split_priorities r e). auto.
        -- destruct (tp_split_heap r e Hhr) as [H1 H2].
           intros q Hq. rewrite Er in Hhr.
           apply (tp_above_root rx pr rl rr p Hswo Hhr Ep).
           rewrite <- Er. apply (tp_split_priorities r e). auto.
        -- apply tp_split_heap, Hhr.
        -- apply tp_split_heap, Hhr.
      * destruct (insert_loop cmp_data cmp_priority r e p) as [r'|] eqn:Ei;
          cbn [bind] in H; [|discriminate].
        injection H as <-. cbn [heap]. repeat split; trivial.
        -- intros q Hq.
           destruct (tp_insert_loop_priorities r r' e p q Ei Hq) as [->|Hq'];
             auto.
        -- apply IHr; trivial.
           intros x0 px0 l0 r0 E0. rewrite Er in E0.
           injection E0 as _ <- _ _. exact Ep.
  - destruct l as [|lx pl ll lr] eqn:El; cbv beta match in H.
    + injection H as <-. cbn [heap]. repeat split; trivial.
      * intros q [<-|[]]. exact Hpx.
      * intros q [].
      * intros q [].
    + rewrite <- El in *. destruct (cmp_priority pl p) eqn:Ep.
      * injection H as <-. cbn [heap]. repeat split; trivial.
        -- intros q Hq. rewrite tp_priorities_node in Hq.
           apply in_app_or in Hq. destruct Hq as [Hq|[<-|Hq]]; trivial;
             apply Hl; apply (tp_split_priorities l e); auto.
        -- destruct (tp_split_heap l e Hhl) as [H1 H2].
           intros q Hq. rewrite El in Hhl.
           apply (tp_above_root lx pl ll lr p Hswo Hhl Ep).
           rewrite <- El. apply (tp_split_priorities l e). auto.
        -- destruct (tp_split_heap l e Hhl) as [H1 H2].
           intros q Hq. rewrite El in Hhl.
           apply (tp_above_root lx pl ll lr p Hswo Hhl Ep).
           rewrite <- El. apply (tp_split_priorities l e). auto.
        -- apply tp_split_heap, Hhl.
        -- apply tp_split_heap, Hhl.
      * destruct (insert_loop cmp_data cmp_priority l e p) as [l'|] eqn:Ei;
          cbn [bind] in H; [|discriminate].
        injection H as <-. cbn [heap]. repeat split; trivial.
        -- intros q Hq.
           destruct (tp_insert_loop_priorities l l' e p q Ei Hq) as [->|Hq'];
             auto.
        -- apply IHl; trivial.
           intros x0 px0 l0 r0 E0. rewrite El in E0.
           injection E0 as _ <- _ _. exact Ep.
Qed.

Lemma tp_insert_heap (root root' : Node T P) (e : T) (p : P) :
  strict_weak_order cmp_priority -> heap cmp_priority root ->
  insert cmp_data cmp_priority root e p = Some root' ->
  heap cmp_priority root'.
Proof.
  intros Hswo Hh. unfold insert.
  assert (Hsplit :
            (forall q, In q (priorities root) -> cmp_priority p q = false) ->
            Some (Nd e p (fst (split cmp_data root e))
                         (snd (split cmp_data root e))) = Some root' ->
            heap cmp_priority root').
  { intros Hall [= <-]. apply tp_new_node_heap; assumption. }
  destruct root as [|x px l r].
  - apply Hsplit. intros q [].
  - destruct (cmp_priority px p) eqn:Ep.
    + apply Hsplit. apply (tp_above_root x px l r p Hswo Hh Ep).
    + apply tp_insert_loop_heap; trivial.
      intros x0 px0 l0 r0 [= _ <- _ _]. exact Ep.
Qed.

(** On a heap-ordered treap (priorities under a strict weak ordering)
    [insert] keeps the heap order: afterwards no node has a priority below
    it that is greater than its own. *)
Theorem treap_insert_heap (root root' : Node T P) (e : T) (p : P) :
  strict_weak_order cmp_priority -> heap cmp_priority root ->
  insert cmp_data cmp_priority root e p = Some root' ->
  heap cmp_priority root'.
Proof. apply tp_insert_heap. Qed.

(** ** Any run of inserts *)

Lemma tp_insert_all_snoc (xs : list (T * P)) (ep : T * P) :
  insert_all cmp_data cmp_priority (xs ++ [ep]) =
  (root <- insert_all cmp_data cmp_priority xs ;;
   insert cmp_data cmp_priority root (fst ep) (snd ep)).
Proof. unfold insert_all. rewrite fold_left_app. reflexivity. Qed.

(** Whatever pairs of data and priority are inserted, in whatever order
    (both comparators strict weak orderings), the result is a treap: it
    holds exactly the pairs inserted, its in-order sequence of data is
    sorted, and it is heap ordered on the priorities. *)
Theorem treap_insert_all (xs : list (T * P)) :
  strict_weak_order cmp_data -> strict_weak_order cmp_priority ->
  exists root,
    insert_all cmp_data cmp_priority xs = Some root /\
    Permutation (items root) xs /\
    sorted cmp_data (inorder root) /\
    heap cmp_priority root.
Proof.
  intros Hd Hp. induction xs as [|[e p] xs IH] using rev_ind.
  - exists Null. cbn. repeat split; trivial; constructor.
  - destruct IH as (root & E & Hperm & Hs & Hh).
    destruct (tp_insert_items root e p) as (root' & a & b & Ei & Ha & Hb).
    exists root'. rewrite tp_insert_all_snoc, E. cbn [bind fst snd].
    split; [exact Ei|]. split; [|split].
    + rewrite Hb. rewrite Ha in Hperm. rewrite <- Hperm.
      symmetry. rewrite <- app_assoc. apply Permutation_app_head.
      apply Permutation_sym, Permutation_cons_append.
    + rewrite (tp_insert_inorder root root' e p Hd Hs Ei).
      apply tp_insert_before_sorted; assumption.
    + apply (tp_insert_heap root root' e p Hp Hh Ei).
Qed.

End Facts.

Lemma treap_insert_sorted_witness :
  exists root',
    insert int_less int_less
      (Nd 5%Z 9%Z (Nd 3%Z 4%Z Null Null) (Nd 8%Z 2%Z Null Null)) 6%Z 7%Z
      = Some root' /\
    inorder root' =
      insert_before int_less 6%Z
        (inorder (Nd 5%Z 9%Z (Nd 3%Z 4%Z Null Null) (Nd 8%Z 2%Z Null Null))) /\
    sorted int_less (inorder root').
Proof.
  apply (treap_insert_sorted int_less int_less
           (Nd 5%Z 9%Z (Nd 3%Z 4%Z Null Null) (Nd 8%Z 2%Z Null Null))
           6%Z 7%Z).
  - apply int_less_swo.
  - repeat constructor.
Defined.

Lemma treap_insert_heap_witness :
  heap int_less
    (Nd 5%Z 9%Z (Nd 3%Z 4%Z Null Null)
                (Nd 6%Z 7%Z Null (Nd 8%Z 2%Z Null Null))).
Proof.
  apply (treap_insert_heap int_less int_less
           (Nd 5%Z 9%Z (Nd 3%Z 4%Z Null Null) (Nd 8%Z 2%Z Null Null))
           _ 6%Z 7%Z).
  - apply int_less_swo.
  - cbn. repeat split; intros q Hq;
      repeat (destruct Hq as [<-|Hq]; [reflexivity|]); destruct Hq.
  - reflexivity.
Defined.

Lemma treap_insert_all_witness :
  exists root,
    insert_all int_less int_less [(5, 1); (3, 7); (8, 4); (3, 9)]%Z
      = Some root /\
    Permutation (items root) [(5, 1); (3, 7); (8, 4); (3, 9)]%Z /\
    sorted int_less (inorder root) /\
    heap int_less root.
Proof.
  apply (treap_insert_all int_less int_less
           [(5, 1); (3, 7); (8, 4); (3, 9)]%Z);
    apply int_less_swo.
Defined.

End TreapFacts.

(** * Properties of the hash table *)

Module HashTableFacts.
Import HashTable.

Lemma ht_string_hash_acc sg A key m h0 :
  0 < m -> h0 < m ->
  exists h,
    fold_left
      (fun acc symbol =>
         hash <- acc ;;
         if m =? 0 then None
         else Some (wrap_size (wrap_size (hash * to_size A)
                               + to_size (char_value sg symbol))
                    mod m))
      key (Some h0) = Some h /\ h < m.
Proof.
  intros Hm. revert h0. induction key as [|c key IH]; intros h0 Hh.
  - exists h0. split; [reflexivity | exact Hh].
  - cbn [fold_left bind].
    destruct (N.eqb_spec m 0) as [E|_]; [lia|].
    apply IH. apply N.mod_lt. lia.
Qed.

Lemma ht_fold_none {A B : Type} (f : option A -> B -> option A) (l : list B) :
  (forall b, f None b = None) -> fold_left f l None = None.
Proof.
  intros Hf. induction l as [|b l IH]; [reflexivity|].
  cbn [fold_left]. rewrite Hf. exact IH.
Qed.

(** The string hash [hash<A>] returns an index below [m] whenever
    [m] is positive, so its result addresses a cell of a table of
    capacity [m]; with [m = 0] every non-empty key divides by zero. *)
Theorem string_hash_in_range (sg : bool) (A : Z) (key : list ascii) (m : N) :
  (0 < m -> exists h, string_hash sg A key m = Some h /\ h < m) /\
  (m = 0 -> key <> [] -> string_hash sg A key m = None).
Proof.
  split.
  - intros Hm. apply ht_string_hash_acc; [exact Hm | exact Hm].
  - intros -> Hk. destruct key as [|c key]; [congruence|].
    unfold string_hash. cbn [fold_left bind N.eqb].
    apply ht_fold_none. reflexivity.
Qed.

Section Facts.

Context {T : Type}.
Variable eqb : T -> T -> bool.
Variable hash : T -> N -> N.
Variable equal : T -> T -> bool.
Variables deleted empty : T.
Variable load_reached : N -> N -> bool.

Local Abbreviation loop := (look_up_loop eqb equal deleted empty).
Local Abbreviation lookup := (look_up eqb hash equal deleted empty).
Local Abbreviation is_live := (live eqb deleted empty).

(** ** Assignment through an iterator *)

Lemma ht_assign_length (l : list T) j x : length (assign l j x) = length l.
Proof.
  revert j. induction l as [|y l IH]; intros [|j]; cbn; trivial.
  now rewrite IH.
Qed.

Lemma ht_assign_same (l : list T) j x :
  (j < length l)%nat -> nth_error (assign l j x) j = Some x.
Proof.
  revert j. induction l as [|y l IH]; intros [|j] H; cbn in *;
    try lia; trivial.
  apply IH. lia.
Qed.

Lemma ht_assign_other (l : list T) j k x :
  j <> k -> nth_error (assign l j x) k = nth_error l k.
Proof.
  revert j k. induction l as [|y l IH]; intros [|j] [|k] H; cbn;
    trivial; try congruence.
  apply IH. congruence.
Qed.

Lemma ht_nth_error_repeat (x : T) n k :
  (k < n)%nat -> nth_error (repeat x n) k = Some x.
Proof.
  revert k. induction n as [|n IH]; intros [|k] H; cbn; try lia; trivial.
  apply IH. lia.
Qed.

(** ** The probe sequence *)

(** After [i - 1] steps the index is the start plus the triangular number
    [S = i (i - 1) / 2], reduced modulo the capacity; step [2 * cap - 1]
    is back at the start. *)
Lemma ht_probe_step cap orig hi i S :
  0 < cap -> cap < 4611686018427387904 ->
  orig < cap -> 1 <= i -> i < 2 * cap ->
  2 * S + i = i * i -> hi = (orig + S) mod cap ->
  wrap_size (hi + i) mod cap = (orig + (S + i)) mod cap /\
  size_inc i = i + 1 /\
  (i + 1 = 2 * cap -> wrap_size (hi + i) mod cap = orig).
Proof.
  intros Hc Hc' Ho Hi Hi' HS ->.
  assert (Hlt : (orig + S) mod cap < cap) by (apply N.mod_lt; lia).
  assert (E : wrap_size ((orig + S) mod cap + i) mod cap
              = (orig + (S + i)) mod cap).
  { rewrite wrap_size_small by (unfold SIZE_MOD; lia).
    rewrite N.Div0.add_mod_idemp_l. f_equal. lia. }
  split; [exact E|]. split.
  - apply size_inc_small. unfold SIZE_MAX. lia.
  - intros Hend. rewrite E.
    assert (ES : S + i = i * cap) by nia.
    rewrite ES, N.Div0.mod_add. apply N.mod_small. exact Ho.
Qed.

Lemma ht_loop_safe fuel (cont : list T) cap key orig :
  length cont = N.to_nat cap ->
  0 < cap -> cap < 4611686018427387904 -> orig < cap ->
  forall hi i we fe S,
    hi < cap -> (we = true -> fe < cap) ->
    1 <= i -> i < 2 * cap ->
    2 * S + i = i * i -> hi = (orig + S) mod cap ->
    2 * cap <= N.of_nat fuel + i ->
    exists j, loop fuel cont cap key orig hi i we fe = Some j /\ j < cap.
Proof.
  intros Hlen Hc Hc' Ho.
  induction fuel as [|fuel IH]; intros hi i we fe S Hhi Hfe Hi Hi' HS Ehi Hf.
  - lia.
  - cbn [look_up_loop].
    destruct (nth_error cont (N.to_nat hi)) as [cell|] eqn:Ecell.
    2:{ apply nth_error_None in Ecell. lia. }
    cbn [bind].
    destruct (eqb cell empty); cbn [negb].
    { destruct we; eexists; (split; [reflexivity|]); auto. }
    destruct (equal cell key); [eexists; split; [reflexivity | exact Hhi]|].
    destruct (N.eqb_spec cap 0) as [E0|_]; [lia|].
    destruct (ht_probe_step cap orig hi i S Hc Hc' Ho Hi Hi' HS Ehi)
      as (Estep & Einc & Eend).
    assert (Hnext : wrap_size (hi + i) mod cap < cap)
      by (apply N.mod_lt; lia).
    assert (Hfe' : (we || eqb cell deleted) = true ->
                   (if eqb cell deleted && negb we then hi else fe) < cap).
    { destruct we, (eqb cell deleted); cbn; intros; auto; discriminate. }
    destruct (N.eqb_spec orig (wrap_size (hi + i) mod cap)) as [Eo|No].
    { destruct (we || eqb cell deleted);
        eexists; (split; [reflexivity|]); auto. }
    rewrite Einc.
    apply (IH _ _ _ _ (S + i)); trivial.
    + lia.
    + assert (i + 1 <> 2 * cap) by (intros E; apply No; symmetry; auto). lia.
    + lia.
    + lia.
Qed.

(** In a vector all of whose cells are live and different from the key,
    the probe sequence runs its full cycle and ends where it started. *)
Lemma ht_loop_full fuel (cont : list T) cap key orig :
  length cont = N.to_nat cap ->
  0 < cap -> cap < 4611686018427387904 -> orig < cap ->
  (forall cell, In cell cont -> is_live cell = true /\ equal cell key = false) ->
  forall hi i fe S,
    hi < cap -> 1 <= i -> i < 2 * cap ->
    2 * S + i = i * i -> hi = (orig + S) mod cap ->
    2 * cap <= N.of_nat fuel + i ->
    loop fuel cont cap key orig hi i false fe = Some orig.
Proof.
  intros Hlen Hc Hc' Ho Hfull.
  induction fuel as [|fuel IH]; intros hi i fe S Hhi Hi Hi' HS Ehi Hf.
  - lia.
  - cbn [look_up_loop].
    destruct (nth_error cont (N.to_nat hi)) as [cell|] eqn:Ecell.
    2:{ apply nth_error_None in Ecell. lia. }
    cbn [bind].
    destruct (Hfull cell (nth_error_In _ _ Ecell)) as [Hlive Hne].
    unfold live in Hlive. apply andb_prop in Hlive. destruct Hlive as [Hd He].
    apply negb_true_iff in Hd, He. rewrite He, Hd, Hne. cbn [negb orb andb].
    destruct (N.eqb_spec cap 0) as [E0|_]; [lia|].
    destruct (ht_probe_step cap orig hi i S Hc Hc' Ho Hi Hi' HS Ehi)
      as (Estep & Einc & Eend).
    assert (Hnext : wrap_size (hi + i) mod cap < cap)
      by (apply N.mod_lt; lia).
    destruct (N.eqb_spec orig (wrap_size (hi + i) mod cap)) as [Eo|No].
    { now rewrite <- Eo. }
    rewrite Einc.
    apply (IH _ _ _ (S + i)); trivial.
    + lia.
    + assert (i + 1 <> 2 * cap) by (intros E; apply No; symmetry; auto). lia.
    + lia.
    + lia.
Qed.

Lemma ht_look_up_start cap orig :
  0 < cap -> orig < cap ->
  1 <= 1 /\ 1 < 2 * cap /\ 2 * 0 + 1 = 1 * 1 /\ orig = (orig + 0) mod cap /\
  2 * cap <= N.of_nat (N.to_nat (2 * cap)) + 1.
Proof.
  intros Hc Ho. rewrite N2Nat.id, N.add_0_r, N.mod_small by exact Ho.
  repeat split; lia.
Qed.

(** On a well-formed table, with a hash function that returns an
    index below the capacity, [look_up] terminates and returns an iterator
    into the vector, whatever the cells hold; so [has] returns. *)
Theorem look_up_in_bounds (h : HashTable T) (key : T) :
  table_ok h ->
  hash key (capacity h) < capacity h ->
  exists j cell b,
    lookup h key = Some j /\ j < capacity h /\
    nth_error (hash_container h) (N.to_nat j) = Some cell /\
    has eqb hash equal deleted empty h key = Some b.
Proof.
  intros (Hlen & Hc & Hc') Ho.
  destruct (ht_look_up_start _ _ Hc Ho) as (H1 & H2 & H3 & H4 & H5).
  destruct (ht_loop_safe (N.to_nat (2 * capacity h)) (hash_container h)
              (capacity h) key (hash key (capacity h)) Hlen Hc Hc' Ho
              (hash key (capacity h)) 1 false 0 0 Ho
              ltac:(discriminate) H1 H2 H3 H4 H5) as (j & Ej & Hj).
  destruct (nth_error (hash_container h) (N.to_nat j)) as [cell|] eqn:Ecell.
  2:{ apply nth_error_None in Ecell. lia. }
  exists j, cell, (is_live cell). unfold has, look_up in *.
  rewrite Ej. cbn [bind]. rewrite Ecell. cbn [bind]. auto.
Qed.

(** A table whose cells are all live claims to hold every key: for a
    key that is in no cell, [has] answers [true], and [insert] refuses it
    as a duplicate and leaves the table as it is. *)
Theorem full_table_claims_every_key (h : HashTable T) (key : T) :
  table_ok h ->
  hash key (capacity h) < capacity h ->
  (forall cell, In cell (hash_container h) ->
                is_live cell = true /\ equal cell key = false) ->
  has eqb hash equal deleted empty h key = Some true /\
  (load_reached (elements_count h) (capacity h) = false ->
   forall fuel,
     insert eqb hash equal deleted empty load_reached (S fuel) h key
       = Some (h, false)).
Proof.
  intros (Hlen & Hc & Hc') Ho Hfull.
  destruct (ht_look_up_start _ _ Hc Ho) as (H1 & H2 & H3 & H4 & H5).
  pose proof (ht_loop_full (N.to_nat (2 * capacity h)) (hash_container h)
                (capacity h) key (hash key (capacity h)) Hlen Hc Hc' Ho Hfull
                (hash key (capacity h)) 1 0 0 Ho H1 H2 H3 H4 H5) as Ej.
  destruct (nth_error (hash_container h) (N.to_nat (hash key (capacity h))))
    as [cell|] eqn:Ecell.
  2:{ apply nth_error_None in Ecell. lia. }
  destruct (Hfull cell (nth_error_In _ _ Ecell)) as [Hlive _].
  split.
  - unfold has, look_up. rewrite Ej. cbn [bind]. rewrite Ecell. cbn [bind].
    now rewrite Hlive.
  - intros Hload fuel. cbn [insert]. rewrite Hload. cbn [bind].
    unfold look_up. rewrite Ej. cbn [bind]. rewrite Ecell. cbn [bind].
    now rewrite Hlive.
Qed.

(** ** Equality as the comparison *)

Section Equality.

Hypothesis eqb_ok : forall a b, eqb a b = true <-> a = b.
Hypothesis equal_ok : forall a b, equal a b = true <-> a = b.

Lemma ht_eqb_refl a : eqb a a = true.
Proof. now apply eqb_ok. Qed.

(** In a table fresh from the constructor no key is present, and the
    first [insert] stores its key in the cell the hash function names. *)
Theorem fresh_table (cap : N) (key : T) :
  0 < cap -> hash key cap < cap ->
  has eqb hash equal deleted empty (HashTable_new empty cap) key
    = Some false /\
  (load_reached 0 cap = false ->
   forall fuel,
     insert eqb hash equal deleted empty load_reached (S fuel)
       (HashTable_new empty cap) key
     = Some (mkHashTable
               (assign (repeat empty (N.to_nat cap))
                       (N.to_nat (hash key cap)) key)
               1 cap,
             true)).
Proof.
  intros Hc Ho.
  assert (Ecell : nth_error (repeat empty (N.to_nat cap))
                    (N.to_nat (hash key cap)) = Some empty)
    by (apply ht_nth_error_repeat; lia).
  assert (Elook : lookup (HashTable_new empty cap) key = Some (hash key cap)).
  { unfold look_up, HashTable_new. cbn [capacity hash_container].
    destruct (N.to_nat (2 * cap)) as [|f] eqn:Ef; [lia|].
    cbn [look_up_loop]. rewrite Ecell. cbn [bind].
    now rewrite ht_eqb_refl. }
  assert (Elive : is_live empty = false).
  { unfold live. rewrite ht_eqb_refl. apply andb_false_r. }
  split.
  - unfold has. rewrite Elook. cbn [bind HashTable_new hash_container].
    rewrite Ecell. cbn [bind]. now rewrite Elive.
  - intros Hload fuel. cbn [insert].
    cbn [HashTable_new elements_count capacity]. rewrite Hload. cbn [bind].
    fold (HashTable_new empty cap). rewrite Elook.
    cbn [bind HashTable_new hash_container elements_count capacity].
    rewrite Ecell. cbn [bind]. now rewrite Elive.
Qed.

(** Once a tombstone is remembered, a search that ends on a cell that is
    not live ends on that tombstone. *)
Lemma ht_loop_tombstone fuel (cont : list T) cap key orig :
  is_live key = true ->
  forall hi i fe j c,
    loop fuel cont cap key orig hi i true fe = Some j ->
    nth_error cont (N.to_nat j) = Some c -> is_live c = false ->
    j = fe.
Proof.
  intros Hkey.
  induction fuel as [|fuel IH]; intros hi i fe j c Hrun Hc Hdead.
  - discriminate.
  - cbn [look_up_loop] in Hrun.
    destruct (nth_error cont (N.to_nat hi)) as [cell|] eqn:Ecell;
      [|discriminate].
    cbn [bind] in Hrun.
    destruct (eqb cell empty); cbn [negb] in Hrun; [congruence|].
    rewrite andb_false_r in Hrun. cbn [orb] in Hrun.
    destruct (equal cell key) eqn:Eeq.
    { apply equal_ok in Eeq. subst cell.
      injection Hrun as <-. congruence. }
    destruct (cap =? 0); [discriminate|].
    destruct (orig =? wrap_size (hi + i) mod cap); [congruence|].
    exact (IH _ _ _ _ _ Hrun Hc Hdead).
Qed.

(** A search that ends on a cell that is not live finds the key there
    once the key is stored in that cell. *)
Lemma ht_loop_found_after fuel (cont : list T) cap key orig :
  is_live key = true ->
  forall hi i fe j c,
    loop fuel cont cap key orig hi i false fe = Some j ->
    nth_error cont (N.to_nat j) = Some c -> is_live c = false ->
    loop fuel (assign cont (N.to_nat j) key) cap key orig hi i false fe
      = Some j.
Proof.
  intros Hkey.
  assert (Hkd : eqb key deleted = false /\ eqb key empty = false).
  { unfold live in Hkey. apply andb_prop in Hkey.
    destruct Hkey as [Hd He]. now apply negb_true_iff in Hd, He. }
  destruct Hkd as [Hkd Hke].
  assert (Hlen : forall j c, nth_error cont (N.to_nat j) = Some c ->
                             (N.to_nat j < length cont)%nat).
  { intros j c Hc. apply nth_error_Some. congruence. }
  assert (Hhit : forall f hi i fe j c,
             nth_error cont (N.to_nat j) = Some c -> hi = j ->
             loop (S f) (assign cont (N.to_nat j) key) cap key orig hi i
               false fe = Some j).
  { intros f hi i fe j c Hc ->. cbn [look_up_loop].
    rewrite ht_assign_same by exact (Hlen _ _ Hc). cbn [bind].
    rewrite Hke. cbn [negb].
    now rewrite (proj2 (equal_ok key key) eq_refl). }
  induction fuel as [|fuel IH]; intros hi i fe j c Hrun Hc Hdead.
  - discriminate.
  - pose proof Hrun as Hrun0. cbn [look_up_loop] in Hrun.
    destruct (nth_error cont (N.to_nat hi)) as [cell|] eqn:Ecell;
      [|discriminate].
    cbn [bind] in Hrun.
    destruct (eqb cell empty) eqn:Ee; cbn [negb] in Hrun.
    { injection Hrun as <-. exact (Hhit _ _ _ _ _ _ Hc eq_refl). }
    destruct (equal cell key) eqn:Eeq.
    { injection Hrun as <-. rewrite Ecell in Hc. injection Hc as <-.
      apply equal_ok in Eeq. subst cell. congruence. }
    destruct (eqb cell deleted) eqn:Ed.
    + (* a tombstone: the search returns it *)
      cbn [orb andb negb] in Hrun.
      assert (Ej : j = hi).
      { destruct (cap =? 0); [discriminate|].
        destruct (orig =? wrap_size (hi + i) mod cap); [congruence|].
        exact (ht_loop_tombstone _ _ _ _ _ Hkey _ _ _ _ _ Hrun Hc Hdead). }
      exact (Hhit _ _ _ _ _ _ Hc (eq_sym Ej)).
    + (* a live cell: it is not the one assigned to *)
      cbn [orb andb negb] in Hrun.
      assert (Hne : N.to_nat j <> N.to_nat hi).
      { intros E. rewrite E, Ecell in Hc. injection Hc as <-.
        unfold live in Hdead. rewrite Ed, Ee in Hdead. discriminate. }
      cbn [look_up_loop]. rewrite (ht_assign_other _ _ _ _ Hne), Ecell.
      cbn [bind]. rewrite Ee, Eeq, Ed. cbn [negb orb andb].
      destruct (cap =? 0); [discriminate|].
      destruct (orig =? wrap_size (hi + i) mod cap); [exact Hrun|].
      exact (IH _ _ _ _ _ Hrun Hc Hdead).
Qed.

Lemma ht_assign_twice (l : list T) j x y :
  assign (assign l j x) j y = assign l j y.
Proof.
  revert j. induction l as [|z l IH]; intros [|j]; cbn; trivial.
  now rewrite IH.
Qed.

(** What a successful [insert] without [rehash] has done. *)
Lemma ht_insert_spec fuel (h h' : HashTable T) key :
  load_reached (elements_count h) (capacity h) = false ->
  is_live key = true ->
  insert eqb hash equal deleted empty load_reached (S fuel) h key
    = Some (h', true) ->
  exists j c,
    lookup h key = Some j /\
    nth_error (hash_container h) (N.to_nat j) = Some c /\
    is_live c = false /\
    h' = mkHashTable (assign (hash_container h) (N.to_nat j) key)
           (size_inc (elements_count h)) (capacity h) /\
    lookup h' key = Some j /\
    nth_error (hash_container h') (N.to_nat j) = Some key.
Proof.
  intros Hload Hkey Hins. cbn [insert] in Hins. rewrite Hload in Hins.
  cbn [bind] in Hins.
  destruct (lookup h key) as [j|] eqn:Ej; [|discriminate].
  cbn [bind] in Hins.
  destruct (nth_error (hash_container h) (N.to_nat j)) as [c|] eqn:Ec;
    [|discriminate].
  cbn [bind] in Hins.
  destruct (is_live c) eqn:Elive; [discriminate|].
  injection Hins as <-.
  exists j, c. do 4 (split; [trivial|]). split.
  - unfold look_up in *. cbn [capacity hash_container].
    exact (ht_loop_found_after _ _ _ _ _ Hkey _ _ _ _ _ Ej Ec Elive).
  - cbn [hash_container]. apply ht_assign_same.
    apply nth_error_Some. congruence.
Qed.

(** A key that [insert] has stored (without [rehash]) is found by
    [has], and a second [insert] of it is refused as a duplicate and
    leaves the table as it is. *)
Theorem insert_then_has fuel (h h' : HashTable T) key :
  load_reached (elements_count h) (capacity h) = false ->
  is_live key = true ->
  insert eqb hash equal deleted empty load_reached (S fuel) h key
    = Some (h', true) ->
  has eqb hash equal deleted empty h' key = Some true /\
  (load_reached (elements_count h') (capacity h') = false ->
   insert eqb hash equal deleted empty load_reached (S fuel) h' key
     = Some (h', false)).
Proof.
  intros Hload Hkey Hins.
  destruct (ht_insert_spec _ _ _ _ Hload Hkey Hins)
    as (j & c & _ & _ & _ & _ & Ej & Ecell).
  split.
  - unfold has. rewrite Ej. cbn [bind]. rewrite Ecell. cbn [bind].
    now rewrite Hkey.
  - intros Hload'. cbn [insert]. rewrite Hload'. cbn [bind].
    rewrite Ej. cbn [bind]. rewrite Ecell. cbn [bind]. now rewrite Hkey.
Qed.

(** [erase] undoes a successful [insert] (without [rehash]) up to a
    tombstone: it returns [true], the count is the one before the
    [insert], and the cell that held the key holds [deleted]. *)
Theorem insert_then_erase fuel (h h' : HashTable T) key :
  load_reached (elements_count h) (capacity h) = false ->
  is_live key = true ->
  elements_count h < SIZE_MAX ->
  insert eqb hash equal deleted empty load_reached (S fuel) h key
    = Some (h', true) ->
  exists j,
    lookup h key = Some j /\
    erase eqb hash equal deleted empty h' key
      = Some (mkHashTable (assign (hash_container h) (N.to_nat j) deleted)
                (elements_count h) (capacity h),
              true).
Proof.
  intros Hload Hkey Hcount Hins.
  destruct (ht_insert_spec _ _ _ _ Hload Hkey Hins)
    as (j & c & Ej0 & _ & _ & Eh' & Ej & Ecell).
  exists j. split; [exact Ej0|].
  unfold erase. rewrite Ej. cbn [bind]. rewrite Ecell. cbn [bind].
  unfold live in Hkey. apply andb_prop in Hkey. destruct Hkey as [Hd He].
  apply negb_true_iff in Hd, He. rewrite Hd, He. cbn [orb].
  subst h'. cbn [elements_count hash_container capacity].
  rewrite size_inc_small by exact Hcount.
  destruct (N.eqb_spec (elements_count h + 1) 0) as [E|_]; [lia|].
  rewrite ht_assign_twice. do 3 f_equal.
  unfold size_dec. unfold SIZE_MAX in *.
  replace (elements_count h + 1 + 18446744073709551615)
    with (elements_count h + 1 * SIZE_MOD) by (unfold SIZE_MOD; lia).
  unfold wrap_size. rewrite N.Div0.mod_add. apply N.mod_small.
  unfold SIZE_MOD. lia.
Qed.

End Equality.

End Facts.

Lemma look_up_in_bounds_witness :
  exists j cell b,
    look_up N.eqb number_hash N.eqb 1 0 (number_table [0; 5; 1; 0] 1 4) 9
      = Some j /\
    j < 4 /\
    nth_error [0; 5; 1; 0] (N.to_nat j) = Some cell /\
    has N.eqb number_hash N.eqb 1 0 (number_table [0; 5; 1; 0] 1 4) 9
      = Some b.
Proof.
  apply (look_up_in_bounds N.eqb number_hash N.eqb 1 0
           (number_table [0; 5; 1; 0] 1 4) 9).
  - repeat split.
  - reflexivity.
Defined.

Lemma full_table_claims_every_key_witness :
  has N.eqb number_hash N.eqb 1 0 (number_table [4; 5; 6; 7] 4 4) 9
    = Some true /\
  insert N.eqb number_hash N.eqb 1 0 three_quarters 1
    (number_table [4; 5; 6; 7] 4 4) 9
    = Some (number_table [4; 5; 6; 7] 4 4, false).
Proof.
  destruct (full_table_claims_every_key N.eqb number_hash N.eqb 1 0
              three_quarters (number_table [4; 5; 6; 7] 4 4) 9)
    as [Hhas Hins].
  - repeat split.
  - reflexivity.
  - intros cell Hin. cbn in Hin.
    repeat (destruct Hin as [<-|Hin]; [split; reflexivity|]).
    destruct Hin.
  - split; [exact Hhas | exact (Hins eq_refl 0%nat)].
Defined.

Lemma fresh_table_witness :
  has N.eqb number_hash N.eqb 1 0 (HashTable_new 0 8) 9 = Some false /\
  insert N.eqb number_hash N.eqb 1 0 three_quarters 1 (HashTable_new 0 8) 9
    = Some (number_table [0; 9; 0; 0; 0; 0; 0; 0] 1 8, true).
Proof.
  destruct (fresh_table N.eqb number_hash N.eqb 1 0 three_quarters
              N.eqb_eq 8 9)
    as [Hhas Hins].
  - reflexivity.
  - reflexivity.
  - split; [exact Hhas | exact (Hins eq_refl 0%nat)].
Defined.

Lemma insert_then_has_witness :
  has N.eqb number_hash N.eqb 1 0 (number_table [0; 5; 9; 0] 2 4) 9
    = Some true /\
  insert N.eqb number_hash N.eqb 1 0 three_quarters 1
    (number_table [0; 5; 9; 0] 2 4) 9
    = Some (number_table [0; 5; 9; 0] 2 4, false).
Proof.
  destruct (insert_then_has N.eqb number_hash N.eqb 1 0 three_quarters
              N.eqb_eq 0%nat
              (number_table [0; 5; 1; 0] 1 4)
              (number_table [0; 5; 9; 0] 2 4) 9)
    as [Hhas Hins].
  - reflexivity.
  - reflexivity.
  - reflexivity.
  - split; [exact Hhas | exact (Hins eq_refl)].
Defined.

Lemma insert_then_erase_witness :
  exists j,
    look_up N.eqb number_hash N.eqb 1 0 (number_table [0; 5; 1; 0] 1 4) 9
      = Some j /\
    erase N.eqb number_hash N.eqb 1 0 (number_table [0; 5; 9; 0] 2 4) 9
      = Some (mkHashTable (assign [0; 5; 1; 0] (N.to_nat j) 1) 1 4, true).
Proof.
  apply (insert_then_erase N.eqb number_hash N.eqb 1 0 three_quarters
           N.eqb_eq 0%nat
           (number_table [0; 5; 1; 0] 1 4)
           (number_table [0; 5; 9; 0] 2 4) 9).
  - reflexivity.
  - reflexivity.
  - reflexivity.
  - reflexivity.
Defined.

End HashTableFacts.
